(** * UNFPA job-feed scraper: classification, merge and feed reconciliation

    A shallow embedding of [scraper.py]: the text normalizer, the grade
    expansion (regular-expression substitutions), the eligibility
    classifier, the candidate merger, the numeric identifier (MD5), the
    page loop with its cap, the anchor scan, and the RSS feed
    reconciliation with the writing and the reading of the feed file.

    Python strings are sequences of Unicode code points; they are modelled
    as lists of [N].  The Unicode character database consulted by
    [unicodedata.normalize], [str.upper], [str.strip] and the [re] classes
    is not part of the repository: its ASCII range is written out, and its
    values on the other code points are a parameter ([UnicodeData]). *)

From Stdlib Require Import String Ascii List NArith ZArith Bool Arith Lia.
Import ListNotations.

Set Implicit Arguments.
Local Set Warnings "-register-all".

(* ------------------------------------------------------------------------- *)
(** ** Strings *)

Definition char := N.
Definition str := list char.

(** A string literal of the source (ASCII) as a list of code points. *)
Definition lit (s : string) : str :=
  map N_of_ascii (list_ascii_of_string s).

Definition str_dec : forall a b : str, {a = b} + {a <> b} :=
  list_eq_dec N.eq_dec.

(** [a == b] on strings. *)
Fixpoint str_eqb (a b : str) : bool :=
  match a, b with
  | [], [] => true
  | x :: a', y :: b' => (x =? y)%N && str_eqb a' b'
  | _, _ => false
  end.

(** [s.startswith(p)] *)
Fixpoint startswith (s p : str) : bool :=
  match p, s with
  | [], _ => true
  | _ :: _, [] => false
  | a :: p', b :: s' => (a =? b)%N && startswith s' p'
  end.

(** [needle in hay] on strings: substring test. *)
Fixpoint contains (hay needle : str) : bool :=
  startswith hay needle ||
  match hay with
  | [] => false
  | _ :: hay' => contains hay' needle
  end.

(** [any(kw in n for kw in kws)] *)
Definition any_in (kws : list str) (n : str) : bool :=
  existsb (fun kw => contains n kw) kws.

(** The relational reading of [contains]. *)
Definition infix (needle hay : str) : Prop :=
  exists pre post, hay = pre ++ needle ++ post.

(* ------------------------------------------------------------------------- *)
(** ** The Unicode character database *)

(** The part of the database that the program reads, on the code points
    above the ASCII range. *)
Record UnicodeData := {
  ud_decomposition : char -> list char; (* full compatibility decomposition *)
  ud_combining : char -> N;             (* canonical combining class *)
  ud_upper : char -> list char;         (* full uppercase mapping *)
  ud_isspace : char -> bool;            (* str.isspace, \s *)
  ud_isdecimal : char -> bool;          (* \d *)
  ud_isalnum : char -> bool             (* str.isalnum; \w adds the underscore *)
}.

Definition is_ascii (c : char) : bool := (c <? 128)%N.

(** A small table used in examples: a few Latin-1, Greek and punctuation
    entries with their database values, every other code point inert. *)
Definition sample_decomposition (c : char) : list char :=
  if (c =? 0xA0)%N then [0x20%N]                 (* NO-BREAK SPACE *)
  else if (c =? 0xB4)%N then [0x20; 0x301]%N     (* ACUTE ACCENT *)
  else if (c =? 0xE9)%N then [0x65; 0x301]%N     (* e with acute *)
  else if (c =? 0x2011)%N then [0x2010%N]        (* NON-BREAKING HYPHEN *)
  else if (c =? 0xFE58)%N then [0x2014%N]        (* SMALL EM DASH *)
  else if (c =? 0xFF0D)%N then [0x2D%N]          (* FULLWIDTH HYPHEN-MINUS *)
  else if (c =? 0xFF30)%N then [0x50%N]          (* FULLWIDTH P *)
  else if (c =? 0x3000)%N then [0x20%N]          (* IDEOGRAPHIC SPACE *)
  else [c].

Definition sample_combining (c : char) : N :=
  if (c =? 0x301)%N then 230%N
  else if (c =? 0x323)%N then 220%N
  else if (c =? 0x345)%N then 240%N
  else 0%N.

Definition sample_upper (c : char) : list char :=
  if (c =? 0xDF)%N then [0x53; 0x53]%N           (* sharp s *)
  else if (c =? 0xE9)%N then [0xC9%N]
  else if (c =? 0x3B1)%N then [0x391%N]          (* alpha *)
  else if (c =? 0x345)%N then [0x399%N]          (* ypogegrammeni *)
  else [c].

Definition sample_isspace (c : char) : bool :=
  (c =? 0x85)%N || (c =? 0xA0)%N || (c =? 0x2003)%N || (c =? 0x3000)%N.

Definition sample_isdecimal (c : char) : bool :=
  (0x660 <=? c)%N && (c <=? 0x669)%N.            (* ARABIC-INDIC DIGITS *)

Definition sample_isalnum (c : char) : bool :=
  sample_isdecimal c || (c =? 0xDF)%N || (c =? 0xE9)%N || (c =? 0xC9)%N
  || (c =? 0x3B1)%N || (c =? 0x391)%N || (c =? 0x399)%N || (c =? 0xFF30)%N.

Definition sample_data : UnicodeData :=
  {| ud_decomposition := sample_decomposition;
     ud_combining := sample_combining;
     ud_upper := sample_upper;
     ud_isspace := sample_isspace;
     ud_isdecimal := sample_isdecimal;
     ud_isalnum := sample_isalnum |}.

(** Case analysis on the tests [c =? n] of a table, closing each case in
    which a test succeeds. *)
Ltac by_table c :=
  repeat match goal with
         | |- context [if (c =? ?n)%N then _ else _] =>
             let E := fresh "E" in
             destruct (c =? n)%N eqn:E;
             [apply N.eqb_eq in E; cbn [In]; tauto|]
         end.

Section Scraper.

Context (ud : UnicodeData).

(** [str.isspace] of one character.  ASCII: TAB, LF, VT, FF, CR, the four
    separators 0x1C-0x1F and SPACE. *)
Definition isspace (c : char) : bool :=
  if is_ascii c
  then ((9 <=? c)%N && (c <=? 13)%N) || ((28 <=? c)%N && (c <=? 32)%N)
  else ud_isspace ud c.

(** The class [\d]. *)
Definition isdecimal (c : char) : bool :=
  if is_ascii c then (48 <=? c)%N && (c <=? 57)%N else ud_isdecimal ud c.

Definition isalnum (c : char) : bool :=
  if is_ascii c
  then ((48 <=? c)%N && (c <=? 57)%N) || ((65 <=? c)%N && (c <=? 90)%N)
       || ((97 <=? c)%N && (c <=? 122)%N)
  else ud_isalnum ud c.

(** The class [\w]: alphanumerics and the underscore. *)
Definition isword (c : char) : bool := isalnum c || (c =? 95)%N.

(** Compatibility decomposition of one code point (identity on ASCII). *)
Definition decomposition (c : char) : list char :=
  if is_ascii c then [c] else ud_decomposition ud c.

(** Canonical combining class (0 on ASCII). *)
Definition combining (c : char) : N :=
  if is_ascii c then 0%N else ud_combining ud c.

(** Uppercase mapping of one code point. *)
Definition upper_char (c : char) : list char :=
  if is_ascii c
  then (if (97 <=? c)%N && (c <=? 122)%N then [(c - 32)%N] else [c])
  else ud_upper ud c.

(** [str.upper] *)
Definition upper (s : str) : str := flat_map upper_char s.

(** Canonical ordering, as [unicodedata] does it: an insertion sort of every
    character with a non-zero combining class, moving it left past the
    characters of a strictly greater class and stopping at a starter.  The
    output under construction is kept reversed. *)
Fixpoint insert_mark (c : char) (rev_out : list char) : list char :=
  match rev_out with
  | [] => [c]
  | p :: rest =>
      if (combining p =? 0)%N || (combining p <=? combining c)%N
      then c :: rev_out
      else p :: insert_mark c rest
  end.

Definition place (rev_out : list char) (c : char) : list char :=
  if (combining c =? 0)%N then c :: rev_out else insert_mark c rev_out.

Definition canonical_order (s : str) : str := rev (fold_left place s []).

(** [unicodedata.normalize("NFKD", s)] *)
Definition nfkd (s : str) : str := canonical_order (flat_map decomposition s).

(** [str.strip()] *)
Fixpoint lstrip (s : str) : str :=
  match s with
  | c :: s' => if isspace c then lstrip s' else s
  | [] => []
  end.

Definition rstrip (s : str) : str := rev (lstrip (rev s)).

Definition strip (s : str) : str := rstrip (lstrip s).


(* ------------------------------------------------------------------------- *)
(** ** Regular expressions

    The fragment of [re] that the program uses, with the backtracking
    semantics of the library: alternatives are tried left to right, [+] is
    greedy and gives characters back one at a time, [\b] looks at the
    character before and after the position. *)

Inductive regex :=
| Eps
| Chr (c : char)
| Cls (p : char -> bool)
| Cat (r1 r2 : regex)
| Alt (r1 r2 : regex)
| Plus (p : char -> bool)
| Boundary
| Group (n : nat) (r : regex).

(** The literal text [s] as a pattern ([re.escape]). *)
Fixpoint Str (s : str) : regex :=
  match s with
  | [] => Eps
  | c :: s' => Cat (Chr c) (Str s')
  end.

Definition captures := list (nat * str).

Fixpoint capture (caps : captures) (n : nat) : str :=
  match caps with
  | [] => []
  | (m, v) :: caps' => if Nat.eqb m n then v else capture caps' n
  end.

(** A match in progress: the character before the position, the text from
    the position on, and the groups closed so far. *)
Definition cont := option char -> str -> captures -> option (captures * str).

Definition word_before (prev : option char) : bool :=
  match prev with Some c => isword c | None => false end.

Definition word_after (s : str) : bool :=
  match s with c :: _ => isword c | [] => false end.

Definition at_boundary (prev : option char) (s : str) : bool :=
  xorb (word_before prev) (word_after s).

(** Zero or more characters of class [p], longest first. *)
Fixpoint many (p : char -> bool) (k : cont) (prev : option char) (s : str)
  (caps : captures) : option (captures * str) :=
  match s with
  | c :: s' =>
      if p c
      then match many p k (Some c) s' caps with
           | Some r => Some r
           | None => k prev s caps
           end
      else k prev s caps
  | [] => k prev s caps
  end.

Fixpoint rmatch (r : regex) (k : cont) (prev : option char) (s : str)
  (caps : captures) : option (captures * str) :=
  match r with
  | Eps => k prev s caps
  | Chr c =>
      match s with
      | x :: s' => if (x =? c)%N then k (Some x) s' caps else None
      | [] => None
      end
  | Cls p =>
      match s with
      | x :: s' => if p x then k (Some x) s' caps else None
      | [] => None
      end
  | Cat r1 r2 => rmatch r1 (rmatch r2 k) prev s caps
  | Alt r1 r2 =>
      match rmatch r1 k prev s caps with
      | Some res => Some res
      | None => rmatch r2 k prev s caps
      end
  | Plus p =>
      match s with
      | x :: s' => if p x then many p k (Some x) s' caps else None
      | [] => None
      end
  | Boundary => if at_boundary prev s then k prev s caps else None
  | Group n r1 =>
      rmatch r1
        (fun prev' s' caps' =>
           k prev' s' ((n, firstn (length s - length s') s) :: caps'))
        prev s caps
  end.

(** A match of [r] that starts at the current position: the groups and the
    text left after the match. *)
Definition match_at (r : regex) (prev : option char) (s : str)
  : option (captures * str) :=
  rmatch r (fun _ s' caps => Some (caps, s')) prev s [].

(** [pattern.search(s)] as a truth value. *)
Fixpoint search_from (r : regex) (prev : option char) (s : str) : bool :=
  match match_at r prev s with
  | Some _ => true
  | None =>
      match s with
      | [] => false
      | c :: s' => search_from r (Some c) s'
      end
  end.

Definition re_search (r : regex) (s : str) : bool := search_from r None s.

(** A replacement template: literal text and group references. *)
Definition template := list (str + nat).

Definition expand (repl : template) (caps : captures) : str :=
  flat_map (fun part => match part with
                        | inl text => text
                        | inr n => capture caps n
                        end) repl.

(** [re.sub(r, repl, s)]: scan left to right; at a match emit the expanded
    template and resume after it; elsewhere copy the character.  [skip]
    counts the characters of the current match still to pass over. *)
Fixpoint sub_scan (r : regex) (repl : template) (prev : option char)
  (s : str) (skip : nat) : str :=
  match skip with
  | S n =>
      match s with
      | c :: s' => sub_scan r repl (Some c) s' n
      | [] => []
      end
  | O =>
      match match_at r prev s with
      | Some (caps, rest) =>
          expand repl caps ++
          match s with
          | [] => []
          | c :: s' =>
              match length s - length rest with
              | O => c :: sub_scan r repl (Some c) s' 0
              | S m => sub_scan r repl (Some c) s' m
              end
          end
      | None =>
          match s with
          | [] => []
          | c :: s' => c :: sub_scan r repl (Some c) s' 0
          end
      end
  end.

Definition re_sub (r : regex) (repl : template) (s : str) : str :=
  sub_scan r repl None s 0.

(* ------------------------------------------------------------------------- *)
(** ** Constants *)

Definition MAX_INCLUDED : nat := 50.

Definition INCLUDED_GRADES : list str :=
  map lit ["P-1"; "P-2"; "P-3"; "P-4"; "P-5"; "D-1"; "D-2"]%string.

Definition EXCLUDED_GRADE_PREFIXES : list str :=
  map lit ["G-"; "SB-"; "LSC-"]%string.

Definition EXCLUDED_NO_GRADES : list str :=
  map lit ["NOA"; "NOB"; "NOC"; "NOD"; "NO-A"; "NO-B"; "NO-C"; "NO-D"]%string.

Definition CONSULTANT_KEYWORDS : list str :=
  map lit ["CONSULTANT"; "CONSULTANCY"]%string.

Definition INTERN_KEYWORDS : list str :=
  map lit ["INTERN"; "FELLOWSHIP"; "FELLOW"]%string.

(* ------------------------------------------------------------------------- *)
(** ** Helpers: normalization *)

(** The class [[\u2010-\u2015\u2212\uFE58\uFE63\uFF0D]]. *)
Definition is_dash (c : char) : bool :=
  ((0x2010 <=? c)%N && (c <=? 0x2015)%N) || (c =? 0x2212)%N
  || (c =? 0xFE58)%N || (c =? 0xFE63)%N || (c =? 0xFF0D)%N.

Definition normalize (text : str) : str :=
  match text with
  | [] => []
  | _ :: _ =>
      let text := nfkd text in
      let text := re_sub (Cls is_dash) [inl (lit "-")] text in
      let text := strip (upper text) in
      let text := re_sub (Plus isspace) [inl (lit " ")] text in
      text
  end.

(** The alternation [(P|D|G|SB|LSC|NO)]. *)
Definition grade_family : regex :=
  Alt (Str (lit "P")) (Alt (Str (lit "D")) (Alt (Str (lit "G"))
    (Alt (Str (lit "SB")) (Alt (Str (lit "LSC")) (Str (lit "NO")))))).

(** The template [\1-\2]. *)
Definition family_dash_digits : template := [inr 1; inl (lit "-"); inr 2].

(** [\b(P|D|G|SB|LSC|NO)(\d+)\b] *)
Definition compact_grade : regex :=
  Cat Boundary (Cat (Group 1 grade_family)
    (Cat (Group 2 (Plus isdecimal)) Boundary)).

(** [\b(P|D|G|SB|LSC|NO)\s+(\d+)\b] *)
Definition spaced_grade : regex :=
  Cat Boundary (Cat (Group 1 grade_family)
    (Cat (Plus isspace) (Cat (Group 2 (Plus isdecimal)) Boundary))).

Definition expand_compact_grade (text : str) : str :=
  re_sub compact_grade family_dash_digits text.

Definition expand_spaced_grade (text : str) : str :=
  re_sub spaced_grade family_dash_digits text.

Definition normalize_grade (raw : str) : str :=
  let n := normalize raw in
  let n := expand_compact_grade n in
  let n := expand_spaced_grade n in
  n.

(* ------------------------------------------------------------------------- *)
(** ** Helpers: classification *)

Definition contains_consultant (text : str) : bool :=
  let n := normalize text in
  any_in CONSULTANT_KEYWORDS n.

Definition contains_intern (text : str) : bool :=
  let n := normalize text in
  any_in INTERN_KEYWORDS n.

(** [\b] + [re.escape(prefix)] + [\d+\b] *)
Definition excluded_token (prefix : str) : regex :=
  Cat Boundary (Cat (Str prefix) (Cat (Plus isdecimal) Boundary)).

(** The two loops return [True] at the first hit; the order in which the set
    [EXCLUDED_NO_GRADES] is iterated does not change the result. *)
Definition is_excluded_grade (grade_norm : str) : bool :=
  existsb (fun prefix =>
             contains grade_norm prefix
             && re_search (excluded_token prefix) grade_norm)
          EXCLUDED_GRADE_PREFIXES
  || existsb (fun no => contains grade_norm no) EXCLUDED_NO_GRADES.

Definition is_included_grade (grade_norm : str) : bool :=
  existsb (fun g => contains grade_norm g) INCLUDED_GRADES.

(** The f-string ["{title} {grade} {contract_type} {category}"]. *)
Definition all_fields (title grade contract_type category : str) : str :=
  title ++ lit " " ++ grade ++ lit " " ++ contract_type ++ lit " " ++ category.

Definition should_include (title grade contract_type category : str) : bool :=
  if contains_consultant (all_fields title grade contract_type category)
  then false
  else
    let grade_norm := normalize_grade grade in
    if is_excluded_grade grade_norm then false
    else if is_included_grade grade_norm then true
    else if contains_intern grade || contains_intern contract_type
            || contains_intern category then true
    else if contains_intern title then true
    else false.


(* ------------------------------------------------------------------------- *)
(** ** MD5 ([hashlib.md5], RFC 1321) and the numeric identifier

    Words are 32-bit values in [N] with the wrap-around written out. *)

Definition add32 (a b : N) : N := ((a + b) mod 2 ^ 32)%N.

Definition not32 (x : N) : N := N.lxor x 0xFFFFFFFF.

Definition rotl32 (x n : N) : N :=
  N.lor (N.shiftl x n mod 2 ^ 32)%N (N.shiftr x (32 - n)).

Definition md5_K : list N :=
  [ 0xd76aa478; 0xe8c7b756; 0x242070db; 0xc1bdceee;
    0xf57c0faf; 0x4787c62a; 0xa8304613; 0xfd469501;
    0x698098d8; 0x8b44f7af; 0xffff5bb1; 0x895cd7be;
    0x6b901122; 0xfd987193; 0xa679438e; 0x49b40821;
    0xf61e2562; 0xc040b340; 0x265e5a51; 0xe9b6c7aa;
    0xd62f105d; 0x02441453; 0xd8a1e681; 0xe7d3fbc8;
    0x21e1cde6; 0xc33707d6; 0xf4d50d87; 0x455a14ed;
    0xa9e3e905; 0xfcefa3f8; 0x676f02d9; 0x8d2a4c8a;
    0xfffa3942; 0x8771f681; 0x6d9d6122; 0xfde5380c;
    0xa4beea44; 0x4bdecfa9; 0xf6bb4b60; 0xbebfbc70;
    0x289b7ec6; 0xeaa127fa; 0xd4ef3085; 0x04881d05;
    0xd9d4d039; 0xe6db99e5; 0x1fa27cf8; 0xc4ac5665;
    0xf4292244; 0x432aff97; 0xab9423a7; 0xfc93a039;
    0x655b59c3; 0x8f0ccc92; 0xffeff47d; 0x85845dd1;
    0x6fa87e4f; 0xfe2ce6e0; 0xa3014314; 0x4e0811a1;
    0xf7537e82; 0xbd3af235; 0x2ad7d2bb; 0xeb86d391 ]%N.

Definition md5_S : list N :=
  [ 7; 12; 17; 22; 7; 12; 17; 22; 7; 12; 17; 22; 7; 12; 17; 22;
    5; 9; 14; 20; 5; 9; 14; 20; 5; 9; 14; 20; 5; 9; 14; 20;
    4; 11; 16; 23; 4; 11; 16; 23; 4; 11; 16; 23; 4; 11; 16; 23;
    6; 10; 15; 21; 6; 10; 15; 21; 6; 10; 15; 21; 6; 10; 15; 21 ]%N.

Definition md5_state := (N * N * N * N)%type.

Definition md5_init : md5_state :=
  (0x67452301, 0xefcdab89, 0x98badcfe, 0x10325476)%N.

(** One of the 64 operations on the block whose sixteen words are [M]. *)
Definition md5_step (M : list N) (st : md5_state) (i : nat) : md5_state :=
  let '(A, B, C, D) := st in
  let '(F, g) :=
    if i <? 16 then (N.lor (N.land B C) (N.land (not32 B) D), i)
    else if i <? 32
    then (N.lor (N.land D B) (N.land (not32 D) C), (5 * i + 1) mod 16)
    else if i <? 48 then (N.lxor B (N.lxor C D), (3 * i + 5) mod 16)
    else (N.lxor C (N.lor B (not32 D)), (7 * i) mod 16) in
  let F := add32 (add32 (add32 F A) (nth i md5_K 0%N)) (nth g M 0%N) in
  (D, add32 B (rotl32 F (nth i md5_S 0%N)), B, C).

(** Four bytes, least significant first, as a word. *)
Definition le_word (bs : list N) : N :=
  fold_right (fun b acc => (b + 256 * acc)%N) 0%N bs.

Fixpoint le_words (n : nat) (bs : list N) : list N :=
  match n with
  | O => []
  | S n' => le_word (firstn 4 bs) :: le_words n' (skipn 4 bs)
  end.

Definition md5_block (st : md5_state) (block : list N) : md5_state :=
  let M := le_words 16 block in
  let '(a0, b0, c0, d0) := st in
  let '(A, B, C, D) := fold_left (md5_step M) (seq 0 64) st in
  (add32 a0 A, add32 b0 B, add32 c0 C, add32 d0 D).

(** [n] as [k] bytes, least significant first. *)
Fixpoint le_bytes (k : nat) (n : N) : list N :=
  match k with
  | O => []
  | S k' => (n mod 256)%N :: le_bytes k' (n / 256)%N
  end.

(** The message, a 1 bit, zero bits up to 56 modulo 64 bytes, and the bit
    length on 64 bits. *)
Definition md5_pad (msg : list N) : list N :=
  let len := length msg in
  msg ++ [0x80%N] ++ repeat 0%N ((119 - len mod 64) mod 64)
      ++ le_bytes 8 ((8 * N.of_nat len) mod 2 ^ 64)%N.

Fixpoint md5_blocks (n : nat) (st : md5_state) (bs : list N) : md5_state :=
  match n with
  | O => st
  | S n' => md5_blocks n' (md5_block st (firstn 64 bs)) (skipn 64 bs)
  end.

(** [hashlib.md5(msg).digest()]: sixteen bytes. *)
Definition md5 (msg : list N) : list N :=
  let padded := md5_pad msg in
  let '(a, b, c, d) := md5_blocks (length padded / 64) md5_init padded in
  le_bytes 4 a ++ le_bytes 4 b ++ le_bytes 4 c ++ le_bytes 4 d.

Definition hex_digit (n : N) : char :=
  if (n <? 10)%N then (48 + n)%N else (87 + n)%N.

(** [.hexdigest()]: two lowercase hexadecimal digits per byte. *)
Definition hexdigest (digest : list N) : str :=
  flat_map (fun b => [hex_digit (b / 16)%N; hex_digit (b mod 16)%N]) digest.

(** [str.encode()]: UTF-8; a surrogate code point raises. *)
Definition encode_char (c : char) : option (list N) :=
  if (c <? 0x80)%N then Some [c]
  else if (c <? 0x800)%N then Some [0xC0 + c / 64; 0x80 + c mod 64]%N
  else if (c <? 0x10000)%N then
    if (0xD800 <=? c)%N && (c <=? 0xDFFF)%N then None
    else Some [0xE0 + c / 4096; 0x80 + (c / 64) mod 64; 0x80 + c mod 64]%N
  else if (c <? 0x110000)%N then
    Some [0xF0 + c / 262144; 0x80 + (c / 4096) mod 64;
          0x80 + (c / 64) mod 64; 0x80 + c mod 64]%N
  else None.

Fixpoint encode (s : str) : option (list N) :=
  match s with
  | [] => Some []
  | c :: s' =>
      match encode_char c, encode s' with
      | Some bs, Some rest => Some (bs ++ rest)
      | _, _ => None
      end
  end.

Definition hex_value (c : char) : option N :=
  if (48 <=? c)%N && (c <=? 57)%N then Some (c - 48)%N
  else if (97 <=? c)%N && (c <=? 102)%N then Some (c - 87)%N
  else if (65 <=? c)%N && (c <=? 70)%N then Some (c - 55)%N
  else None.

(** [int(s, 16)] on a string of hexadecimal digits; anything else raises. *)
Definition int16 (s : str) : option N :=
  match s with
  | [] => None
  | _ :: _ =>
      fold_left (fun acc c =>
                   match acc, hex_value c with
                   | Some a, Some v => Some (16 * a + v)%N
                   | _, _ => None
                   end) s (Some 0%N)
  end.

(** [str(n)] for a natural number: its decimal digits, the last one first
    in the recursion. *)
Fixpoint digits_of (fuel : nat) (n : N) (acc : str) : str :=
  match fuel with
  | O => acc
  | S fuel' =>
      let acc' := (48 + n mod 10)%N :: acc in
      if (n <? 10)%N then acc' else digits_of fuel' (n / 10)%N acc'
  end.

(** The recursion is bounded by the binary length of [n], which is at
    least the number of its decimal digits. *)
Definition str_of_N (n : N) : str :=
  digits_of (S (N.to_nat (N.log2 n))) n [].

(** [s.zfill(width)]: zeros on the left, after a leading sign. *)
Definition zfill (width : nat) (s : str) : str :=
  let zeros := repeat 48%N (width - length s) in
  match s with
  | c :: s' =>
      if (c =? 43)%N || (c =? 45)%N then c :: zeros ++ s' else zeros ++ s
  | [] => zeros
  end.

Definition generate_numeric_id (url : str) : option str :=
  match encode url with
  | None => None
  | Some bytes =>
      let hex_dig := hexdigest (md5 bytes) in
      match int16 (firstn 16 hex_dig) with
      | None => None
      | Some n => Some (zfill 16 (str_of_N (n mod 10000000000000000)%N))
      end
  end.

(** The identifier the way the specification words it: the first eight
    digest bytes read as one unsigned integer, reduced modulo 10^16, and
    written as sixteen decimal digits, most significant first. *)
Definition be_value (bs : list N) : N :=
  fold_left (fun acc b => (256 * acc + b)%N) bs 0%N.

Definition decimal_digit (n : N) (i : nat) : char :=
  (48 + (n / 10 ^ N.of_nat i) mod 10)%N.

Definition numeric_id_spec (utf8 : list N) : str :=
  let n := (be_value (firstn 8 (md5 utf8)) mod 10 ^ 16)%N in
  map (decimal_digit n) (rev (seq 0 16)).


(* ------------------------------------------------------------------------- *)
(** ** Candidates and the merge

    Every strategy builds its dicts with the same seven keys; a candidate is
    a record of their values. *)

Record job := {
  title : str;
  link : str;
  location : str;
  grade : str;
  contract_type : str;
  closing_date : str;
  category : str
}.

(** [job.values()] *)
Definition values (j : job) : list str :=
  [title j; link j; location j; grade j; contract_type j; closing_date j;
   category j].

(** Truth value of a string: it is not empty. *)
Definition truthy (v : str) : bool :=
  match v with [] => false | _ :: _ => true end.

(** [sum(1 for v in job.values() if v)] *)
Definition filled (j : job) : nat := length (filter truthy (values j)).

(** A Python dict with string keys: an association list in insertion
    order, with at most one entry per key. *)
Definition dict (V : Type) := list (str * V).

Fixpoint dict_get V (d : dict V) (k : str) : option V :=
  match d with
  | [] => None
  | (k', v) :: d' => if str_eqb k' k then Some v else dict_get d' k
  end.

(** [d[k] = v]: a present key keeps its position, a new key goes last. *)
Fixpoint dict_set V (d : dict V) (k : str) (v : V) : dict V :=
  match d with
  | [] => [(k, v)]
  | (k', v') :: d' =>
      if str_eqb k' k then (k', v) :: d' else (k', v') :: dict_set d' k v
  end.

Definition dict_keys V (d : dict V) : list str := map fst d.

Definition dict_values V (d : dict V) : list V := map snd d.

(** [k in d] *)
Definition dict_mem V (d : dict V) (k : str) : bool :=
  match dict_get d k with Some _ => true | None => false end.

(** The body of the inner loop of [merge_jobs]. *)
Definition merge_step (by_link : dict job) (j : job) : dict job :=
  match dict_get by_link (link j) with
  | None => dict_set by_link (link j) j
  | Some existing =>
      let existing_filled := filled existing in
      let new_filled := filled j in
      if existing_filled <? new_filled
      then dict_set by_link (link j) j
      else by_link
  end.

Definition merge_jobs (lists : list (list job)) : list job :=
  dict_values
    (fold_left (fun by_link jobs => fold_left merge_step jobs by_link)
               lists []).

(* ------------------------------------------------------------------------- *)
(** ** The page loop

    What the browser shows is outside the program.  One iteration of the
    [while] loop sees the three candidate lists that the strategies return
    for the current page and the answer of [find_next_page]; a run is given
    by the finite sequence of the pages it gets to see (the sequence ends
    where the loop is left by an exception). *)

Record page := {
  jobs_a : list job;
  jobs_b : list job;
  jobs_c : list job;
  has_next : bool
}.

(** The [for job in all_jobs] loop. *)
Fixpoint classify_jobs (included : list job) (all_jobs : list job)
  : list job :=
  match all_jobs with
  | [] => included
  | j :: rest =>
      if MAX_INCLUDED <=? length included then included
      else if should_include (title j) (grade j) (contract_type j)
                (category j)
      then classify_jobs (included ++ [j]) rest
      else classify_jobs included rest
  end.

(** The [while len(included) < MAX_INCLUDED] loop. *)
Fixpoint scrape_loop (pages : list page) (included : list job) : list job :=
  if length included <? MAX_INCLUDED then
    match pages with
    | [] => included
    | p :: rest =>
        let all_jobs := merge_jobs [jobs_a p; jobs_b p; jobs_c p] in
        match all_jobs with
        | [] => included
        | _ :: _ =>
            let included := classify_jobs included all_jobs in
            if MAX_INCLUDED <=? length included then included
            else if has_next p then scrape_loop rest included
            else included
        end
    end
  else included.

Definition scrape_jobs (pages : list page) : list job :=
  scrape_loop pages [].

(* ------------------------------------------------------------------------- *)
(** ** RSS generation

    [xml.etree.ElementTree] elements: a tag, attributes, a text and the
    child elements in document order. *)

Inductive element :=
| Element (tag : str) (attrib : list (str * str)) (text : option str)
    (children : list element).

Definition tag (e : element) : str :=
  match e with Element t _ _ _ => t end.

Definition text (e : element) : option str :=
  match e with Element _ _ x _ => x end.

Definition children (e : element) : list element :=
  match e with Element _ _ _ cs => cs end.

(** [ET.SubElement(parent, ...)]: the new element becomes the last child. *)
Definition SubElement (parent child : element) : element :=
  match parent with
  | Element t a x cs => Element t a x (cs ++ [child])
  end.

(** [e.find(name)]: the first child with that tag. *)
Definition find (e : element) (name : str) : option element :=
  List.find (fun c => str_eqb (tag c) name) (children e).

(** [e.findall(name)]: the children with that tag, in document order. *)
Definition findall (e : element) (name : str) : list element :=
  filter (fun c => str_eqb (tag c) name) (children e).

(** An element with a text and no children. *)
Definition leaf (name : string) (x : str) : element :=
  Element (lit name) [] (Some x) [].

(** What is known of the feed file when a run starts. *)
Inductive feed_file :=
| Missing                    (* os.path.exists is false *)
| Unparsable                 (* ET.parse raises *)
| Parsed (root : element).

(** The item dicts of [load_existing_feed]. *)
Record feed_item := {
  fi_title : str;
  fi_link : str;
  fi_description : str;
  fi_guid : str;
  fi_pubDate : str
}.

(** [(item.find(name).text or "").strip() if item.find(name) is not None
    else ""] *)
Definition child_text (item : element) (name : string) : str :=
  match find item (lit name) with
  | Some el => strip (match text el with Some x => x | None => [] end)
  | None => []
  end.

(** The body of the loop over [channel.findall("item")]. *)
Definition load_item (existing : dict feed_item) (item : element)
  : dict feed_item :=
  match find item (lit "link") with
  | Some link_el =>
      match text link_el with
      | Some (c :: x) =>
          let link := strip (c :: x) in
          dict_set existing link
            {| fi_title := child_text item "title";
               fi_link := link;
               fi_description := child_text item "description";
               fi_guid := child_text item "guid";
               fi_pubDate := child_text item "pubDate" |}
      | _ => existing
      end
  | None => existing
  end.

Definition load_existing_feed (file : feed_file) : dict feed_item :=
  match file with
  | Missing => []
  | Unparsable => []
  | Parsed root =>
      match find root (lit "channel") with
      | None => []
      | Some channel =>
          fold_left load_item (findall channel (lit "item")) []
      end
  end.

(** [job.get("location", "Unknown")] finds the key in every candidate, so
    the default is never taken. *)
Definition build_description (j : job) : str :=
  let desc := lit "UNFPA has a vacancy for the position of " ++ title j
              ++ lit ". Location: " ++ location j ++ lit "." in
  let desc := if truthy (grade j)
              then desc ++ lit " Grade: " ++ grade j ++ lit "." else desc in
  let desc := if truthy (contract_type j)
              then desc ++ lit " Contract type: " ++ contract_type j
                        ++ lit "."
              else desc in
  let desc := if truthy (closing_date j)
              then desc ++ lit " Closing date: " ++ closing_date j ++ lit "."
              else desc in
  desc.

(** The six children that both loops of [generate_rss] give to an item. *)
Definition item_element (t l d g p : str) : element :=
  Element (lit "item") [] None
    [ leaf "title" t;
      leaf "link" l;
      leaf "description" d;
      Element (lit "guid") [(lit "isPermaLink", lit "false")] (Some g) [];
      leaf "pubDate" p;
      Element (lit "source") [(lit "url", lit "https://www.unfpa.org/jobs")]
        (Some (lit "UNFPA Job Vacancies")) [] ].

(** The loop over [existing.items()].  The default of
    [data.get("guid", generate_numeric_id(link))] is evaluated before the
    lookup, which always succeeds. *)
Fixpoint add_existing_items (channel : element)
  (items : list (str * feed_item)) : option element :=
  match items with
  | [] => Some channel
  | (link, data) :: rest =>
      match generate_numeric_id link with
      | None => None
      | Some _ =>
          add_existing_items
            (SubElement channel
               (item_element (fi_title data) (fi_link data)
                  (fi_description data) (fi_guid data) (fi_pubDate data)))
            rest
      end
  end.

(** The loop over [truly_new]. *)
Fixpoint add_new_items (now_rfc2822 : str) (channel : element)
  (truly_new : list job) : option element :=
  match truly_new with
  | [] => Some channel
  | j :: rest =>
      match generate_numeric_id (link j) with
      | None => None
      | Some guid =>
          add_new_items now_rfc2822
            (SubElement channel
               (item_element (title j) (link j) (build_description j) guid
                  now_rfc2822))
            rest
      end
  end.

(** [truly_new = [j for j in new_jobs if j["link"] not in existing_links]] *)
Definition truly_new_of (existing : dict feed_item) (new_jobs : list job)
  : list job :=
  filter (fun j => negb (dict_mem existing (link j))) new_jobs.

(** The channel before the item loops. *)
Definition channel_head (now_rfc2822 : str) : element :=
  Element (lit "channel") [] None
    [ leaf "title" (lit "UNFPA Job Vacancies");
      leaf "link" (lit "https://www.unfpa.org/jobs");
      leaf "description" (lit "List of vacancies at UNFPA");
      leaf "language" (lit "en");
      Element (lit "atom:link")
        [ (lit "href",
           lit "https://cinfoposte.github.io/unfpa-jobs/unfpa_jobs.xml");
          (lit "rel", lit "self");
          (lit "type", lit "application/rss+xml") ] None [];
      leaf "pubDate" now_rfc2822 ].

(** [generate_rss] up to line 626: the element tree that the two item
    loops build and hand to the serialiser.  The result is [None] where
    [generate_numeric_id] raises.  The serialisation and the writing of the
    file (lines 628-648), where the function can raise as well, follow
    below as [generate_rss_file]. *)
Definition generate_rss (file : feed_file) (now_rfc2822 : str)
  (new_jobs : list job) : option element :=
  let existing := load_existing_feed file in
  let truly_new := truly_new_of existing new_jobs in
  match add_existing_items (channel_head now_rfc2822) existing with
  | None => None
  | Some channel =>
      match add_new_items now_rfc2822 channel truly_new with
      | None => None
      | Some channel =>
          Some (Element (lit "rss")
                  [ (lit "version", lit "2.0");
                    (lit "xmlns:dc", lit "http://purl.org/dc/elements/1.1/");
                    (lit "xmlns:atom", lit "http://www.w3.org/2005/Atom") ]
                  None [channel])
      end
  end.

(** The items of a feed tree, in document order, with the five texts that
    the program stores for an item. *)
Definition text_of (item : element) (name : string) : str :=
  match find item (lit name) with
  | Some el => match text el with Some x => x | None => [] end
  | None => []
  end.

Definition item_fields (item : element) : feed_item :=
  {| fi_title := text_of item "title";
     fi_link := text_of item "link";
     fi_description := text_of item "description";
     fi_guid := text_of item "guid";
     fi_pubDate := text_of item "pubDate" |}.

Definition feed_items (rss : element) : list feed_item :=
  match find rss (lit "channel") with
  | Some channel => map item_fields (findall channel (lit "item"))
  | None => []
  end.

(* ------------------------------------------------------------------------- *)
(** ** Writing the feed file and reading it again

    The end of [generate_rss] (lines 628-648) serialises the tree
    ([ET.tostring]), parses the serialisation ([minidom.parseString]), puts
    every non-empty description into a CDATA section, pretty-prints
    ([toprettyxml]), drops the lines that hold white space only, and writes
    the file; the next run reads the file with [ET.parse].  The tree has the
    fixed shape of lines 583-626; only its texts vary: the timestamp and
    the five texts of every item.  What follows is what these library calls
    do to such a tree. *)

(** The characters that the XML parser accepts in a text; on any other one
    [minidom.parseString] raises. *)
Definition xml_char (c : char) : bool :=
  (c =? 9)%N || (c =? 10)%N || (c =? 13)%N
  || ((0x20 <=? c)%N && (c <=? 0xD7FF)%N)
  || ((0xE000 <=? c)%N && (c <=? 0xFFFD)%N)
  || ((0x10000 <=? c)%N && (c <=? 0x10FFFF)%N).

Definition xml_text (s : str) : bool := forallb xml_char s.

Definition next_is_lf (s : str) : bool :=
  match s with
  | c :: _ => (c =? 10)%N
  | [] => false
  end.

(** The parser reads CR LF and a CR alone as LF. *)
Fixpoint unix_newlines (s : str) : str :=
  match s with
  | [] => []
  | c :: s' =>
      if (c =? 13)%N
      then (if next_is_lf s' then unix_newlines s'
            else 10%N :: unix_newlines s')
      else c :: unix_newlines s'
  end.

(** [s.split("\n")] *)
Fixpoint split_lines (s : str) : list str :=
  match s with
  | [] => [[]]
  | c :: s' =>
      if (c =? 10)%N then [] :: split_lines s'
      else match split_lines s' with
           | line :: lines => (c :: line) :: lines
           | [] => [[c]]
           end
  end.

(** ["\n".join(lines)] *)
Definition join_lines (lines : list str) : str :=
  match lines with
  | [] => []
  | first :: rest => first ++ flat_map (fun line => 10%N :: line) rest
  end.

(** [not line.strip()]: the line holds white space only. *)
Definition blank (line : str) : bool := negb (truthy (strip line)).

(** The filter of line 644 on the lines of a text after its first one.  The
    last line of the text shares its line of the file with the end tag and
    stays whatever it holds. *)
Fixpoint keep_lines (rest : list str) : list str :=
  match rest with
  | [] => []
  | line :: rest' =>
      match rest' with
      | [] => [line]
      | _ :: _ =>
          if blank line then keep_lines rest' else line :: keep_lines rest'
      end
  end.

(** The text of a leaf element as it stands in the file.  Its first line
    shares its line of the file with the start tag. *)
Definition file_text (x : str) : str :=
  match split_lines (unix_newlines x) with
  | [] => []
  | first :: rest => join_lines (first :: keep_lines rest)
  end.

(** The text as [ET.parse] returns it: an element without text has
    [None]. *)
Definition parsed_text (x : str) : option str :=
  match file_text x with
  | [] => None
  | c :: t => Some (c :: t)
  end.

(** The text of an element with children: the line break and the
    indentation in front of its first child. *)
Definition indentation (depth : nat) : option str :=
  Some (10%N :: repeat 32%N (2 * depth)).

Definition parsed_leaf (name : string) (x : str) : element :=
  Element (lit name) [] (parsed_text x) [].

(** An item of the file as the next run parses it. *)
Definition parsed_item (data : feed_item) : element :=
  Element (lit "item") [] (indentation 3)
    [ parsed_leaf "title" (fi_title data);
      parsed_leaf "link" (fi_link data);
      parsed_leaf "description" (fi_description data);
      Element (lit "guid") [(lit "isPermaLink", lit "false")]
        (parsed_text (fi_guid data)) [];
      parsed_leaf "pubDate" (fi_pubDate data);
      Element (lit "source") [(lit "url", lit "https://www.unfpa.org/jobs")]
        (Some (lit "UNFPA Job Vacancies")) [] ].

(** The file as the next run parses it: the name spaces are no attributes
    any more, and the prefix of [atom:link] is resolved. *)
Definition parsed_feed (now_rfc2822 : str) (items : list feed_item)
  : element :=
  Element (lit "rss") [(lit "version", lit "2.0")] (indentation 1)
    [ Element (lit "channel") [] (indentation 2)
        ([ leaf "title" (lit "UNFPA Job Vacancies");
           leaf "link" (lit "https://www.unfpa.org/jobs");
           leaf "description" (lit "List of vacancies at UNFPA");
           leaf "language" (lit "en");
           Element (lit "{http://www.w3.org/2005/Atom}link")
             [ (lit "href",
                lit "https://cinfoposte.github.io/unfpa-jobs/unfpa_jobs.xml");
               (lit "rel", lit "self");
               (lit "type", lit "application/rss+xml") ] None [];
           parsed_leaf "pubDate" now_rfc2822 ]
         ++ map parsed_item items) ].

(** The texts of an item can be written: [minidom.parseString] accepts their
    characters, and the description, as the parser holds it, has no
    ["]]>"], on which [toprettyxml] raises. *)
Definition writable_item (data : feed_item) : bool :=
  xml_text (fi_title data) && xml_text (fi_link data)
  && xml_text (fi_description data) && xml_text (fi_guid data)
  && xml_text (fi_pubDate data)
  && negb (contains (unix_newlines (fi_description data)) (lit "]]>")).

Definition writable (now_rfc2822 : str) (items : list feed_item) : bool :=
  xml_text now_rfc2822 && forallb writable_item items.

(** [generate_rss] as a whole: the feed file after the call, as the next
    run parses it.  The result is [None] where the call raises; the file
    is opened for writing in the last step only, so it is then as it was
    before. *)
Definition generate_rss_file (file : feed_file) (now_rfc2822 : str)
  (new_jobs : list job) : option feed_file :=
  match generate_rss file now_rfc2822 new_jobs with
  | None => None
  | Some rss =>
      let items := feed_items rss in
      if writable now_rfc2822 items
      then Some (Parsed (parsed_feed now_rfc2822 items))
      else None
  end.

(** The feed file after a call of [generate_rss] with outcome [outcome]. *)
Definition persisted (file : feed_file) (outcome : option feed_file)
  : feed_file :=
  match outcome with
  | Some file' => file'
  | None => file
  end.

(** The items of a feed file. *)
Definition file_items (file : feed_file) : list feed_item :=
  match file with
  | Parsed root => feed_items root
  | _ => []
  end.


(* ------------------------------------------------------------------------- *)
(** ** Notions used to state the properties *)

(** The distinct strings of a list, each at its first position. *)
Fixpoint first_seen (ks : list str) : list str :=
  match ks with
  | [] => []
  | k :: rest => k :: filter (fun k' => negb (str_eqb k k')) (first_seen rest)
  end.

(** [c] is a candidate for the posting of [j]. *)
Definition same_link (j c : job) : bool := str_eqb (link c) (link j).

(** Among the candidates [cands], in the order they were met, [j] is the
    earliest of those for its link whose completeness score is maximal. *)
Definition earliest_most_complete (j : job) (cands : list job) : Prop :=
  exists pre post,
    filter (same_link j) cands = pre ++ j :: post /\
    (forall c, In c pre -> filled c < filled j) /\
    (forall c, In c post -> filled c <= filled j).

(** The invariant of the merge loop: what holds of [by_link] once the candidates [cands] have been merged. *)
Definition merged (by_link : dict job) (cands : list job) : Prop :=
  dict_keys by_link = first_seen (map link cands) /\
  Forall (fun e => link (snd e) = fst e /\
                   earliest_most_complete (snd e) cands) by_link.

(** A link that [str.encode] accepts. *)
Definition encodable (s : str) : bool :=
  match encode s with Some _ => true | None => false end.

(** An ASCII decimal digit. *)
Definition is_digit (c : char) : bool := (48 <=? c)%N && (c <=? 57)%N.

(** The element that [generate_rss] writes for an item of the loaded feed. *)
Definition element_of_item (data : feed_item) : element :=
  item_element (fi_title data) (fi_link data) (fi_description data)
    (fi_guid data) (fi_pubDate data).

(** The identifier of a link that can be encoded. *)
Definition guid_of (l : str) : str :=
  match generate_numeric_id l with Some g => g | None => [] end.

(** The feed item materialised for a new posting in a run whose timestamp
    is [now]. *)
Definition new_item (now : str) (j : job) : feed_item :=
  {| fi_title := title j;
     fi_link := link j;
     fi_description := build_description j;
     fi_guid := guid_of (link j);
     fi_pubDate := now |}.

Definition append_children (e : element) (cs : list element) : element :=
  match e with Element t a x c => Element t a x (c ++ cs) end.

(** An item as [load_existing_feed] reads it back: every text stripped. *)
Definition stripped (data : feed_item) : feed_item :=
  {| fi_title := strip (fi_title data);
     fi_link := strip (fi_link data);
     fi_description := strip (fi_description data);
     fi_guid := strip (fi_guid data);
     fi_pubDate := strip (fi_pubDate data) |}.

(** The body of the loop of [load_existing_feed] on an item whose five
    texts are those of [data]. *)
Definition reload_item (existing : dict feed_item) (data : feed_item)
  : dict feed_item :=
  if truthy (fi_link data)
  then dict_set existing (strip (fi_link data)) (stripped data)
  else existing.

(** A link is not empty and has no white space around it. *)
Definition clean_link (l : str) : bool := truthy l && str_eqb (strip l) l.

(** No text of the item has white space around it. *)
Definition stripped_item (data : feed_item) : Prop :=
  stripped data = data.

(** The invariant of the loops that fill the dict of loaded items: one
    entry per key, every entry filed under its own link, every text
    stripped. *)
Definition loaded (existing : dict feed_item) : Prop :=
  NoDup (dict_keys existing) /\
  Forall (fun e => fi_link (snd e) = fst e /\ stripped_item (snd e)) existing.

(** An item of the tree as the file holds it. *)
Definition in_file (data : feed_item) : feed_item :=
  {| fi_title := file_text (fi_title data);
     fi_link := file_text (fi_link data);
     fi_description := file_text (fi_description data);
     fi_guid := file_text (fi_guid data);
     fi_pubDate := file_text (fi_pubDate data) |}.

(** The text has no line break. *)
Definition one_line (s : str) : bool :=
  forallb (fun c => negb ((c =? 10)%N || (c =? 13)%N)) s.

(* ------------------------------------------------------------------------- *)
(** ** Sample data for the instances *)

Definition sample_job_a : job :=
  {| title := lit "Programme Analyst";
     link := lit "https://www.unfpa.org/jobs/programme-analyst";
     location := lit "Dakar";
     grade := lit "P-3";
     contract_type := lit "Fixed Term";
     closing_date := [];
     category := [] |}.

Definition sample_job_b : job :=
  {| title := lit "Communications Intern";
     link := lit "https://www.unfpa.org/jobs/communications-intern";
     location := [];
     grade := [];
     contract_type := lit "Internship";
     closing_date := [];
     category := [] |}.

(** A feed file with one item. *)
Definition sample_feed_file : feed_file :=
  Parsed
    (Element (lit "rss") [(lit "version", lit "2.0")] None
       [ Element (lit "channel") [] None
           [ leaf "title" (lit "UNFPA Job Vacancies");
             item_element (lit "Midwifery Adviser")
               (lit "https://www.unfpa.org/jobs/midwifery-adviser")
               (lit "UNFPA has a vacancy for the position of Midwifery Adviser. Location: Juba.")
               (lit "0123456789012345")
               (lit "Mon, 01 Jan 2024 00:00:00 +0000") ] ]).

(** A file that parses as XML and is not a feed. *)
Definition sample_other_file : feed_file :=
  Parsed (Element (lit "html") [] None [Element (lit "body") [] None []]).

(* ------------------------------------------------------------------------- *)
(** ** The substitutions of [normalize] as plain list functions *)

(** Dash-like characters become the ASCII hyphen. *)
Definition unify_dash (c : char) : char := if is_dash c then 45%N else c.

(** Every run of white space becomes one space; [in_run] tells that the
    space of the current run is already written. *)
Fixpoint collapse_go (in_run : bool) (s : str) : str :=
  match s with
  | [] => []
  | c :: s' =>
      if isspace c
      then (if in_run then collapse_go true s' else 32%N :: collapse_go true s')
      else c :: collapse_go false s'
  end.

Definition collapse (s : str) : str := collapse_go false s.

(** The continuation that ends a match. *)
Definition accept : cont := fun _ s' caps => Some (caps, s').

(** The grade patterns that exclude, in the words of the specification: a
    family prefix followed by digits as a whole token, or a national-officer
    spelling anywhere. *)
Definition excluded_grade_pattern (g : str) : Prop :=
  (exists prefix, In prefix EXCLUDED_GRADE_PREFIXES /\
                  re_search (excluded_token prefix) g = true) \/
  (exists no, In no EXCLUDED_NO_GRADES /\ infix no g).

(** An ASCII character that is not white space. *)
Definition plain (c : char) : bool := is_ascii c && negb (isspace c).

(** The grade families of [normalize_grade]. *)
Definition GRADE_FAMILIES : list str :=
  map lit ["P"; "D"; "G"; "SB"; "LSC"; "NO"]%string.

(** The character before the position once the text [s] is passed. *)
Definition prev_after (prev : option char) (s : str) : option char :=
  fold_left (fun _ c => Some c) s prev.

(** An ASCII character that [str.upper] leaves as it is. *)
Definition caseless (c : char) : bool :=
  is_ascii c && negb ((97 <=? c)%N && (c <=? 122)%N).

(** An ASCII white-space character. *)
Definition ascii_space (c : char) : bool := is_ascii c && isspace c.

(* ------------------------------------------------------------------------- *)
(** ** Notions used for the idempotence of [normalize] *)

(** A code point that compatibility decomposition leaves as it is. *)
Definition stable (c : char) : Prop := decomposition c = [c].

(** What the proof asks of the character database: decompositions are
    full; uppercasing a decomposed character gives decomposed characters
    that uppercasing and the dash class leave alone, and either keeps the
    combining class or gives starters. *)
Record consistent_tables : Prop := {
  decomposition_full :
    forall c d, In d (decomposition c) -> stable d;
  upper_stable :
    forall c u, stable c -> In u (upper_char c) -> stable u;
  upper_class :
    forall c, stable c ->
      (exists u, upper_char c = [u] /\ combining u = combining c) \/
      (upper_char c <> [] /\
       forall u, In u (upper_char c) -> combining u = 0%N);
  upper_fixed :
    forall c u, stable c -> In u (upper_char c) -> upper_char u = [u];
  upper_no_dash :
    forall c u, stable c -> is_dash c = false -> In u (upper_char c) ->
      is_dash u = false
}.

(** Canonical order: no character with a non-zero combining class follows
    one of a greater class; [k] is the class of the character before. *)
Fixpoint ordered_from (k : N) (s : str) : bool :=
  match s with
  | [] => true
  | c :: s' =>
      ((combining c =? 0)%N || (k <=? combining c)%N)
      && ordered_from (combining c) s'
  end.

(** White space occurs only as single spaces; [after_space] tells that the
    character before is a space. *)
Fixpoint single_spaced (after_space : bool) (s : str) : bool :=
  match s with
  | [] => true
  | c :: s' =>
      if isspace c
      then (c =? 32)%N && negb after_space && single_spaced true s'
      else single_spaced false s'
  end.

(** The class of the last character written, 0 at the start. *)
Definition class_of_top (rev_out : list char) : N :=
  match rev_out with
  | [] => 0%N
  | p :: _ => combining p
  end.

(** The output under construction, which is kept reversed, is in canonical
    order. *)
Fixpoint rev_ordered (rev_out : list char) : bool :=
  match rev_out with
  | [] => true
  | p :: rest =>
      ((combining p =? 0)%N || (class_of_top rest <=? combining p)%N)
      && rev_ordered rest
  end.

(** A character on which the first three steps of [normalize] do nothing. *)
Definition settled (c : char) : Prop :=
  stable c /\ is_dash c = false /\ upper_char c = [c].

(* ------------------------------------------------------------------------- *)
(** ** Notions used for the page loop *)

(** The classifier on a candidate, as the loop of [scrape_jobs] calls it. *)
Definition includable (j : job) : bool :=
  should_include (title j) (grade j) (contract_type j) (category j).

(** The merged candidates of a page. *)
Definition page_jobs (p : page) : list job :=
  merge_jobs [jobs_a p; jobs_b p; jobs_c p].

(** The pages that a run without a cap would process: it stops in front of
    a page without candidates, and behind a page without a next link. *)
Fixpoint reached (pages : list page) : list page :=
  match pages with
  | [] => []
  | p :: rest =>
      match page_jobs p with
      | [] => []
      | _ :: _ => p :: (if has_next p then reached rest else [])
      end
  end.

(* ------------------------------------------------------------------------- *)
(** ** Notions used for the loaded feed *)

(** The key under which the loop of [load_existing_feed] files an item
    element; [None] when it passes the element over. *)
Definition item_key (item : element) : option str :=
  match find item (lit "link") with
  | Some link_el =>
      match text link_el with
      | Some (c :: x) => Some (strip (c :: x))
      | _ => None
      end
  | None => None
  end.

(** The dict that the loop stores for an item element filed under [link]. *)
Definition item_entry (item : element) (link : str) : feed_item :=
  {| fi_title := child_text item "title";
     fi_link := link;
     fi_description := child_text item "description";
     fi_guid := child_text item "guid";
     fi_pubDate := child_text item "pubDate" |}.

(** The element is filed under key [k]. *)
Definition filed_under (k : str) (item : element) : bool :=
  match item_key item with
  | Some k' => str_eqb k' k
  | None => false
  end.

(** The keys of the item elements that are filed, in document order. *)
Definition item_keys (items : list element) : list str :=
  flat_map (fun item => match item_key item with
                        | Some k => [k]
                        | None => []
                        end) items.

(** The dict entry of a feed item. *)
Definition entry_of (d : feed_item) : str * feed_item := (fi_link d, d).

(** The script: scrape, then update the feed. *)
Definition main (pages : list page) (file : feed_file) (now_rfc2822 : str)
  : option element :=
  let jobs := scrape_jobs pages in
  generate_rss file now_rfc2822 jobs.

(* ------------------------------------------------------------------------- *)
(** ** Notions used for the classification of spelled grades *)

(** The raw text [raw] spells the grade of family [family] and number
    [digits] in compact form, with a hyphen, or with ASCII white space. *)
Definition spelled (family digits raw : str) : Prop :=
  raw = family ++ digits \/
  raw = family ++ lit "-" ++ digits \/
  exists spaces, spaces <> [] /\ forallb ascii_space spaces = true /\
                 raw = family ++ spaces ++ digits.

(** The first letters of the excluded grade spellings: G, S, L, N. *)
Definition excluded_initials : list char := [71; 83; 76; 78]%N.

(* ------------------------------------------------------------------------- *)
(** ** The anchor scan

    [strategy_b] reads two things of every anchor element of the page: the
    [href] attribute and the text.  What the browser answers is outside the
    program; the scan is modelled on the list of the answers. *)

Definition BASE_URL : str := lit "https://www.unfpa.org/jobs".

(** An anchor element as the scan meets it. *)
Inductive anchor :=
| Anchor (href : option str)      (* get_attribute("href"): None when absent *)
         (label : option str)     (* .text; None when reading it raises *)
| Stale.                          (* get_attribute raises *)

(** [s.lstrip(chars)] and [s.rstrip(chars)] for the characters of [p]. *)
Fixpoint lstrip_of (p : char -> bool) (s : str) : str :=
  match s with
  | c :: s' => if p c then lstrip_of p s' else s
  | [] => []
  end.

Definition rstrip_of (p : char -> bool) (s : str) : str :=
  rev (lstrip_of p (rev s)).

Definition is_slash (c : char) : bool := (c =? 47)%N.

(** [s.split("/")[-1]]: what follows the last slash. *)
Definition last_segment (s : str) : str :=
  fold_left (fun acc c => if is_slash c then [] else acc ++ [c]) s [].

(** [s.replace("-", " ")] *)
Definition hyphens_to_spaces (s : str) : str :=
  map (fun c => if (c =? 45)%N then 32%N else c) s.

(** A candidate with a title and a link only. *)
Definition bare_job (text href : str) : job :=
  {| title := text;
     link := href;
     location := [];
     grade := [];
     contract_type := [];
     closing_date := [];
     category := [] |}.

Section Strategies.

(** [str.lower] and [str.title] consult the character database for the
    case mappings and the cased property; they are parameters. *)
Variables (str_lower str_title : str -> str).

(** The [for a in anchors] loop; an exception leaves it with the
    candidates found so far. *)
Fixpoint strategy_b_loop (anchors : list anchor) (seen : list str)
  (jobs : list job) : list job :=
  match anchors with
  | [] => jobs
  | Stale :: _ => jobs
  | Anchor h label :: rest =>
      let href := match h with Some s => s | None => [] end in
      if negb (contains href (lit "/jobs/")) || existsb (str_eqb href) seen
      then strategy_b_loop rest seen jobs
      else if str_eqb (rstrip_of is_slash href) (rstrip_of is_slash BASE_URL)
      then strategy_b_loop rest seen jobs
      else
        let seen := href :: seen in
        match label with
        | None => jobs
        | Some raw =>
            let text := strip raw in
            let text :=
              if negb (truthy text) || (length text <? 5)
                 || str_eqb (str_lower text) (lit "view")
              then
                let slug := last_segment (rstrip_of is_slash href) in
                str_title (hyphens_to_spaces slug)
              else text in
            if truthy text && (5 <=? length text)
            then strategy_b_loop rest seen (jobs ++ [bare_job text href])
            else strategy_b_loop rest seen jobs
        end
  end.

(** [strategy_b]; [None] stands for a [find_elements] that raises. *)
Definition strategy_b (anchors : option (list anchor)) : list job :=
  match anchors with
  | None => []
  | Some anchors => strategy_b_loop anchors [] []
  end.

End Strategies.

(** The case functions on ASCII text, for the examples. *)
Definition ascii_lower (s : str) : str :=
  map (fun c => if (65 <=? c)%N && (c <=? 90)%N then (c + 32)%N else c) s.

Fixpoint ascii_title_go (after_cased : bool) (s : str) : str :=
  match s with
  | [] => []
  | c :: s' =>
      if (65 <=? c)%N && (c <=? 90)%N
      then (if after_cased then (c + 32)%N else c) :: ascii_title_go true s'
      else if (97 <=? c)%N && (c <=? 122)%N
      then (if after_cased then c else (c - 32)%N) :: ascii_title_go true s'
      else c :: ascii_title_go false s'
  end.

Definition ascii_title (s : str) : str := ascii_title_go false s.

(** A candidate with a title of at least five characters, a link, and
    no other field. *)
Definition title_and_link (j : job) : Prop :=
  5 <= length (title j) /\ link j <> [] /\
  location j = [] /\ grade j = [] /\ contract_type j = [] /\
  closing_date j = [] /\ category j = [].

(* ------------------------------------------------------------------------- *)
(** ** Notions used for the regular expressions *)

(** [s'] is what is left of [s] at some position. *)
Definition suffix_of (s' s : str) : Prop := exists pre, s = pre ++ s'.

(** The continuation fails wherever in [s] the match has got to. *)
Definition fails_on (k : cont) (s : str) : Prop :=
  forall prev s' caps, suffix_of s' s -> k prev s' caps = None.

(** The text has no decimal digit. *)
Definition digit_free (s : str) : bool :=
  forallb (fun c => negb (isdecimal c)) s.

(* ========================================================================= *)
(** * Properties *)

(* ------------------------------------------------------------------------- *)
(** ** The cap on included postings *)

Lemma classify_jobs_cap (all_jobs included : list job) :
  length included <= MAX_INCLUDED ->
  length (classify_jobs included all_jobs) <= MAX_INCLUDED.
Proof.
  revert included.
  induction all_jobs as [|j rest IH]; intros included Hlen;
    cbn [classify_jobs]; [exact Hlen|].
  destruct (MAX_INCLUDED <=? length included) eqn:Hcap; [exact Hlen|].
  apply Nat.leb_gt in Hcap.
  destruct (should_include _ _ _ _); apply IH; [|exact Hlen].
  rewrite length_app; simpl; lia.
Qed.

Lemma scrape_loop_cap (pages : list page) (included : list job) :
  length included <= MAX_INCLUDED ->
  length (scrape_loop pages included) <= MAX_INCLUDED.
Proof.
  revert included.
  induction pages as [|p rest IH]; intros included Hlen; cbn [scrape_loop].
  - destruct (length included <? MAX_INCLUDED); exact Hlen.
  - destruct (length included <? MAX_INCLUDED); [|exact Hlen].
    destruct (merge_jobs _) as [|j all_jobs] eqn:Hmerge; [exact Hlen|].
    set (included' := classify_jobs included (j :: all_jobs)).
    assert (Hcap : length included' <= MAX_INCLUDED)
      by (apply classify_jobs_cap; exact Hlen).
    destruct (MAX_INCLUDED <=? length included'); [exact Hcap|].
    destruct (has_next p); [apply IH|]; exact Hcap.
Qed.

(** C9: whatever pages a run sees and whatever their candidate lists hold,
    the list of included postings that [scrape_jobs] returns has at most
    [MAX_INCLUDED] = 50 entries. *)
Theorem scrape_jobs_never_exceeds_cap (pages : list page) :
  length (scrape_jobs pages) <= 50.
Proof.
  unfold scrape_jobs.
  apply scrape_loop_cap.
  unfold MAX_INCLUDED; simpl; lia.
Qed.


(* ------------------------------------------------------------------------- *)
(** ** Strings and dicts *)

Lemma str_eqb_eq (a b : str) : str_eqb a b = true <-> a = b.
Proof.
  revert b; induction a as [|x a IH]; intros [|y b]; simpl;
    try (split; [discriminate | congruence]); [tauto|].
  rewrite andb_true_iff, N.eqb_eq, IH.
  split; [intros [-> ->]; reflexivity | intros [= -> ->]; tauto].
Qed.

Lemma str_eqb_refl (a : str) : str_eqb a a = true.
Proof. apply str_eqb_eq; reflexivity. Qed.

Lemma str_eqb_neq (a b : str) : str_eqb a b = false <-> a <> b.
Proof.
  rewrite <- str_eqb_eq; destruct (str_eqb a b); split; congruence.
Qed.

Lemma str_eqb_sym (a b : str) : str_eqb a b = str_eqb b a.
Proof.
  destruct (str_eqb b a) eqn:E.
  - apply str_eqb_eq in E; subst; apply str_eqb_refl.
  - apply str_eqb_neq in E; apply str_eqb_neq; congruence.
Qed.

Section Dict.

Variable V : Type.
Implicit Types (d : dict V) (k : str) (v : V).

Lemma dict_get_None d k : dict_get d k = None <-> ~ In k (dict_keys d).
Proof.
  induction d as [|[k' v'] d IH]; simpl.
  - tauto.
  - destruct (str_eqb k' k) eqn:E.
    + apply str_eqb_eq in E; split; [discriminate | tauto].
    + apply str_eqb_neq in E; rewrite IH; tauto.
Qed.

Lemma dict_get_In d k v : dict_get d k = Some v -> In (k, v) d.
Proof.
  induction d as [|[k' v'] d IH]; simpl; [discriminate|].
  destruct (str_eqb k' k) eqn:E.
  - apply str_eqb_eq in E; intros [= ->]; subst; auto.
  - auto.
Qed.

Lemma dict_get_unique d k v :
  NoDup (dict_keys d) -> In (k, v) d -> dict_get d k = Some v.
Proof.
  induction d as [|[k' v'] d IH]; simpl; [tauto|].
  intros Hnd [[= -> ->]|Hin].
  - rewrite str_eqb_refl; reflexivity.
  - inversion Hnd as [|? ? Hnotin Hnd']; subst.
    destruct (str_eqb k' k) eqn:E; [|auto].
    apply str_eqb_eq in E; subst.
    exfalso; apply Hnotin.
    change k with (fst (k, v)); apply in_map; exact Hin.
Qed.

Lemma dict_mem_In d k : dict_mem d k = true <-> In k (dict_keys d).
Proof.
  unfold dict_mem; destruct (dict_get d k) eqn:E.
  - split; [intros _ | reflexivity].
    apply dict_get_In in E.
    change k with (fst (k, v)); apply in_map; exact E.
  - apply dict_get_None in E; split; [discriminate | tauto].
Qed.

Lemma dict_set_absent d k v :
  ~ In k (dict_keys d) -> dict_set d k v = d ++ [(k, v)].
Proof.
  induction d as [|[k' v'] d IH]; simpl; [reflexivity|].
  intros Hnotin.
  destruct (str_eqb k' k) eqn:E.
  - apply str_eqb_eq in E; tauto.
  - rewrite IH; [reflexivity | tauto].
Qed.

Lemma dict_keys_set_present d k v :
  In k (dict_keys d) -> dict_keys (dict_set d k v) = dict_keys d.
Proof.
  induction d as [|[k' v'] d IH]; simpl; [tauto|].
  intros Hin.
  destruct (str_eqb k' k) eqn:E; simpl; [reflexivity|].
  apply str_eqb_neq in E.
  rewrite IH; [reflexivity | tauto].
Qed.

Lemma Forall_dict_set (Q : str * V -> Prop) d k v :
  NoDup (dict_keys d) ->
  Forall (fun e => fst e <> k -> Q e) d -> Q (k, v) ->
  Forall Q (dict_set d k v).
Proof.
  induction d as [|[k' v'] d IH]; simpl; intros Hnd Hall Hnew.
  - constructor; [exact Hnew | constructor].
  - inversion Hall as [|? ? Hhead Htail]; subst.
    inversion Hnd as [|? ? Hnotin Hnd']; subst.
    destruct (str_eqb k' k) eqn:E.
    + apply str_eqb_eq in E; subst.
      constructor; [exact Hnew|].
      apply Forall_forall; intros [k'' v''] Hin.
      rewrite Forall_forall in Htail; apply (Htail _ Hin); simpl.
      intros ->; apply Hnotin.
      change k with (fst (k, v'')); apply in_map; exact Hin.
    + apply str_eqb_neq in E.
      constructor; [apply Hhead; exact E | apply IH; assumption].
Qed.

End Dict.

(* ------------------------------------------------------------------------- *)
(** ** The merge *)

Lemma first_seen_In (ks : list str) (k : str) :
  In k (first_seen ks) <-> In k ks.
Proof.
  induction ks as [|a ks IH]; simpl; [tauto|].
  rewrite filter_In, IH.
  destruct (str_eqb a k) eqn:E.
  - apply str_eqb_eq in E; subst; simpl; tauto.
  - apply str_eqb_neq in E; simpl; intuition congruence.
Qed.

Lemma first_seen_NoDup (ks : list str) : NoDup (first_seen ks).
Proof.
  induction ks as [|a ks IH]; simpl; constructor.
  - rewrite filter_In, str_eqb_refl; simpl; intros [_ H]; discriminate.
  - apply NoDup_filter; exact IH.
Qed.

Lemma first_seen_snoc (ks : list str) (k : str) :
  first_seen (ks ++ [k]) =
  if in_dec str_dec k ks then first_seen ks
  else first_seen ks ++ [k].
Proof.
  induction ks as [|a ks IH]; simpl; [reflexivity|].
  rewrite IH.
  destruct (str_dec a k) as [->|Hne].
  - destruct (in_dec str_dec k ks); [reflexivity|].
    rewrite filter_app; simpl; rewrite str_eqb_refl; simpl.
    rewrite app_nil_r; reflexivity.
  - destruct (in_dec str_dec k ks) as [Hin|Hnotin]; [reflexivity|].
    rewrite filter_app; simpl.
    apply str_eqb_neq in Hne; rewrite Hne; reflexivity.
Qed.

Lemma merge_jobs_concat (lists : list (list job)) (d : dict job) :
  fold_left (fun by_link jobs => fold_left merge_step jobs by_link) lists d =
  fold_left merge_step (concat lists) d.
Proof.
  revert d; induction lists as [|l lists IH]; intros d; simpl.
  - reflexivity.
  - rewrite fold_left_app; apply IH.
Qed.

Lemma filter_none A (f : A -> bool) (l : list A) :
  (forall x, In x l -> f x = false) -> filter f l = [].
Proof.
  induction l as [|a l IH]; simpl; intros H; [reflexivity|].
  rewrite (H a) by auto; apply IH; auto.
Qed.

Lemma same_link_other (j c : job) : link c <> link j -> same_link j c = false.
Proof. intros H; apply str_eqb_neq; exact H. Qed.

Lemma same_link_ext (j j' : job) (cands : list job) :
  link j = link j' -> filter (same_link j) cands = filter (same_link j') cands.
Proof. intros H; unfold same_link; rewrite H; reflexivity. Qed.

Lemma earliest_most_complete_other (j x : job) (cands : list job) :
  link x <> link j ->
  earliest_most_complete j cands -> earliest_most_complete j (cands ++ [x]).
Proof.
  intros Hne (pre & post & Hf & Hpre & Hpost).
  exists pre, post; repeat split; trivial.
  rewrite filter_app; simpl.
  rewrite (same_link_other _ _ Hne), app_nil_r; exact Hf.
Qed.

Lemma merged_step (by_link : dict job) (cands : list job) (x : job) :
  merged by_link cands -> merged (merge_step by_link x) (cands ++ [x]).
Proof.
  intros [Hkeys Hall].
  assert (Hnd : NoDup (dict_keys by_link))
    by (rewrite Hkeys; apply first_seen_NoDup).
  unfold merge_step, merged.
  rewrite map_app; simpl; rewrite first_seen_snoc.
  destruct (dict_get by_link (link x)) as [existing|] eqn:Hget.
  - (* the link is known *)
    assert (Hin : In (link x) (map link cands)).
    { apply first_seen_In; rewrite <- Hkeys.
      apply dict_get_In in Hget.
      change (link x) with (fst (link x, existing)); apply in_map; exact Hget. }
    destruct (in_dec str_dec (link x) (map link cands)) as [_|Hno]; [|tauto].
    assert (Hex : link existing = link x /\
                  earliest_most_complete existing cands).
    { rewrite Forall_forall in Hall.
      apply (Hall _ (dict_get_In _ _ Hget)). }
    destruct Hex as [Hlink (pre & post & Hf & Hpre & Hpost)].
    destruct (filled existing <? filled x) eqn:Hcmp.
    + (* strictly more complete: replaced in place *)
      apply Nat.ltb_lt in Hcmp.
      split.
      * rewrite dict_keys_set_present; [exact Hkeys|].
        rewrite Hkeys; apply first_seen_In; exact Hin.
      * apply Forall_dict_set; [exact Hnd | |].
        -- rewrite Forall_forall in Hall |- *.
           intros [k j] Hj Hk; simpl in *.
           destruct (Hall _ Hj) as [Hjk Hbest]; simpl in *.
           split; [exact Hjk|].
           apply earliest_most_complete_other; [congruence | exact Hbest].
        -- simpl; split; [reflexivity|].
           exists (pre ++ existing :: post), [].
           rewrite filter_app; simpl.
           unfold same_link at 2; rewrite str_eqb_refl.
           rewrite (same_link_ext x existing cands (eq_sym Hlink)), Hf.
           repeat split.
           ++ intros c Hc; apply in_app_or in Hc.
              destruct Hc as [Hc|[<-|Hc]].
              ** specialize (Hpre _ Hc); lia.
              ** exact Hcmp.
              ** specialize (Hpost _ Hc); lia.
           ++ intros c [].
    + (* not more complete: the stored candidate stays *)
      apply Nat.ltb_ge in Hcmp.
      split; [exact Hkeys|].
      rewrite Forall_forall in Hall |- *.
      intros [k j] Hj; simpl.
      destruct (Hall _ Hj) as [Hjk Hbest]; simpl in *.
      split; [exact Hjk|].
      destruct (str_dec (link x) (link j)) as [Heq|Hne].
      * assert (j = existing).
        { assert (Hget' : dict_get by_link k = Some j)
            by (apply dict_get_unique; assumption).
          congruence. }
        subst j.
        exists pre, (post ++ [x]).
        rewrite filter_app; simpl.
        unfold same_link at 2; rewrite Heq, str_eqb_refl, Hf.
        rewrite <- app_assoc; simpl.
        repeat split; trivial.
        intros c Hc; apply in_app_or in Hc.
        destruct Hc as [Hc|[<-|[]]]; [auto | exact Hcmp].
      * apply earliest_most_complete_other; assumption.
  - (* a new link: appended *)
    apply dict_get_None in Hget.
    assert (Hnotin : ~ In (link x) (map link cands)).
    { rewrite <- first_seen_In, <- Hkeys; exact Hget. }
    destruct (in_dec str_dec (link x) (map link cands)) as [Hyes|_]; [tauto|].
    rewrite dict_set_absent by exact Hget.
    split.
    + unfold dict_keys in *; rewrite map_app, Hkeys; reflexivity.
    + apply Forall_app; split.
      * rewrite Forall_forall in Hall |- *.
        intros [k j] Hj; simpl.
        destruct (Hall _ Hj) as [Hjk Hbest]; simpl in *.
        split; [exact Hjk|].
        apply earliest_most_complete_other; [|exact Hbest].
        intros Heq; apply Hget; rewrite Heq, Hjk.
        change k with (fst (k, j)); apply in_map; exact Hj.
      * constructor; [|constructor]; simpl; split; [reflexivity|].
        exists [], []; simpl.
        rewrite filter_app; simpl.
        unfold same_link at 2; rewrite str_eqb_refl.
        rewrite filter_none; [repeat split; intros c [] |].
        intros c Hc; apply same_link_other.
        intros Heq; apply Hnotin; rewrite <- Heq; apply in_map; exact Hc.
Qed.

Lemma merged_all (cands : list job) : merged (fold_left merge_step cands []) cands.
Proof.
  induction cands as [|x cands IH] using rev_ind.
  - split; [reflexivity | constructor].
  - rewrite fold_left_app; simpl; apply merged_step; exact IH.
Qed.

(** C5: over the candidates of all lists in the order they are met,
    [merge_jobs] returns one candidate per distinct link, in the order in
    which the links first appear, and the candidate kept for a link is the
    earliest one whose completeness score is maximal: every earlier
    candidate of that link has a strictly smaller score (so it was replaced
    only by a strictly more complete one) and no later one has a greater
    score (so a tie keeps the earlier candidate). *)
Theorem merge_jobs_keeps_earliest_most_complete (lists : list (list job)) :
  let cands := concat lists in
  map link (merge_jobs lists) = first_seen (map link cands) /\
  NoDup (map link (merge_jobs lists)) /\
  (forall k, In k (map link cands) <-> In k (map link (merge_jobs lists))) /\
  (forall j, In j (merge_jobs lists) -> earliest_most_complete j cands).
Proof.
  intros cands.
  unfold merge_jobs; rewrite merge_jobs_concat; fold cands.
  destruct (merged_all cands) as [Hkeys Hall].
  set (by_link := fold_left merge_step cands []) in *.
  assert (Hlinks : map link (dict_values by_link) = dict_keys by_link).
  { unfold dict_values, dict_keys; rewrite map_map.
    apply map_ext_in; intros e He.
    rewrite Forall_forall in Hall; apply (Hall _ He). }
  rewrite Hlinks, Hkeys.
  repeat split.
  - apply first_seen_NoDup.
  - apply first_seen_In.
  - apply first_seen_In.
  - intros j Hj; apply in_map_iff in Hj; destruct Hj as (e & <- & He).
    rewrite Forall_forall in Hall; apply (Hall _ He).
Qed.


(* ------------------------------------------------------------------------- *)
(** ** The numeric identifier *)

Lemma le_bytes_length (k : nat) (n : N) : length (le_bytes k n) = k.
Proof. revert n; induction k; intros n; simpl; auto. Qed.

Lemma le_bytes_byte (k : nat) (n : N) :
  Forall (fun b => (b < 256)%N) (le_bytes k n).
Proof.
  revert n; induction k; intros n; simpl; constructor; auto.
  apply N.mod_lt; discriminate.
Qed.

Lemma md5_length (msg : list N) : length (md5 msg) = 16.
Proof.
  unfold md5.
  destruct (md5_blocks _ _ _) as [[[a b] c] d].
  rewrite !length_app, !le_bytes_length; reflexivity.
Qed.

Lemma md5_bytes (msg : list N) : Forall (fun b => (b < 256)%N) (md5 msg).
Proof.
  unfold md5.
  destruct (md5_blocks _ _ _) as [[[a b] c] d].
  repeat (apply Forall_app; split); apply le_bytes_byte.
Qed.

Lemma hex_value_digit (n : N) : (n < 16)%N -> hex_value (hex_digit n) = Some n.
Proof.
  intros Hn; unfold hex_value, hex_digit.
  destruct (n <? 10)%N eqn:E.
  - apply N.ltb_lt in E.
    replace ((48 <=? 48 + n)%N && (48 + n <=? 57)%N) with true
      by (symmetry; apply andb_true_iff; split; apply N.leb_le; lia).
    f_equal; lia.
  - apply N.ltb_ge in E.
    replace ((48 <=? 87 + n)%N && (87 + n <=? 57)%N) with false
      by (symmetry; apply andb_false_iff; right; apply N.leb_gt; lia).
    replace ((97 <=? 87 + n)%N && (87 + n <=? 102)%N) with true
      by (symmetry; apply andb_true_iff; split; apply N.leb_le; lia).
    f_equal; lia.
Qed.

Lemma int16_fold (bs : list N) (a : N) :
  Forall (fun b => (b < 256)%N) bs ->
  fold_left (fun acc c =>
               match acc, hex_value c with
               | Some a, Some v => Some (16 * a + v)%N
               | _, _ => None
               end) (hexdigest bs) (Some a) =
  Some (fold_left (fun acc b => (256 * acc + b)%N) bs a).
Proof.
  intros Hbs; revert a; induction Hbs as [|b bs Hb _ IH]; intros a.
  - reflexivity.
  - cbn [hexdigest flat_map app fold_left].
    rewrite !hex_value_digit.
    + fold (hexdigest bs); rewrite IH; do 2 f_equal.
      pose proof (N.div_mod b 16); lia.
    + apply N.mod_lt; discriminate.
    + apply N.Div0.div_lt_upper_bound; lia.
Qed.

Lemma int16_hexdigest (bs : list N) :
  bs <> [] -> Forall (fun b => (b < 256)%N) bs ->
  int16 (hexdigest bs) = Some (be_value bs).
Proof.
  intros Hne Hbs; unfold int16, be_value.
  destruct bs as [|b bs]; [congruence|].
  cbn [hexdigest flat_map app].
  apply (int16_fold (bs := b :: bs)); exact Hbs.
Qed.

Lemma hexdigest_firstn (n : nat) (bs : list N) :
  firstn (2 * n) (hexdigest bs) = hexdigest (firstn n bs).
Proof.
  revert bs; induction n as [|n IH]; intros bs; [reflexivity|].
  destruct bs as [|b bs]; [reflexivity|].
  replace (2 * S n) with (S (S (2 * n))) by lia.
  cbn [hexdigest flat_map app firstn].
  fold (hexdigest bs); fold (hexdigest (firstn n bs)).
  rewrite IH; reflexivity.
Qed.

Lemma decimal_digit_div10 (n : N) (i : nat) :
  decimal_digit n (S i) = decimal_digit (n / 10) i.
Proof.
  unfold decimal_digit.
  rewrite Nat2N.inj_succ, N.pow_succ_r', N.Div0.div_div by lia.
  reflexivity.
Qed.

Lemma digits_of_spec (fuel : nat) (n : N) (acc : str) :
  (n < 10 ^ N.of_nat fuel)%N -> 1 <= fuel ->
  exists m, 1 <= m <= fuel /\ (n < 10 ^ N.of_nat m)%N /\
            (m = 1 \/ (10 ^ N.of_nat (m - 1) <= n)%N) /\
            digits_of fuel n acc = map (decimal_digit n) (rev (seq 0 m)) ++ acc.
Proof.
  revert n acc; induction fuel as [|fuel IH]; intros n acc Hn Hfuel; [lia|].
  cbn [digits_of].
  destruct (n <? 10)%N eqn:E.
  - apply N.ltb_lt in E.
    exists 1; repeat split; [lia | lia | exact E | left; reflexivity |].
    cbn; unfold decimal_digit; cbn; rewrite N.div_1_r; reflexivity.
  - apply N.ltb_ge in E.
    assert (Hfuel' : 1 <= fuel).
    { destruct fuel; [cbn in Hn; lia | lia]. }
    assert (Hdiv : (n / 10 < 10 ^ N.of_nat fuel)%N).
    { apply N.Div0.div_lt_upper_bound.
      rewrite Nat2N.inj_succ, N.pow_succ_r' in Hn; lia. }
    destruct (IH (n / 10)%N ((48 + n mod 10)%N :: acc) Hdiv Hfuel')
      as (m & Hm & Hlt & Hmin & Heq).
    pose proof (N.div_mod n 10) as Hdm.
    pose proof (N.mod_lt n 10) as Hml.
    exists (S m); repeat split; [lia | lia | | |].
    + rewrite Nat2N.inj_succ, N.pow_succ_r' by lia; lia.
    + right; replace (S m - 1) with (S (m - 1)) by lia.
      rewrite Nat2N.inj_succ, N.pow_succ_r' by lia.
      destruct Hmin as [->|Hmin]; [cbn; lia|].
      set (p := (10 ^ N.of_nat (m - 1))%N) in *.
      set (q := (n / 10)%N) in *; set (r := (n mod 10)%N) in *; lia.
    + rewrite Heq.
      cbn [seq rev]; rewrite <- seq_shift, <- map_rev, map_app, map_map.
      rewrite <- app_assoc; cbn [map app].
      f_equal.
      * apply map_ext; intros i; symmetry; apply decimal_digit_div10.
      * f_equal; unfold decimal_digit; cbn; rewrite N.div_1_r; reflexivity.
Qed.

Lemma str_of_N_spec (n : N) :
  exists m, 1 <= m /\ (n < 10 ^ N.of_nat m)%N /\
            (m = 1 \/ (10 ^ N.of_nat (m - 1) <= n)%N) /\
            str_of_N n = map (decimal_digit n) (rev (seq 0 m)).
Proof.
  unfold str_of_N.
  destruct (digits_of_spec (fuel := S (N.to_nat (N.log2 n))) (n := n) [])
    as (m & Hm & Hlt & Hmin & Heq).
  - rewrite Nat2N.inj_succ, N2Nat.id.
    apply N.lt_le_trans with (2 ^ N.succ (N.log2 n))%N.
    + destruct (N.eq_dec n 0) as [->|Hpos]; [reflexivity|].
      apply N.log2_spec; lia.
    + apply N.pow_le_mono_l; lia.
  - lia.
  - exists m; rewrite app_nil_r in Heq.
    repeat split; [lia | exact Hlt | exact Hmin | exact Heq].
Qed.

Lemma decimal_digit_high (n : N) (m i : nat) :
  (n < 10 ^ N.of_nat m)%N -> m <= i -> decimal_digit n i = 48%N.
Proof.
  intros Hlt Hle; unfold decimal_digit.
  rewrite N.div_small; [reflexivity|].
  apply N.lt_le_trans with (10 ^ N.of_nat m)%N; [exact Hlt|].
  apply N.pow_le_mono_r; lia.
Qed.

Lemma decimal_digit_range (n : N) (i : nat) : is_digit (decimal_digit n i) = true.
Proof.
  unfold is_digit, decimal_digit.
  assert (H : ((n / 10 ^ N.of_nat i) mod 10 < 10)%N)
    by (apply N.mod_lt; discriminate).
  set (r := ((n / 10 ^ N.of_nat i) mod 10)%N) in *.
  apply andb_true_iff; split; apply N.leb_le; lia.
Qed.

Lemma map_const_repeat A B (f : A -> B) (b : B) (l : list A) :
  (forall x, In x l -> f x = b) -> map f l = repeat b (length l).
Proof.
  induction l as [|a l IH]; simpl; intros H; [reflexivity|].
  rewrite (H a), IH by auto; auto.
Qed.

Lemma zfill_digits (k m : nat) (n : N) :
  1 <= m <= k -> (n < 10 ^ N.of_nat m)%N ->
  zfill k (map (decimal_digit n) (rev (seq 0 m))) =
  map (decimal_digit n) (rev (seq 0 k)).
Proof.
  intros Hm Hlt.
  assert (Hpad : map (decimal_digit n) (rev (seq 0 k)) =
                 repeat 48%N (k - m) ++ map (decimal_digit n) (rev (seq 0 m))).
  { replace k with (m + (k - m)) at 1 by lia.
    rewrite seq_app, rev_app_distr, map_app; f_equal.
    rewrite map_const_repeat with (b := 48%N).
    - rewrite length_rev, length_seq; reflexivity.
    - intros i Hi; apply in_rev, in_seq in Hi.
      apply decimal_digit_high with m; [exact Hlt | lia]. }
  rewrite Hpad; unfold zfill.
  rewrite length_map, length_rev, length_seq.
  destruct (map (decimal_digit n) (rev (seq 0 m))) as [|c s] eqn:Hs.
  - apply (f_equal (@length _)) in Hs.
    rewrite length_map, length_rev, length_seq in Hs; simpl in Hs; lia.
  - assert (Hc : is_digit c = true).
    { assert (Hin : In c (map (decimal_digit n) (rev (seq 0 m))))
        by (rewrite Hs; left; reflexivity).
      apply in_map_iff in Hin; destruct Hin as (i & <- & _).
      apply decimal_digit_range. }
    unfold is_digit in Hc; apply andb_true_iff in Hc; destruct Hc as [H1 H2].
    apply N.leb_le in H1.
    replace ((c =? 43)%N || (c =? 45)%N) with false; [reflexivity|].
    symmetry; apply orb_false_iff; split; apply N.eqb_neq; lia.
Qed.

Lemma generate_numeric_id_spec (url : str) (utf8 : list N) :
  encode url = Some utf8 ->
  generate_numeric_id url = Some (numeric_id_spec utf8).
Proof.
  intros Henc; unfold generate_numeric_id, numeric_id_spec; rewrite Henc.
  change 16 with (2 * 8) at 1; rewrite hexdigest_firstn.
  rewrite int16_hexdigest.
  - change (10 ^ 16)%N with 10000000000000000%N.
    set (n := (be_value (firstn 8 (md5 utf8)) mod 10000000000000000)%N).
    assert (Hn : (n < 10 ^ N.of_nat 16)%N)
      by (apply N.mod_lt; discriminate).
    destruct (str_of_N_spec n) as (m & Hm & Hlt & Hmin & ->).
    f_equal; apply zfill_digits; [|exact Hlt].
    split; [exact Hm|].
    destruct Hmin as [->|Hmin]; [lia|].
    destruct (Nat.le_gt_cases m 16) as [Hle|Hgt]; [exact Hle|].
    assert (Hpow : (10 ^ N.of_nat 16 <= 10 ^ N.of_nat (m - 1))%N)
      by (apply N.pow_le_mono_r; lia).
    lia.
  - intros Hnil; apply (f_equal (@length _)) in Hnil.
    rewrite length_firstn, md5_length in Hnil; discriminate.
  - pose proof (md5_bytes utf8) as Hall.
    rewrite <- (firstn_skipn 8 (md5 utf8)) in Hall.
    apply Forall_app in Hall; apply Hall.
Qed.

Lemma numeric_id_spec_length (utf8 : list N) :
  length (numeric_id_spec utf8) = 16.
Proof. reflexivity. Qed.

Lemma numeric_id_spec_digits (utf8 : list N) :
  forallb is_digit (numeric_id_spec utf8) = true.
Proof.
  apply forallb_forall; intros c Hc.
  apply in_map_iff in Hc; destruct Hc as (i & <- & _).
  apply decimal_digit_range.
Qed.

(** C6: for a link that can be encoded as UTF-8, [generate_numeric_id]
    returns the string that the specification describes: the MD5 digest of
    the UTF-8 bytes, its first sixteen hexadecimal characters (the first
    eight bytes) read as an unsigned integer, reduced modulo 10^16 and
    written with sixteen decimal digits.  The result is a function of the
    link alone and is always exactly sixteen decimal digits long. *)
Theorem generate_numeric_id_is_16_digit_md5 (url : str) :
  encodable url = true ->
  exists utf8 id,
    encode url = Some utf8 /\
    generate_numeric_id url = Some id /\
    id = numeric_id_spec utf8 /\
    length id = 16 /\
    forallb is_digit id = true.
Proof.
  unfold encodable; intros Henc.
  destruct (encode url) as [utf8|] eqn:E; [|discriminate].
  exists utf8, (numeric_id_spec utf8); repeat split.
  - apply generate_numeric_id_spec; exact E.
  - apply numeric_id_spec_digits.
Qed.


(* ------------------------------------------------------------------------- *)
(** ** The feed tree *)

Lemma encodable_guid (l : str) :
  encodable l = true -> generate_numeric_id l = Some (guid_of l).
Proof.
  unfold encodable, guid_of; intros H.
  destruct (encode l) as [utf8|] eqn:E; [|discriminate].
  rewrite (generate_numeric_id_spec _ E); reflexivity.
Qed.

Lemma append_children_app (e : element) (cs1 cs2 : list element) :
  append_children (append_children e cs1) cs2 = append_children e (cs1 ++ cs2).
Proof. destruct e; simpl; rewrite app_assoc; reflexivity. Qed.

Lemma append_children_nil (e : element) : append_children e [] = e.
Proof. destruct e; simpl; rewrite app_nil_r; reflexivity. Qed.

Lemma SubElement_append (e c : element) : SubElement e c = append_children e [c].
Proof. destruct e; reflexivity. Qed.

Lemma add_existing_items_spec (items : dict feed_item) (channel : element) :
  forallb encodable (dict_keys items) = true ->
  add_existing_items channel items =
  Some (append_children channel (map element_of_item (dict_values items))).
Proof.
  revert channel; induction items as [|[k data] items IH]; intros channel H.
  - simpl; rewrite append_children_nil; reflexivity.
  - simpl in H; apply andb_true_iff in H; destruct H as [Hk H].
    cbn [add_existing_items]; rewrite (encodable_guid _ Hk), IH by exact H.
    rewrite SubElement_append, append_children_app; reflexivity.
Qed.

Lemma add_new_items_spec (now : str) (jobs : list job) (channel : element) :
  forallb (fun j => encodable (link j)) jobs = true ->
  add_new_items now channel jobs =
  Some (append_children channel
          (map (fun j => element_of_item (new_item now j)) jobs)).
Proof.
  revert channel; induction jobs as [|j jobs IH]; intros channel H.
  - simpl; rewrite append_children_nil; reflexivity.
  - simpl in H; apply andb_true_iff in H; destruct H as [Hj H].
    cbn [add_new_items]; rewrite (encodable_guid _ Hj), IH by exact H.
    rewrite SubElement_append, append_children_app; reflexivity.
Qed.

Lemma item_fields_element (data : feed_item) :
  item_fields (element_of_item data) = data.
Proof. destruct data; reflexivity. Qed.

Lemma findall_items (items : list feed_item) :
  filter (fun c => str_eqb (tag c) (lit "item")) (map element_of_item items) =
  map element_of_item items.
Proof.
  induction items as [|d items IH]; simpl; [reflexivity|].
  rewrite IH; reflexivity.
Qed.

Lemma forallb_filter A (f g : A -> bool) (l : list A) :
  forallb f l = true -> forallb f (filter g l) = true.
Proof.
  rewrite !forallb_forall; intros H x Hx; apply filter_In in Hx; apply H, Hx.
Qed.

Lemma findall_channel (now : str) (cs : list element) :
  findall (append_children (channel_head now) cs) (lit "item") =
  filter (fun c => str_eqb (tag c) (lit "item")) cs.
Proof. reflexivity. Qed.

Lemma feed_items_built (now : str) (a : list (str * str))
  (items : list feed_item) :
  feed_items
    (Element (lit "rss") a None
       [append_children (channel_head now) (map element_of_item items)]) =
  items.
Proof.
  unfold feed_items.
  replace (find _ (lit "channel"))
    with (Some (append_children (channel_head now)
                  (map element_of_item items))) by reflexivity.
  rewrite findall_channel, findall_items, map_map.
  rewrite (map_ext _ (fun d => d)) by apply item_fields_element.
  apply map_id.
Qed.

(** The feed that a run writes: the loaded items, then the new ones. *)
Lemma generate_rss_spec (file : feed_file) (now : str) (new_jobs : list job) :
  let existing := load_existing_feed file in
  forallb encodable (dict_keys existing) = true ->
  forallb (fun j => encodable (link j)) new_jobs = true ->
  exists rss,
    generate_rss file now new_jobs = Some rss /\
    find rss (lit "channel") =
      Some (append_children (channel_head now)
              (map element_of_item
                 (dict_values existing ++
                  map (new_item now) (truly_new_of existing new_jobs)))) /\
    feed_items rss =
      dict_values existing ++
      map (new_item now) (truly_new_of existing new_jobs).
Proof.
  intros existing Hex Hnew.
  unfold generate_rss; fold existing.
  rewrite add_existing_items_spec by exact Hex.
  rewrite add_new_items_spec by (apply forallb_filter; exact Hnew).
  rewrite append_children_app, <- (map_map (new_item now) element_of_item).
  rewrite <- map_app.
  eexists; split; [reflexivity|].
  set (items := dict_values existing ++ _).
  split; [reflexivity|].
  apply feed_items_built.
Qed.

(* ------------------------------------------------------------------------- *)
(** ** [strip] *)

Lemma lstrip_nonspace (c : char) (s : str) :
  isspace c = false -> lstrip (c :: s) = c :: s.
Proof. intros H; simpl; rewrite H; reflexivity. Qed.

Lemma lstrip_app_nonspace (l r : str) (c : char) :
  isspace c = false -> lstrip (l ++ c :: r) = lstrip l ++ c :: r.
Proof.
  intros H; induction l as [|a l IH]; simpl.
  - rewrite H; reflexivity.
  - destruct (isspace a); [exact IH | reflexivity].
Qed.

Lemma lstrip_head (s : str) :
  lstrip s = [] \/ exists c t, lstrip s = c :: t /\ isspace c = false.
Proof.
  induction s as [|a s IH]; simpl; [left; reflexivity|].
  destruct (isspace a) eqn:E; [exact IH|].
  right; exists a, s; split; [reflexivity | exact E].
Qed.

Lemma lstrip_idempotent (s : str) : lstrip (lstrip s) = lstrip s.
Proof.
  destruct (lstrip_head s) as [->|(c & t & -> & Hc)]; [reflexivity|].
  apply lstrip_nonspace; exact Hc.
Qed.

Lemma rstrip_cons_nonspace (c : char) (s : str) :
  isspace c = false -> rstrip (c :: s) = c :: rstrip s.
Proof.
  intros H; unfold rstrip; simpl.
  rewrite lstrip_app_nonspace by exact H.
  rewrite rev_app_distr; reflexivity.
Qed.

Lemma rstrip_idempotent (s : str) : rstrip (rstrip s) = rstrip s.
Proof.
  unfold rstrip; rewrite rev_involutive, lstrip_idempotent; reflexivity.
Qed.

Lemma strip_idempotent (s : str) : strip (strip s) = strip s.
Proof.
  unfold strip.
  destruct (lstrip_head s) as [->|(c & t & -> & Hc)]; [reflexivity|].
  rewrite rstrip_cons_nonspace by exact Hc.
  rewrite lstrip_nonspace by exact Hc.
  rewrite rstrip_cons_nonspace by exact Hc.
  rewrite rstrip_idempotent; reflexivity.
Qed.

(** A string that neither starts nor ends with white space is left as it
    is. *)
Lemma strip_fixed (c : char) (s : str) (d : char) :
  isspace c = false -> isspace d = false ->
  strip (c :: s ++ [d]) = c :: s ++ [d].
Proof.
  intros Hc Hd; unfold strip.
  rewrite lstrip_nonspace by exact Hc.
  unfold rstrip.
  replace (rev (c :: s ++ [d])) with (d :: rev s ++ [c])
    by (simpl; rewrite rev_app_distr; reflexivity).
  rewrite lstrip_nonspace by exact Hd.
  simpl; rewrite rev_app_distr, rev_involutive; reflexivity.
Qed.

Lemma strip_single (c : char) : isspace c = false -> strip [c] = [c].
Proof. intros Hc; unfold strip, rstrip; simpl; rewrite Hc; simpl; rewrite Hc; reflexivity. Qed.

Lemma is_digit_not_space (c : char) : is_digit c = true -> isspace c = false.
Proof.
  unfold is_digit, isspace, is_ascii; intros H.
  apply andb_true_iff in H; destruct H as [H1 H2].
  apply N.leb_le in H1, H2.
  replace (c <? 128)%N with true by (symmetry; apply N.ltb_lt; lia).
  apply orb_false_iff; split; apply andb_false_iff.
  - right; apply N.leb_gt; lia.
  - right; apply N.leb_gt; lia.
Qed.

Lemma strip_digits (s : str) : forallb is_digit s = true -> strip s = s.
Proof.
  intros H.
  destruct s as [|c s]; [reflexivity|].
  simpl in H; apply andb_true_iff in H; destruct H as [Hc Hs].
  destruct s as [|c' s'] using rev_ind; [apply strip_single, is_digit_not_space, Hc|].
  rewrite forallb_app in Hs; apply andb_true_iff in Hs; destruct Hs as [_ Hd].
  simpl in Hd; rewrite andb_true_r in Hd.
  apply strip_fixed; apply is_digit_not_space; assumption.
Qed.

Lemma strip_guid_of (l : str) : encodable l = true -> strip (guid_of l) = guid_of l.
Proof.
  unfold encodable, guid_of; intros H.
  destruct (encode l) as [utf8|] eqn:E; [|discriminate].
  rewrite (generate_numeric_id_spec _ E).
  apply strip_digits, numeric_id_spec_digits.
Qed.


(* ------------------------------------------------------------------------- *)
(** ** Loading the feed *)

Lemma dict_keys_set V (d : dict V) (k : str) (v : V) :
  dict_keys (dict_set d k v) =
  if in_dec str_dec k (dict_keys d) then dict_keys d else dict_keys d ++ [k].
Proof.
  destruct (in_dec str_dec k (dict_keys d)) as [Hin|Hnotin].
  - apply dict_keys_set_present; exact Hin.
  - rewrite dict_set_absent by exact Hnotin.
    unfold dict_keys; rewrite map_app; reflexivity.
Qed.

Lemma dict_set_NoDup V (d : dict V) (k : str) (v : V) :
  NoDup (dict_keys d) -> NoDup (dict_keys (dict_set d k v)).
Proof.
  intros Hnd; rewrite dict_keys_set.
  destruct (in_dec str_dec k (dict_keys d)) as [Hin|Hnotin]; [exact Hnd|].
  apply NoDup_app; repeat split; trivial.
  - constructor; [tauto | constructor].
  - intros x Hx [<-|[]]; tauto.
Qed.

Lemma dict_set_In V (d : dict V) (k : str) (v : V) (e : str * V) :
  In e (dict_set d k v) -> e = (k, v) \/ In e d.
Proof.
  induction d as [|[k' v'] d IH]; simpl.
  - intros [<-|[]]; auto.
  - destruct (str_eqb k' k) eqn:E; simpl.
    + apply str_eqb_eq in E; subst; intros [<-|H]; auto.
    + intros [<-|H]; auto. destruct (IH H); auto.
Qed.



Lemma stripped_stripped (data : feed_item) : stripped_item (stripped data).
Proof.
  unfold stripped_item, stripped; simpl.
  rewrite !strip_idempotent; reflexivity.
Qed.

Lemma loaded_set (existing : dict feed_item) (data : feed_item) :
  loaded existing -> stripped_item data ->
  loaded (dict_set existing (fi_link data) data).
Proof.
  intros [Hnd Hall] Hdata; split.
  - apply dict_set_NoDup; exact Hnd.
  - apply Forall_forall; intros e He.
    apply dict_set_In in He; destruct He as [->|He].
    + simpl; auto.
    + rewrite Forall_forall in Hall; apply Hall; exact He.
Qed.

Lemma load_item_loaded (existing : dict feed_item) (item : element) :
  loaded existing -> loaded (load_item existing item).
Proof.
  intros H; unfold load_item.
  destruct (find item (lit "link")) as [link_el|]; [|exact H].
  destruct (text link_el) as [[|c x]|]; try exact H.
  set (data := {| fi_title := child_text item "title";
                  fi_link := strip (c :: x);
                  fi_description := child_text item "description";
                  fi_guid := child_text item "guid";
                  fi_pubDate := child_text item "pubDate" |}).
  apply (loaded_set (data := data) H).
  unfold stripped_item, stripped, data, child_text; simpl.
  f_equal; try apply strip_idempotent;
    destruct (find item _); try reflexivity; apply strip_idempotent.
Qed.

Lemma fold_left_invariant A B (P : A -> Prop) (f : A -> B -> A) (l : list B)
  (a : A) :
  P a -> (forall a b, P a -> P (f a b)) -> P (fold_left f l a).
Proof.
  revert a; induction l as [|b l IH]; intros a Ha Hf; simpl; auto.
Qed.

Lemma load_existing_feed_loaded (file : feed_file) :
  loaded (load_existing_feed file).
Proof.
  assert (Hnil : loaded []) by (split; constructor).
  destruct file as [| |root]; simpl; trivial.
  destruct (find root (lit "channel")) as [channel|]; trivial.
  apply fold_left_invariant; [exact Hnil|].
  intros; apply load_item_loaded; assumption.
Qed.




Lemma dict_keys_values V (d : dict V) (k : str) :
  In k (dict_keys d) -> exists v, In (k, v) d.
Proof.
  unfold dict_keys; intros H; apply in_map_iff in H.
  destruct H as ([k' v] & <- & H); exists v; exact H.
Qed.

Lemma dict_values_In V (d : dict V) (v : V) :
  In v (dict_values d) <-> exists k, In (k, v) d.
Proof.
  unfold dict_values; rewrite in_map_iff; split.
  - intros ([k v'] & <- & H); exists k; exact H.
  - intros (k & H); exists (k, v); auto.
Qed.

Lemma clean_link_spec (l : str) :
  clean_link l = true <-> l <> [] /\ strip l = l.
Proof.
  unfold clean_link; rewrite andb_true_iff, str_eqb_eq.
  destruct l; simpl; intuition congruence.
Qed.

Lemma truly_new_In (existing : dict feed_item) (new_jobs : list job) (j : job) :
  In j (truly_new_of existing new_jobs) <->
  In j new_jobs /\ ~ In (link j) (dict_keys existing).
Proof.
  unfold truly_new_of; rewrite filter_In, negb_true_iff.
  rewrite <- dict_mem_In; destruct (dict_mem existing (link j));
    intuition congruence.
Qed.

(* ------------------------------------------------------------------------- *)
(** ** Repeated links *)

Lemma NoDup_map_filter A B (g : A -> B) (f : A -> bool) (l : list A) :
  NoDup (map g l) -> NoDup (map g (filter f l)).
Proof.
  induction l as [|a l IH]; simpl; [trivial|].
  intros H; inversion H as [|? ? Hnotin Hnd]; subst.
  destruct (f a); [|apply IH; exact Hnd].
  simpl; constructor; [|apply IH; exact Hnd].
  intros Hin; apply Hnotin.
  apply in_map_iff in Hin; destruct Hin as (x & Hx & Hin).
  apply filter_In in Hin; rewrite <- Hx; apply in_map; tauto.
Qed.

(** When the classified postings have distinct links, so have the items of
    the feed. *)
Lemma generate_rss_links_unique (file : feed_file) (now : str)
  (new_jobs : list job) :
  forallb encodable (dict_keys (load_existing_feed file)) = true ->
  forallb (fun j => encodable (link j)) new_jobs = true ->
  NoDup (map link new_jobs) ->
  exists rss,
    generate_rss file now new_jobs = Some rss /\
    NoDup (map fi_link (feed_items rss)).
Proof.
  intros Hex Hnew Hnd.
  destruct (generate_rss_spec file now new_jobs Hex Hnew)
    as (rss & Hrun & _ & Hitems).
  exists rss; split; [exact Hrun|].
  destruct (load_existing_feed_loaded file) as [Hkeys Hall].
  set (existing := load_existing_feed file) in *.
  assert (Hlinks : map fi_link (dict_values existing) = dict_keys existing).
  { unfold dict_values, dict_keys; rewrite map_map.
    apply map_ext_in; intros e He.
    rewrite Forall_forall in Hall; apply (Hall _ He). }
  rewrite Hitems, map_app, Hlinks, map_map; simpl.
  apply NoDup_app; repeat split.
  - exact Hkeys.
  - apply NoDup_map_filter; exact Hnd.
  - intros k Hk Hin; apply in_map_iff in Hin; destruct Hin as (j & <- & Hj).
    apply truly_new_In in Hj; tauto.
Qed.

(** C2 (the code departs from it): a posting that is listed on two pages is
    included twice by [scrape_jobs], and [generate_rss], which only filters
    against the links of the loaded feed, writes two items with the same
    link. *)
Theorem generate_rss_writes_a_link_twice (now : str) :
  let j := {| title := lit "Programme Analyst";
              link := lit "https://www.unfpa.org/jobs/programme-analyst";
              location := lit "Dakar";
              grade := lit "P-3";
              contract_type := [];
              closing_date := [];
              category := [] |} in
  let p := {| jobs_a := [j]; jobs_b := []; jobs_c := []; has_next := true |} in
  scrape_jobs [p; p] = [j; j] /\
  exists rss,
    generate_rss Missing now (scrape_jobs [p; p]) = Some rss /\
    map fi_link (feed_items rss) = [link j; link j] /\
    ~ NoDup (map fi_link (feed_items rss)).
Proof.
  intros j p.
  assert (Hscrape : scrape_jobs [p; p] = [j; j]) by (vm_compute; reflexivity).
  split; [exact Hscrape|].
  rewrite Hscrape.
  destruct (generate_rss_spec Missing now [j; j]) as (rss & Hrun & _ & Hitems);
    try reflexivity.
  exists rss; split; [exact Hrun|].
  rewrite Hitems; simpl.
  split; [reflexivity|].
  intros Hnd; inversion Hnd as [|? ? Hnotin _]; apply Hnotin; left; reflexivity.
Qed.

(* ------------------------------------------------------------------------- *)
(** ** Substrings *)

Lemma startswith_spec (s p : str) :
  startswith s p = true <-> exists r, s = p ++ r.
Proof.
  revert s; induction p as [|a p IH]; intros s.
  - split; [intros _; exists s; reflexivity | destruct s; reflexivity].
  - destruct s as [|b s]; simpl.
    + split; [discriminate | intros (r & H); discriminate].
    + rewrite andb_true_iff, N.eqb_eq, IH; split.
      * intros [-> (r & ->)]; exists r; reflexivity.
      * intros (r & [= -> ->]); split; [reflexivity | exists r; reflexivity].
Qed.

Lemma contains_infix (hay needle : str) :
  contains hay needle = true <-> infix needle hay.
Proof.
  unfold infix; induction hay as [|c hay IH]; cbn [contains].
  - rewrite orb_false_r, startswith_spec; split.
    + intros (r & H); exists [], r; exact H.
    + intros ([|? ?] & post & H); [exists post; exact H | discriminate].
  - rewrite orb_true_iff, startswith_spec, IH; split.
    + intros [(r & H)|(pre & post & H)].
      * exists [], r; exact H.
      * exists (c :: pre), post; rewrite H; reflexivity.
    + intros ([|c' pre] & post & H).
      * left; exists post; exact H.
      * right; injection H as -> H; exists pre, post; exact H.
Qed.

Lemma infix_refl (s : str) : infix s s.
Proof. exists [], []; rewrite app_nil_r; reflexivity. Qed.

Lemma infix_app (w s a b : str) : infix w s -> infix w (a ++ s ++ b).
Proof.
  intros (pre & post & ->); exists (a ++ pre), (post ++ b).
  rewrite !app_assoc; reflexivity.
Qed.

Lemma infix_rev (w s : str) : infix w s -> infix (rev w) (rev s).
Proof.
  intros (pre & post & ->); exists (rev post), (rev pre).
  rewrite !rev_app_distr, app_assoc; reflexivity.
Qed.

Lemma any_in_spec (kws : list str) (n : str) :
  any_in kws n = true <-> exists kw, In kw kws /\ infix kw n.
Proof.
  unfold any_in; rewrite existsb_exists.
  split; intros (kw & Hin & H); exists kw; split; trivial;
    apply contains_infix; exact H.
Qed.

(* ------------------------------------------------------------------------- *)
(** ** Matching *)

Lemma rmatch_Str (p : str) (k : cont) (prev : option char)
  (s : str) (caps : captures) (res : captures * str) :
  rmatch (Str p) k prev s caps = Some res -> startswith s p = true.
Proof.
  revert prev s; induction p as [|c p IH]; intros prev s;
    [destruct s; reflexivity|].
  simpl; destruct s as [|x s]; [discriminate|].
  destruct (x =? c)%N eqn:E; [|discriminate].
  apply N.eqb_eq in E; subst x; intros H.
  cbn [startswith]; rewrite N.eqb_refl; apply (IH (Some c) s); exact H.
Qed.

Lemma search_token_contains (prefix g : str) :
  re_search (excluded_token prefix) g = true -> contains g prefix = true.
Proof.
  unfold re_search; generalize (@None char).
  induction g as [|c g IH]; intros prev; simpl.
  - destruct (match_at _ prev []) as [res|] eqn:E; [|discriminate].
    intros _; rewrite orb_false_r.
    unfold match_at, excluded_token in E; cbn [rmatch] in E.
    destruct (at_boundary prev []); [|discriminate].
    apply rmatch_Str in E; exact E.
  - destruct (match_at _ prev (c :: g)) as [res|] eqn:E.
    + intros _; apply orb_true_iff; left.
      unfold match_at, excluded_token in E; cbn [rmatch] in E.
      destruct (at_boundary prev (c :: g)); [|discriminate].
      apply rmatch_Str in E; exact E.
    + intros H; apply orb_true_iff; right; apply (IH (Some c)); exact H.
Qed.

Lemma is_excluded_grade_spec (g : str) :
  is_excluded_grade g = true <-> excluded_grade_pattern g.
Proof.
  unfold is_excluded_grade, excluded_grade_pattern.
  rewrite orb_true_iff, !existsb_exists; split.
  - intros [(prefix & Hin & H)|(no & Hin & H)].
    + apply andb_true_iff in H; left; exists prefix; tauto.
    + right; exists no; split; [exact Hin | apply contains_infix; exact H].
  - intros [(prefix & Hin & H)|(no & Hin & H)].
    + left; exists prefix; split; [exact Hin|].
      rewrite H, (search_token_contains _ _ H); reflexivity.
    + right; exists no; split; [exact Hin | apply contains_infix; exact H].
Qed.

(** C4: whenever the normalized, grade-expanded grade shows an excluded
    pattern (a [G-], [SB-] or [LSC-] prefix followed by digits as a whole
    token, or one of the national-officer spellings anywhere),
    [should_include] answers [false], whatever the title: the title
    "Intern" carries an internship keyword, and with the grade "G-6" the
    record is excluded. *)
Theorem should_include_excluded_grade_wins
  (title grade contract_type category : str) :
  (excluded_grade_pattern (normalize_grade grade) ->
   should_include title grade contract_type category = false) /\
  contains_intern (lit "Intern") = true /\
  excluded_grade_pattern (normalize_grade (lit "G-6")) /\
  should_include (lit "Intern") (lit "G-6") contract_type category = false.
Proof.
  assert (Hgen : forall t g ct cat,
             excluded_grade_pattern (normalize_grade g) ->
             should_include t g ct cat = false).
  { intros t g ct cat H; apply is_excluded_grade_spec in H.
    unfold should_include.
    destruct (contains_consultant _); [reflexivity|].
    rewrite H; reflexivity. }
  assert (HG6 : excluded_grade_pattern (normalize_grade (lit "G-6"))).
  { apply is_excluded_grade_spec; vm_compute; reflexivity. }
  split; [apply Hgen|].
  split; [vm_compute; reflexivity|].
  split; [exact HG6 | apply Hgen; exact HG6].
Qed.

(* ------------------------------------------------------------------------- *)
(** ** The two substitutions of [normalize] *)

Lemma re_sub_class (p : char -> bool) (t : str) (s : str) :
  re_sub (Cls p) [inl t] s = flat_map (fun c => if p c then t else [c]) s.
Proof.
  unfold re_sub; generalize (@None char).
  induction s as [|c s IH]; intros prev; [reflexivity|].
  cbn [sub_scan flat_map]; unfold match_at; cbn [rmatch].
  destruct (p c).
  - cbn [expand flat_map length]; rewrite app_nil_r.
    replace (S (length s) - length s) with 1 by lia.
    rewrite IH; reflexivity.
  - rewrite IH; reflexivity.
Qed.

Lemma re_sub_dash (s : str) :
  re_sub (Cls is_dash) [inl (lit "-")] s = map unify_dash s.
Proof.
  rewrite re_sub_class; induction s as [|c s IH]; simpl; [reflexivity|].
  rewrite IH; unfold unify_dash; destruct (is_dash c); reflexivity.
Qed.

Lemma lstrip_length (s : str) : length (lstrip s) <= length s.
Proof.
  induction s as [|c s IH]; simpl; [lia|].
  destruct (isspace c); simpl; lia.
Qed.

Lemma many_accept (p : char -> bool) (prev : option char) (s : str)
  (caps : captures) :
  exists rest, many p accept prev s caps = Some (caps, rest) /\
               rest = (fix drop (l : str) : str :=
                         match l with
                         | c :: l' => if p c then drop l' else l
                         | [] => []
                         end) s.
Proof.
  revert prev; induction s as [|c s IH]; intros prev; simpl.
  - exists []; split; reflexivity.
  - destruct (p c).
    + destruct (IH (Some c)) as (rest & -> & Hrest); exists rest; auto.
    + exists (c :: s); split; reflexivity.
Qed.

Lemma many_space_accept (prev : option char) (s : str) (caps : captures) :
  many isspace accept prev s caps = Some (caps, lstrip s).
Proof.
  destruct (many_accept isspace prev s caps) as (rest & -> & ->); reflexivity.
Qed.

Lemma collapse_go_lstrip (s : str) :
  collapse_go true s = collapse_go false (lstrip s).
Proof.
  induction s as [|c s IH]; simpl; [reflexivity|].
  destruct (isspace c) eqn:E; [exact IH|].
  simpl; rewrite E; reflexivity.
Qed.

Lemma sub_space_scan (s : str) :
  (forall prev, sub_scan (Plus isspace) [inl (lit " ")] prev s 0
                = collapse_go false s) /\
  (forall prev, sub_scan (Plus isspace) [inl (lit " ")] prev s
                  (length s - length (lstrip s))
                = collapse_go true s).
Proof.
  induction s as [|c s [IH0 IH1]].
  - split; reflexivity.
  - assert (H0 : forall prev,
               sub_scan (Plus isspace) [inl (lit " ")] prev (c :: s) 0 =
               collapse_go false (c :: s)).
    { intros prev; cbn [sub_scan collapse_go]; unfold match_at; cbn [rmatch].
      destruct (isspace c).
      - fold accept; rewrite many_space_accept.
        pose proof (lstrip_length s) as Hlen.
        replace (length (c :: s) - length (lstrip s))
          with (S (length s - length (lstrip s))) by (cbn [length]; lia).
        rewrite IH1; reflexivity.
      - rewrite IH0; reflexivity. }
    split; [exact H0|].
    intros prev; cbn [lstrip collapse_go]; destruct (isspace c) eqn:E.
    + pose proof (lstrip_length s) as Hlen.
      replace (length (c :: s) - length (lstrip s))
        with (S (length s - length (lstrip s))) by (cbn [length]; lia).
      cbn [sub_scan]; apply IH1.
    + rewrite Nat.sub_diag, H0; cbn [collapse_go]; rewrite E; reflexivity.
Qed.

Lemma re_sub_space (s : str) :
  re_sub (Plus isspace) [inl (lit " ")] s = collapse s.
Proof. apply sub_space_scan. Qed.

(** [normalize] without the regular expressions. *)
Lemma normalize_unfold (s : str) :
  normalize s =
  match s with
  | [] => []
  | _ :: _ => collapse (strip (upper (map unify_dash (nfkd s))))
  end.
Proof.
  destruct s; [reflexivity|].
  unfold normalize; rewrite re_sub_dash, re_sub_space; reflexivity.
Qed.

(* ------------------------------------------------------------------------- *)
(** ** A plain word survives normalization *)

Lemma plain_ascii (c : char) : plain c = true -> is_ascii c = true.
Proof. unfold plain; intros H; apply andb_true_iff in H; tauto. Qed.

Lemma plain_not_space (c : char) : plain c = true -> isspace c = false.
Proof.
  unfold plain; intros H; apply andb_true_iff in H.
  destruct H as [_ H]; apply negb_true_iff in H; exact H.
Qed.

Lemma plain_starter (c : char) : plain c = true -> combining c = 0%N.
Proof. intros H; unfold combining; rewrite (plain_ascii _ H); reflexivity. Qed.

Lemma ascii_not_dash (c : char) : is_ascii c = true -> is_dash c = false.
Proof.
  unfold is_ascii, is_dash; intros H; apply N.ltb_lt in H.
  repeat (apply orb_false_iff; split); try (apply N.eqb_neq; lia).
  apply andb_false_iff; left; apply N.leb_gt; lia.
Qed.

Lemma upper_char_ascii (c : char) :
  is_ascii c = true ->
  exists c', upper_char c = [c'] /\ is_ascii c' = true /\
             isspace c' = isspace c.
Proof.
  unfold upper_char, isspace, is_ascii; intros H; rewrite H.
  apply N.ltb_lt in H.
  destruct ((97 <=? c)%N && (c <=? 122)%N) eqn:E.
  - apply andb_true_iff in E; destruct E as [E1 E2].
    apply N.leb_le in E1, E2.
    exists (c - 32)%N; repeat split.
    + apply N.ltb_lt; lia.
    + replace (c - 32 <? 128)%N with true by (symmetry; apply N.ltb_lt; lia).
      replace ((9 <=? c)%N && (c <=? 13)%N) with false
        by (symmetry; apply andb_false_iff; right; apply N.leb_gt; lia).
      replace ((28 <=? c)%N && (c <=? 32)%N) with false
        by (symmetry; apply andb_false_iff; right; apply N.leb_gt; lia).
      replace ((9 <=? c - 32)%N && (c - 32 <=? 13)%N) with false
        by (symmetry; apply andb_false_iff; right; apply N.leb_gt; lia).
      replace ((28 <=? c - 32)%N && (c - 32 <=? 32)%N) with false
        by (symmetry; apply andb_false_iff; right; apply N.leb_gt; lia).
      reflexivity.
  - exists c; repeat split; [apply N.ltb_lt; lia|].
    replace (c <? 128)%N with true by (symmetry; apply N.ltb_lt; lia).
    reflexivity.
Qed.

Lemma upper_plain (w : str) :
  forallb plain w = true ->
  forallb plain (upper w) = true /\ length (upper w) = length w.
Proof.
  induction w as [|c w IH]; simpl; [auto|].
  intros H; apply andb_true_iff in H; destruct H as [Hc Hw].
  destruct (upper_char_ascii c (plain_ascii _ Hc)) as (c' & -> & Ha & Hs).
  destruct (IH Hw) as [IH1 IH2]; simpl; split; [|congruence].
  rewrite IH1, andb_true_r; unfold plain.
  rewrite Ha, Hs, (plain_not_space _ Hc); reflexivity.
Qed.

Lemma decomposition_plain (w : str) :
  forallb plain w = true -> flat_map decomposition w = w.
Proof.
  induction w as [|c w IH]; simpl; [reflexivity|].
  intros H; apply andb_true_iff in H; destruct H as [Hc Hw].
  unfold decomposition at 1; rewrite (plain_ascii _ Hc), IH by exact Hw.
  reflexivity.
Qed.

Lemma insert_mark_barrier (c x : char) (front back : list char) :
  combining x = 0%N ->
  exists front', insert_mark c (front ++ x :: back) = front' ++ x :: back.
Proof.
  intros Hx; induction front as [|p front (front' & IH)]; simpl.
  - rewrite Hx; simpl; exists [c]; reflexivity.
  - destruct ((combining p =? 0)%N || (combining p <=? combining c)%N).
    + exists (c :: p :: front); reflexivity.
    + rewrite IH; exists (p :: front'); reflexivity.
Qed.

Lemma fold_place_barrier (x : char) (s : str) (front back : list char) :
  combining x = 0%N ->
  exists front', fold_left place s (front ++ x :: back) = front' ++ x :: back.
Proof.
  intros Hx; revert front; induction s as [|c s IH]; intros front; simpl.
  - exists front; reflexivity.
  - unfold place at 2; destruct (combining c =? 0)%N.
    + apply (IH (c :: front)).
    + destruct (insert_mark_barrier c x front back Hx) as (front' & ->).
      apply IH.
Qed.

Lemma fold_place_starters (w : str) (acc : list char) :
  forallb plain w = true -> fold_left place w acc = rev w ++ acc.
Proof.
  revert acc; induction w as [|c w IH]; intros acc H; simpl; [reflexivity|].
  apply andb_true_iff in H; destruct H as [Hc Hw].
  unfold place at 2; rewrite (plain_starter _ Hc); simpl.
  rewrite IH by exact Hw; rewrite <- app_assoc; reflexivity.
Qed.

Lemma canonical_order_infix (w a b : str) :
  forallb plain w = true -> w <> [] ->
  infix w (canonical_order (a ++ w ++ b)).
Proof.
  intros Hw Hne; unfold canonical_order.
  rewrite !fold_left_app, (fold_place_starters w _ Hw).
  destruct (rev w) as [|x r] eqn:Hrev.
  { apply (f_equal (@rev _)) in Hrev; rewrite rev_involutive in Hrev.
    contradiction. }
  assert (Hx : combining x = 0%N).
  { apply plain_starter.
    rewrite forallb_forall in Hw; apply Hw, in_rev.
    rewrite Hrev; left; reflexivity. }
  destruct (fold_place_barrier x b [] (r ++ fold_left place a []) Hx)
    as (front & Hfold).
  simpl in Hfold |- *; rewrite Hfold.
  change (front ++ x :: r ++ fold_left place a [])
    with (front ++ (x :: r) ++ fold_left place a []).
  rewrite <- Hrev, !rev_app_distr, rev_involutive, <- app_assoc.
  exists (rev (fold_left place a [])), (rev front); reflexivity.
Qed.

Lemma nfkd_infix (w s : str) :
  forallb plain w = true -> w <> [] -> infix w s -> infix w (nfkd s).
Proof.
  intros Hw Hne (a & b & ->); unfold nfkd.
  rewrite !flat_map_app, (decomposition_plain _ Hw).
  apply canonical_order_infix; assumption.
Qed.

Lemma unify_dash_infix (w s : str) :
  forallb plain w = true -> infix w s -> infix w (map unify_dash s).
Proof.
  intros Hw (a & b & ->); rewrite !map_app.
  exists (map unify_dash a), (map unify_dash b); do 2 f_equal.
  clear a b; induction w as [|c w IH]; simpl; [reflexivity|].
  simpl in Hw; apply andb_true_iff in Hw; destruct Hw as [Hc Hw].
  rewrite IH by exact Hw; unfold unify_dash.
  rewrite (ascii_not_dash _ (plain_ascii _ Hc)); reflexivity.
Qed.

Lemma upper_infix (w s : str) : infix w s -> infix (upper w) (upper s).
Proof.
  intros (a & b & ->); unfold upper; rewrite !flat_map_app.
  eexists _, _; reflexivity.
Qed.

Lemma lstrip_infix (w s : str) :
  forallb plain w = true -> w <> [] -> infix w s -> infix w (lstrip s).
Proof.
  intros Hw Hne (a & b & ->).
  destruct w as [|c w]; [contradiction|].
  simpl in Hw; apply andb_true_iff in Hw; destruct Hw as [Hc _].
  simpl; rewrite lstrip_app_nonspace by (apply plain_not_space; exact Hc).
  exists (lstrip a), b; reflexivity.
Qed.

Lemma strip_infix (w s : str) :
  forallb plain w = true -> w <> [] -> infix w s -> infix w (strip s).
Proof.
  intros Hw Hne H; unfold strip, rstrip.
  rewrite <- (rev_involutive w); apply infix_rev, lstrip_infix.
  - rewrite forallb_forall in Hw |- *; intros c Hc; apply Hw, in_rev, Hc.
  - intros E; apply Hne; rewrite <- (rev_involutive w), E; reflexivity.
  - apply infix_rev, lstrip_infix; assumption.
Qed.

Lemma collapse_go_plain (w b : str) (f : bool) :
  forallb plain w = true ->
  exists f', collapse_go f (w ++ b) = w ++ collapse_go f' b.
Proof.
  revert f; induction w as [|c w IH]; intros f H; simpl.
  - exists f; reflexivity.
  - simpl in H; apply andb_true_iff in H; destruct H as [Hc Hw].
    rewrite (plain_not_space _ Hc).
    destruct (IH false Hw) as (f' & ->); exists f'; reflexivity.
Qed.

Lemma collapse_infix (w s : str) :
  forallb plain w = true -> infix w s -> infix w (collapse s).
Proof.
  intros Hw (a & b & ->); unfold collapse; generalize false.
  induction a as [|c a IH]; intros f; simpl.
  - destruct (collapse_go_plain w b f Hw) as (f' & ->).
    exists [], (collapse_go f' b); reflexivity.
  - destruct (isspace c); [destruct f|].
    + apply IH.
    + destruct (IH true) as (x & y & ->); exists (32%N :: x), y; reflexivity.
    + destruct (IH false) as (x & y & ->); exists (c :: x), y; reflexivity.
Qed.

(** A word of ASCII characters other than white space that occurs in a
    text occurs, uppercased, in the normalized text. *)
Lemma normalize_infix (w s : str) :
  forallb plain w = true -> w <> [] -> infix w s ->
  infix (upper w) (normalize s).
Proof.
  intros Hw Hne H; rewrite normalize_unfold.
  destruct s as [|c s].
  { destruct H as ([|? ?] & post & H); destruct w; try discriminate;
      contradiction. }
  destruct (upper_plain _ Hw) as [HW Hlen].
  assert (HWne : upper w <> []).
  { intros E; rewrite E in Hlen; destruct w; [contradiction | discriminate]. }
  apply collapse_infix; [exact HW|].
  apply strip_infix; [exact HW | exact HWne |].
  apply upper_infix, unify_dash_infix; [exact Hw|].
  apply nfkd_infix; assumption.
Qed.

(** C3: when the normalized concatenation of title, grade, contract type
    and category contains CONSULTANT or CONSULTANCY, [should_include]
    answers [false] whatever the grade.  The grade "P-4" is an included
    grade, and a record with that grade whose title contains "Consultant"
    is excluded. *)
Theorem should_include_consultant_veto
  (title grade contract_type category : str) :
  (infix (lit "CONSULTANT")
     (normalize (all_fields title grade contract_type category)) \/
   infix (lit "CONSULTANCY")
     (normalize (all_fields title grade contract_type category)) ->
   should_include title grade contract_type category = false) /\
  is_included_grade (normalize_grade (lit "P-4")) = true /\
  (infix (lit "Consultant") title ->
   should_include title (lit "P-4") contract_type category = false).
Proof.
  assert (Hveto : forall t g ct cat,
             infix (lit "CONSULTANT") (normalize (all_fields t g ct cat)) \/
             infix (lit "CONSULTANCY") (normalize (all_fields t g ct cat)) ->
             should_include t g ct cat = false).
  { intros t g ct cat H; unfold should_include.
    replace (contains_consultant (all_fields t g ct cat)) with true;
      [reflexivity|].
    symmetry; unfold contains_consultant; apply any_in_spec.
    destruct H as [H|H]; eexists; (split; [|exact H]);
      [left | right; left]; reflexivity. }
  split; [apply Hveto|].
  split; [vm_compute; reflexivity|].
  intros Htitle; apply Hveto; left.
  change (lit "CONSULTANT") with (upper (lit "Consultant")).
  apply normalize_infix; [reflexivity | discriminate |].
  destruct Htitle as (pre & post & ->).
  exists pre, (post ++ lit " " ++ lit "P-4" ++ lit " " ++ contract_type
                    ++ lit " " ++ category).
  unfold all_fields; rewrite <- !app_assoc; reflexivity.
Qed.

(* ------------------------------------------------------------------------- *)
(** ** Grade expansion *)

Lemma is_digit_decimal (d : char) : is_digit d = true -> isdecimal d = true.
Proof.
  unfold is_digit, isdecimal, is_ascii; intros H; rewrite H.
  apply andb_true_iff in H; destruct H as [_ H]; apply N.leb_le in H.
  replace (d <? 128)%N with true by (symmetry; apply N.ltb_lt; lia).
  reflexivity.
Qed.

Lemma is_digit_word (d : char) : is_digit d = true -> isword d = true.
Proof.
  unfold is_digit, isword, isalnum, is_ascii; intros H; rewrite H.
  apply andb_true_iff in H; destruct H as [_ H]; apply N.leb_le in H.
  replace (d <? 128)%N with true by (symmetry; apply N.ltb_lt; lia).
  reflexivity.
Qed.

Lemma many_to_end (p : char -> bool) (k : cont) (prev : option char)
  (s : str) (caps : captures) (res : captures * str) :
  forallb p s = true ->
  k (prev_after prev s) [] caps = Some res ->
  many p k prev s caps = Some res.
Proof.
  revert prev; induction s as [|c s IH]; intros prev Hall Hk; simpl.
  - exact Hk.
  - simpl in Hall; apply andb_true_iff in Hall; destruct Hall as [Hc Hs].
    rewrite Hc, (IH (Some c) Hs Hk); reflexivity.
Qed.

Lemma prev_after_digits (prev : option char) (d : char) (ds : str) :
  forallb is_digit (d :: ds) = true ->
  exists c, prev_after prev (d :: ds) = Some c /\ is_digit c = true.
Proof.
  unfold prev_after; simpl; intros H.
  apply andb_true_iff in H; destruct H as [Hd Hds].
  revert d Hd; induction ds as [|e ds IH]; intros d Hd; simpl.
  - exists d; auto.
  - simpl in Hds; apply andb_true_iff in Hds; destruct Hds as [He Hds].
    apply (IH Hds e He).
Qed.

(** The digits and the closing [\b] at the end of the text. *)
Lemma digits_tail_matches (prev : option char) (digits : str)
  (caps : captures) :
  digits <> [] -> forallb is_digit digits = true ->
  rmatch (Cat (Group 2 (Plus isdecimal)) Boundary) accept prev digits caps =
  Some ((2, digits) :: caps, []).
Proof.
  intros Hne Hall; destruct digits as [|d ds]; [contradiction|].
  cbn [rmatch].
  assert (Hd : is_digit d = true) by (simpl in Hall; apply andb_true_iff in Hall; tauto).
  rewrite (is_digit_decimal _ Hd).
  apply many_to_end.
  - simpl in Hall; apply andb_true_iff in Hall; destruct Hall as [_ Hall].
    rewrite forallb_forall in Hall |- *; intros c Hc.
    apply is_digit_decimal, Hall, Hc.
  - destruct (prev_after_digits prev d ds Hall) as (c & Hc & Hdc).
    change (prev_after (Some d) ds) with (prev_after prev (d :: ds)).
    rewrite Hc; unfold at_boundary; simpl word_before; simpl word_after.
    rewrite (is_digit_word _ Hdc); simpl.
    rewrite firstn_all; reflexivity.
Qed.

Lemma family_rejects_digit (k : cont) (prev : option char) (d : char)
  (s : str) (caps : captures) :
  is_digit d = true -> rmatch grade_family k prev (d :: s) caps = None.
Proof.
  unfold is_digit; intros H; apply andb_true_iff in H; destruct H as [H1 H2].
  apply N.leb_le in H1, H2.
  unfold grade_family; cbn [rmatch Str lit map list_ascii_of_string N_of_ascii].
  repeat match goal with
         | |- context [(d =? ?n)%N] =>
             replace (d =? n)%N with false
               by (symmetry; apply N.eqb_neq; cbn; lia)
         end.
  reflexivity.
Qed.

Lemma firstn_prefix_length (a b : str) :
  firstn (length (a ++ b) - length b) (a ++ b) = a.
Proof.
  rewrite length_app, Nat.add_sub, firstn_app, Nat.sub_diag, firstn_all.
  simpl; apply app_nil_r.
Qed.

(** Where a text starts with a grade family, the alternation matches
    exactly the family: the alternatives start with different letters. *)
Lemma family_matches (k : cont) (prev : option char) (family rest : str)
  (caps : captures) :
  In family GRADE_FAMILIES ->
  rmatch grade_family k prev (family ++ rest) caps =
  k (prev_after prev family) rest caps.
Proof.
  intros Hin; simpl in Hin.
  repeat (destruct Hin as [<-|Hin]; [cbn; destruct (k _ rest caps); reflexivity|]).
  contradiction.
Qed.

Lemma match_at_family (tail : regex) (prev : option char)
  (family rest : str) :
  In family GRADE_FAMILIES ->
  match_at (Cat Boundary (Cat (Group 1 grade_family) tail)) prev
    (family ++ rest) =
  if at_boundary prev (family ++ rest)
  then rmatch tail accept (prev_after prev family) rest [(1, family)]
  else None.
Proof.
  intros Hin; unfold match_at; cbn [rmatch].
  destruct (at_boundary prev (family ++ rest)); [|reflexivity].
  rewrite (family_matches _ prev rest [] Hin).
  rewrite firstn_prefix_length; reflexivity.
Qed.

Lemma match_at_digit (tail : regex) (prev : option char) (d : char)
  (s : str) :
  is_digit d = true ->
  match_at (Cat Boundary (Cat (Group 1 grade_family) tail)) prev (d :: s)
  = None.
Proof.
  intros Hd; unfold match_at; cbn [rmatch].
  destruct (at_boundary prev (d :: s)); [|reflexivity].
  apply family_rejects_digit; exact Hd.
Qed.

Lemma match_at_family_end (tail : regex) (prev : option char) :
  match_at (Cat Boundary (Cat (Group 1 grade_family) tail)) prev [] = None.
Proof.
  unfold match_at; cbn [rmatch]; destruct (at_boundary prev []); reflexivity.
Qed.

Lemma sub_scan_digits (tail : regex) (repl : template)
  (prev : option char) (digits : str) :
  forallb is_digit digits = true ->
  sub_scan (Cat Boundary (Cat (Group 1 grade_family) tail)) repl prev digits 0
  = digits.
Proof.
  revert prev; induction digits as [|d ds IH]; intros prev H.
  - cbn [sub_scan]; rewrite match_at_family_end; reflexivity.
  - simpl in H; apply andb_true_iff in H; destruct H as [Hd Hds].
    cbn [sub_scan]; rewrite match_at_digit by exact Hd.
    rewrite IH by exact Hds; reflexivity.
Qed.

Lemma sub_scan_skip_all (r : regex) (repl : template) (prev : option char)
  (s : str) :
  (forall prev', match_at r prev' [] = None) ->
  sub_scan r repl prev s (length s) = [].
Proof.
  intros Hend; revert prev; induction s as [|c s IH]; intros prev; simpl.
  - rewrite Hend; reflexivity.
  - apply IH.
Qed.

Lemma sub_scan_no_match (r : regex) (repl : template) (prev : option char)
  (c : char) (s : str) :
  match_at r prev (c :: s) = None ->
  sub_scan r repl prev (c :: s) 0 = c :: sub_scan r repl (Some c) s 0.
Proof. intros H; cbn [sub_scan]; rewrite H; reflexivity. Qed.

Lemma sub_scan_whole_match (r : regex) (repl : template)
  (prev : option char) (s : str) (caps : captures) :
  (forall prev', match_at r prev' [] = None) ->
  s <> [] -> match_at r prev s = Some (caps, []) ->
  sub_scan r repl prev s 0 = expand repl caps.
Proof.
  intros Hend Hne H; destruct s as [|c s]; [contradiction|].
  cbn [sub_scan]; rewrite H.
  cbn [length]; rewrite Nat.sub_0_r, sub_scan_skip_all by exact Hend.
  apply app_nil_r.
Qed.

Lemma family_no_match (tail : regex) (repl : template) (family rest : str) :
  In family GRADE_FAMILIES ->
  rmatch tail accept (prev_after None family) rest [(1, family)] = None ->
  sub_scan (Cat Boundary (Cat (Group 1 grade_family) tail)) repl None
    (family ++ rest) 0 =
  family ++ sub_scan (Cat Boundary (Cat (Group 1 grade_family) tail)) repl
              (prev_after None family) rest 0.
Proof.
  intros Hin Htail.
  pose proof (match_at_family tail None rest Hin) as Hhead.
  rewrite Htail in Hhead.
  assert (Hnone : match_at (Cat Boundary (Cat (Group 1 grade_family) tail))
                    None (family ++ rest) = None)
    by (rewrite Hhead; destruct (at_boundary None (family ++ rest)); reflexivity).
  clear Hhead Htail; simpl in Hin.
  repeat (destruct Hin as [<-|Hin];
          [ cbn [app lit map list_ascii_of_string N_of_ascii] in *;
            rewrite sub_scan_no_match by exact Hnone;
            repeat (rewrite sub_scan_no_match by reflexivity);
            reflexivity |]).
  contradiction.
Qed.

Lemma family_at_boundary (family rest : str) :
  In family GRADE_FAMILIES -> at_boundary None (family ++ rest) = true.
Proof.
  intros Hin; simpl in Hin.
  repeat (destruct Hin as [<-|Hin]; [reflexivity|]).
  contradiction.
Qed.

Lemma family_not_empty (family : str) :
  In family GRADE_FAMILIES -> family <> [].
Proof.
  intros Hin; simpl in Hin.
  repeat (destruct Hin as [<-|Hin]; [discriminate|]).
  contradiction.
Qed.

Section Expansion.

Variables (family digits : str).
Hypothesis family_known : In family GRADE_FAMILIES.
Hypothesis digits_not_empty : digits <> [].
Hypothesis digits_decimal : forallb is_digit digits = true.

Lemma expand_compact_compact :
  expand_compact_grade (family ++ digits) = family ++ lit "-" ++ digits.
Proof.
  unfold expand_compact_grade, re_sub, compact_grade.
  rewrite sub_scan_whole_match with (caps := [(2, digits); (1, family)]).
  - unfold expand, family_dash_digits; simpl; rewrite app_nil_r; reflexivity.
  - intros prev'; apply match_at_family_end.
  - intros E; apply app_eq_nil in E; destruct E as [E _].
    exact (family_not_empty family_known E).
  - rewrite match_at_family, family_at_boundary by exact family_known.
    apply digits_tail_matches; assumption.
Qed.

Lemma first_digit : exists d ds, digits = d :: ds /\ is_digit d = true.
Proof.
  destruct digits as [|d ds]; [contradiction|].
  exists d, ds; split; [reflexivity|].
  simpl in digits_decimal; apply andb_true_iff in digits_decimal; tauto.
Qed.

Lemma one_space_then (k : cont) (prev : option char) (caps : captures) :
  rmatch (Plus isspace) k prev (32%N :: digits) caps =
  k (Some 32%N) digits caps.
Proof.
  destruct first_digit as (d & ds & Hd & Hdigit).
  cbn [rmatch]; replace (isspace 32%N) with true by reflexivity.
  rewrite Hd; cbn [many]; rewrite (is_digit_not_space _ Hdigit); reflexivity.
Qed.

Lemma expand_spaced_spaced :
  expand_spaced_grade (family ++ 32%N :: digits) =
  family ++ lit "-" ++ digits.
Proof.
  unfold expand_spaced_grade, re_sub, spaced_grade.
  rewrite sub_scan_whole_match with (caps := [(2, digits); (1, family)]).
  - unfold expand, family_dash_digits; simpl; rewrite app_nil_r; reflexivity.
  - intros prev'; apply match_at_family_end.
  - intros E; apply app_eq_nil in E; destruct E as [E _].
    exact (family_not_empty family_known E).
  - rewrite match_at_family, family_at_boundary by exact family_known.
    change (rmatch (Cat (Plus isspace) ?R) accept ?p ?s ?c)
      with (rmatch (Plus isspace) (rmatch R accept) p s c).
    rewrite one_space_then.
    apply digits_tail_matches; assumption.
Qed.

(** A family that is already followed by a hyphen, or a space where the
    pattern wants none, is left alone. *)
Lemma expand_compact_separated (sep : char) :
  sep = 45%N \/ sep = 32%N ->
  expand_compact_grade (family ++ sep :: digits) = family ++ sep :: digits.
Proof.
  intros Hsep; unfold expand_compact_grade, re_sub, compact_grade.
  rewrite family_no_match by
    (trivial; destruct Hsep as [->| ->]; reflexivity).
  f_equal.
  rewrite sub_scan_no_match.
  - rewrite sub_scan_digits by exact digits_decimal; reflexivity.
  - pose proof family_known as Hin; simpl in Hin.
    destruct Hsep as [->| ->];
      repeat (destruct Hin as [<-|Hin]; [reflexivity|]); contradiction.
Qed.

Lemma expand_spaced_hyphenated :
  expand_spaced_grade (family ++ 45%N :: digits) = family ++ 45%N :: digits.
Proof.
  unfold expand_spaced_grade, re_sub, spaced_grade.
  rewrite family_no_match by (trivial; reflexivity).
  f_equal.
  rewrite sub_scan_no_match.
  - rewrite sub_scan_digits by exact digits_decimal; reflexivity.
  - pose proof family_known as Hin; simpl in Hin.
    repeat (destruct Hin as [<-|Hin]; [reflexivity|]); contradiction.
Qed.

End Expansion.

(* ------------------------------------------------------------------------- *)
(** ** Normalizing uppercase ASCII text *)

Lemma caseless_ascii (c : char) : caseless c = true -> is_ascii c = true.
Proof. unfold caseless; intros H; apply andb_true_iff in H; tauto. Qed.

Lemma fold_place_ascii (s : str) (acc : list char) :
  forallb is_ascii s = true -> fold_left place s acc = rev s ++ acc.
Proof.
  revert acc; induction s as [|c s IH]; intros acc H; simpl; [reflexivity|].
  apply andb_true_iff in H; destruct H as [Hc Hs].
  unfold place at 2, combining; rewrite Hc; simpl.
  rewrite IH by exact Hs; rewrite <- app_assoc; reflexivity.
Qed.

Lemma nfkd_ascii (s : str) : forallb is_ascii s = true -> nfkd s = s.
Proof.
  intros H; unfold nfkd, canonical_order.
  assert (Hdec : flat_map decomposition s = s).
  { induction s as [|c s IH]; simpl; [reflexivity|].
    simpl in H; apply andb_true_iff in H; destruct H as [Hc Hs].
    unfold decomposition at 1; rewrite Hc, IH by exact Hs; reflexivity. }
  rewrite Hdec, fold_place_ascii by exact H.
  rewrite app_nil_r; apply rev_involutive.
Qed.

Lemma unify_dash_ascii (s : str) :
  forallb is_ascii s = true -> map unify_dash s = s.
Proof.
  induction s as [|c s IH]; simpl; [reflexivity|].
  intros H; apply andb_true_iff in H; destruct H as [Hc Hs].
  rewrite IH by exact Hs; unfold unify_dash.
  rewrite (ascii_not_dash _ Hc); reflexivity.
Qed.

Lemma upper_caseless (s : str) : forallb caseless s = true -> upper s = s.
Proof.
  induction s as [|c s IH]; simpl; [reflexivity|].
  intros H; apply andb_true_iff in H; destruct H as [Hc Hs].
  fold (upper s); rewrite IH by exact Hs.
  unfold caseless in Hc; apply andb_true_iff in Hc; destruct Hc as [Ha Hl].
  apply negb_true_iff in Hl.
  unfold upper_char; rewrite Ha, Hl; reflexivity.
Qed.

Lemma normalize_caseless (s : str) :
  forallb caseless s = true -> normalize s = collapse (strip s).
Proof.
  intros H; rewrite normalize_unfold.
  destruct s as [|c s]; [reflexivity|].
  assert (Ha : forallb is_ascii (c :: s) = true).
  { rewrite forallb_forall in H |- *; intros x Hx.
    apply caseless_ascii, H, Hx. }
  rewrite nfkd_ascii, unify_dash_ascii, upper_caseless by assumption.
  reflexivity.
Qed.

Lemma collapse_go_nospace (w : str) (f : bool) :
  forallb (fun c => negb (isspace c)) w = true -> collapse_go f w = w.
Proof.
  revert f; induction w as [|c w IH]; intros f H; simpl; [reflexivity|].
  simpl in H; apply andb_true_iff in H; destruct H as [Hc Hw].
  apply negb_true_iff in Hc; rewrite Hc, IH by exact Hw; reflexivity.
Qed.

Lemma collapse_go_nospace_app (w b : str) (f : bool) :
  forallb (fun c => negb (isspace c)) w = true -> w <> [] ->
  collapse_go f (w ++ b) = w ++ collapse_go false b.
Proof.
  intros H Hne; destruct w as [|c w]; [contradiction|].
  simpl in H |- *; apply andb_true_iff in H; destruct H as [Hc Hw].
  apply negb_true_iff in Hc; rewrite Hc; f_equal.
  clear c Hc Hne; induction w as [|c w IH]; simpl; [reflexivity|].
  simpl in Hw; apply andb_true_iff in Hw; destruct Hw as [Hc Hw].
  apply negb_true_iff in Hc; rewrite Hc, IH by exact Hw; reflexivity.
Qed.

Lemma collapse_go_spaces (sps b : str) :
  forallb isspace sps = true ->
  collapse_go true (sps ++ b) = collapse_go true b.
Proof.
  induction sps as [|c sps IH]; simpl; [reflexivity|].
  intros H; apply andb_true_iff in H; destruct H as [Hc Hs].
  rewrite Hc; apply IH; exact Hs.
Qed.

Lemma is_digit_caseless (c : char) : is_digit c = true -> caseless c = true.
Proof.
  unfold is_digit, caseless, is_ascii; intros H.
  apply andb_true_iff in H; destruct H as [H1 H2]; apply N.leb_le in H1, H2.
  apply andb_true_iff; split; [apply N.ltb_lt; lia|].
  apply negb_true_iff, andb_false_iff; left; apply N.leb_gt; lia.
Qed.

Lemma ascii_space_caseless (c : char) :
  ascii_space c = true -> caseless c = true.
Proof.
  unfold ascii_space, caseless, isspace; intros H.
  apply andb_true_iff in H; destruct H as [Ha Hs]; rewrite Ha in *.
  simpl; apply negb_true_iff, andb_false_iff.
  apply orb_true_iff in Hs; destruct Hs as [Hs|Hs];
    apply andb_true_iff in Hs; destruct Hs as [H1 H2];
    apply N.leb_le in H1, H2; left; apply N.leb_gt; lia.
Qed.

Section GradeSpellings.

Variables (family digits : str).
Hypothesis family_known : In family GRADE_FAMILIES.
Hypothesis digits_not_empty : digits <> [].
Hypothesis digits_decimal : forallb is_digit digits = true.

Lemma family_caseless : forallb caseless family = true.
Proof.
  pose proof family_known as Hin; simpl in Hin.
  repeat (destruct Hin as [<-|Hin]; [reflexivity|]); contradiction.
Qed.

Lemma family_nospace : forallb (fun c => negb (isspace c)) family = true.
Proof.
  pose proof family_known as Hin; simpl in Hin.
  repeat (destruct Hin as [<-|Hin]; [reflexivity|]); contradiction.
Qed.

Lemma digits_nospace : forallb (fun c => negb (isspace c)) digits = true.
Proof.
  rewrite forallb_forall in digits_decimal |- *; intros c Hc.
  apply negb_true_iff, is_digit_not_space, digits_decimal, Hc.
Qed.

(** Between the family and the digits: nothing, white space, or a hyphen. *)
Lemma normalize_family_digits (mid : str) :
  forallb caseless mid = true ->
  normalize (family ++ mid ++ digits) =
  family ++ collapse (mid ++ digits).
Proof.
  intros Hmid; rewrite normalize_caseless.
  - assert (Hfam : exists c fs, family = c :: fs).
    { pose proof (family_not_empty family_known) as Hne.
      destruct family as [|c fs]; [contradiction | eauto]. }
    destruct Hfam as (c & fs & Hf).
    destruct (exists_last digits_not_empty) as (ds & d & Hd).
    assert (Hc : isspace c = false).
    { pose proof family_nospace as H; rewrite Hf in H; simpl in H.
      apply andb_true_iff in H; destruct H as [H _].
      apply negb_true_iff in H; exact H. }
    assert (Hdl : isspace d = false).
    { apply is_digit_not_space.
      rewrite forallb_forall in digits_decimal; apply digits_decimal.
      rewrite Hd; apply in_or_app; right; left; reflexivity. }
    replace (family ++ mid ++ digits) with (c :: (fs ++ mid ++ ds) ++ [d])
      by (rewrite Hf, Hd, <- !app_assoc; reflexivity).
    rewrite strip_fixed by assumption.
    replace (c :: (fs ++ mid ++ ds) ++ [d]) with (family ++ mid ++ digits)
      by (rewrite Hf, Hd, <- !app_assoc; reflexivity).
    unfold collapse.
    apply collapse_go_nospace_app;
      [apply family_nospace | apply (family_not_empty family_known)].
  - rewrite !forallb_app, family_caseless, Hmid; simpl.
    rewrite forallb_forall in digits_decimal |- *; intros c Hc.
    apply is_digit_caseless, digits_decimal, Hc.
Qed.

Lemma normalize_compact : normalize (family ++ digits) = family ++ digits.
Proof.
  transitivity (family ++ collapse ([] ++ digits));
    [exact (normalize_family_digits [] eq_refl)|]; simpl.
  unfold collapse; rewrite collapse_go_nospace by apply digits_nospace.
  reflexivity.
Qed.

Lemma normalize_hyphenated :
  normalize (family ++ 45%N :: digits) = family ++ 45%N :: digits.
Proof.
  transitivity (family ++ collapse ([45%N] ++ digits));
    [exact (normalize_family_digits [45%N] eq_refl)|].
  unfold collapse; rewrite collapse_go_nospace; [reflexivity|].
  simpl; apply digits_nospace.
Qed.

Lemma normalize_spaced (spaces : str) :
  spaces <> [] -> forallb ascii_space spaces = true ->
  normalize (family ++ spaces ++ digits) = family ++ 32%N :: digits.
Proof.
  intros Hne Hsp; rewrite normalize_family_digits.
  - destruct spaces as [|c sps]; [contradiction|].
    simpl in Hsp; apply andb_true_iff in Hsp; destruct Hsp as [Hc Hsps].
    unfold ascii_space in Hc; apply andb_true_iff in Hc; destruct Hc as [_ Hc].
    unfold collapse; simpl; rewrite Hc.
    rewrite collapse_go_spaces.
    + rewrite collapse_go_nospace by apply digits_nospace; reflexivity.
    + rewrite forallb_forall in Hsps |- *; intros x Hx.
      specialize (Hsps x Hx); unfold ascii_space in Hsps.
      apply andb_true_iff in Hsps; tauto.
  - rewrite forallb_forall in Hsp |- *; intros x Hx.
    apply ascii_space_caseless, Hsp, Hx.
Qed.


End GradeSpellings.

(* ------------------------------------------------------------------------- *)
(** ** Canonical ordering *)

Lemma ordered_from_weaken (k k' : N) (s : str) :
  (k' <= k)%N -> ordered_from k s = true -> ordered_from k' s = true.
Proof.
  intros Hk; destruct s as [|c s]; simpl; [reflexivity|].
  rewrite !andb_true_iff, !orb_true_iff, !N.leb_le.
  intros [[H|H] Hs]; split; trivial; [left; exact H | right; lia].
Qed.

Lemma ordered_from_snoc (k : N) (s : str) (c : char) :
  ordered_from k (s ++ [c]) =
  ordered_from k s &&
  ((combining c =? 0)%N
   || (fold_left (fun _ x => combining x) s k <=? combining c)%N).
Proof.
  revert k; induction s as [|a s IH]; intros k; simpl.
  - rewrite andb_true_r; reflexivity.
  - rewrite IH, andb_assoc; reflexivity.
Qed.

Lemma class_of_top_rev (acc : list char) :
  fold_left (fun _ x => combining x) (rev acc) 0%N = class_of_top acc.
Proof.
  destruct acc as [|p rest]; [reflexivity|].
  simpl; rewrite fold_left_app; reflexivity.
Qed.

Lemma rev_ordered_spec (acc : list char) :
  rev_ordered acc = ordered_from 0 (rev acc).
Proof.
  induction acc as [|p rest IH]; [reflexivity|].
  simpl; rewrite ordered_from_snoc, class_of_top_rev, IH.
  apply andb_comm.
Qed.

Lemma place_ordered_char (acc : list char) (c : char) :
  ((combining c =? 0)%N || (class_of_top acc <=? combining c)%N) = true ->
  place acc c = c :: acc.
Proof.
  intros H; unfold place.
  destruct (combining c =? 0)%N eqn:E; [reflexivity|].
  simpl in H; destruct acc as [|p rest]; [reflexivity|].
  simpl in H |- *; rewrite H, orb_true_r; reflexivity.
Qed.

Lemma fold_place_ordered (s : str) (acc : list char) :
  ordered_from (class_of_top acc) s = true ->
  fold_left place s acc = rev s ++ acc.
Proof.
  revert acc; induction s as [|c s IH]; intros acc H; [reflexivity|].
  simpl in H; apply andb_true_iff in H; destruct H as [Hc Hs].
  simpl; rewrite (place_ordered_char _ _ Hc), IH by exact Hs.
  rewrite <- app_assoc; reflexivity.
Qed.

(** A text in canonical order is left as it is. *)
Lemma canonical_order_fixed (s : str) :
  ordered_from 0 s = true -> canonical_order s = s.
Proof.
  intros H; unfold canonical_order.
  rewrite fold_place_ordered by exact H.
  rewrite app_nil_r; apply rev_involutive.
Qed.

Lemma insert_mark_ordered (c : char) (acc : list char) :
  rev_ordered acc = true ->
  rev_ordered (insert_mark c acc) = true /\
  (class_of_top (insert_mark c acc) = combining c \/
   (class_of_top (insert_mark c acc) = class_of_top acc /\
    (combining c < class_of_top acc)%N)).
Proof.
  induction acc as [|p rest IH]; intros H.
  - split; [|left; reflexivity].
    cbn [insert_mark rev_ordered class_of_top]; rewrite andb_true_r.
    apply orb_true_iff; right; apply N.leb_le; lia.
  - simpl in H; apply andb_true_iff in H; destruct H as [Hp Hrest].
    cbn [insert_mark].
    destruct ((combining p =? 0)%N || (combining p <=? combining c)%N) eqn:E.
    + split; [|left; reflexivity].
      cbn [rev_ordered class_of_top]; rewrite Hp, Hrest, !andb_true_r.
      apply orb_true_iff in E; apply orb_true_iff; right; apply N.leb_le.
      destruct E as [E|E]; [apply N.eqb_eq in E; lia | apply N.leb_le, E].
    + apply orb_false_iff in E; destruct E as [E0 E1].
      apply N.leb_gt in E1; rewrite E0 in Hp; simpl in Hp; apply N.leb_le in Hp.
      destruct (IH Hrest) as [Hord Htop].
      split; [|right; split; [reflexivity | exact E1]].
      cbn [rev_ordered]; rewrite Hord, andb_true_r.
      apply orb_true_iff; right; apply N.leb_le.
      destruct Htop as [-> |[-> _]]; lia.
Qed.

Lemma place_rev_ordered (acc : list char) (c : char) :
  rev_ordered acc = true -> rev_ordered (place acc c) = true.
Proof.
  intros H; unfold place; destruct (combining c =? 0)%N eqn:E.
  - simpl; rewrite E, H; reflexivity.
  - apply insert_mark_ordered; exact H.
Qed.

(** The result of the canonical ordering is in canonical order. *)
Lemma canonical_order_ordered (s : str) :
  ordered_from 0 (canonical_order s) = true.
Proof.
  unfold canonical_order; rewrite <- rev_ordered_spec.
  apply fold_left_invariant; [reflexivity|].
  intros acc c; apply place_rev_ordered.
Qed.

Lemma insert_mark_In (c x : char) (acc : list char) :
  In x (insert_mark c acc) -> x = c \/ In x acc.
Proof.
  induction acc as [|p rest IH]; simpl.
  - intros [<-|[]]; auto.
  - destruct ((combining p =? 0)%N || (combining p <=? combining c)%N); simpl.
    + intros [<-|[<-|H]]; auto.
    + intros [<-|H]; auto. destruct (IH H); auto.
Qed.

Lemma canonical_order_In (s : str) (x : char) :
  In x (canonical_order s) -> In x s.
Proof.
  unfold canonical_order; rewrite <- in_rev.
  assert (H : forall acc, In x (fold_left place s acc) -> In x s \/ In x acc).
  { induction s as [|c s IH]; intros acc; simpl; [auto|].
    intros Hx; apply IH in Hx; destruct Hx as [Hx|Hx]; [auto|].
    unfold place in Hx; destruct (combining c =? 0)%N.
    - destruct Hx as [<-|Hx]; auto.
    - apply insert_mark_In in Hx; destruct Hx as [<-|Hx]; auto. }
  intros Hx; destruct (H [] Hx) as [Hs|[]]; exact Hs.
Qed.

(* ------------------------------------------------------------------------- *)
(** ** White space after [strip] and the collapse *)

Lemma collapse_single_spaced (s : str) (f : bool) :
  single_spaced f (collapse_go f s) = true.
Proof.
  revert f; induction s as [|c s IH]; intros f; simpl; [reflexivity|].
  destruct (isspace c) eqn:E.
  - destruct f; [apply IH|].
    cbn [single_spaced]; replace (isspace 32%N) with true by reflexivity.
    rewrite IH; reflexivity.
  - cbn [single_spaced]; rewrite E; apply IH.
Qed.

Lemma single_spaced_collapse (s : str) (f : bool) :
  single_spaced f s = true -> collapse_go f s = s.
Proof.
  revert f; induction s as [|c s IH]; intros f; simpl; [reflexivity|].
  destruct (isspace c) eqn:E.
  - rewrite !andb_true_iff, N.eqb_eq, negb_true_iff.
    intros [[-> ->] H]; rewrite (IH true H); reflexivity.
  - intros H; rewrite (IH false H); reflexivity.
Qed.

Lemma collapse_idempotent (s : str) : collapse (collapse s) = collapse s.
Proof. apply single_spaced_collapse, collapse_single_spaced. Qed.

Lemma lstrip_strip (s : str) : lstrip (strip s) = strip s.
Proof.
  unfold strip.
  destruct (lstrip_head s) as [->|(c & t & -> & Hc)]; [reflexivity|].
  rewrite rstrip_cons_nonspace by exact Hc.
  apply lstrip_nonspace; exact Hc.
Qed.

Lemma rstrip_strip (s : str) : rstrip (strip s) = strip s.
Proof. unfold strip; apply rstrip_idempotent. Qed.

Lemma lstrip_fixed_head (s : str) :
  lstrip s = s -> s = [] \/ exists c t, s = c :: t /\ isspace c = false.
Proof.
  intros H; destruct (lstrip_head s) as [E|(c & t & E & Hc)];
    rewrite H in E; [left; exact E | right; exists c, t; auto].
Qed.

Lemma rstrip_fixed_last (s : str) :
  rstrip s = s -> s = [] \/ exists t d, s = t ++ [d] /\ isspace d = false.
Proof.
  unfold rstrip; intros H.
  assert (Hrev : lstrip (rev s) = rev s)
    by (rewrite <- H at 2; rewrite rev_involutive; reflexivity).
  destruct (lstrip_fixed_head Hrev) as [E|(d & t & E & Hd)].
  - left; apply (f_equal (@rev _)) in E; rewrite rev_involutive in E; exact E.
  - right; exists (rev t), d; split; [|exact Hd].
    apply (f_equal (@rev _)) in E; rewrite rev_involutive in E; exact E.
Qed.

Lemma rstrip_last_nonspace (t : str) (d : char) :
  isspace d = false -> rstrip (t ++ [d]) = t ++ [d].
Proof.
  intros Hd; unfold rstrip; rewrite rev_app_distr; simpl.
  rewrite Hd; simpl; rewrite rev_involutive; reflexivity.
Qed.

Lemma collapse_go_app (a b : str) (f : bool) :
  exists f', collapse_go f (a ++ b) = collapse_go f a ++ collapse_go f' b.
Proof.
  revert f; induction a as [|c a IH]; intros f; simpl.
  - exists f; reflexivity.
  - destruct (isspace c); [destruct f|].
    + apply IH.
    + destruct (IH true) as (f' & ->); exists f'; reflexivity.
    + destruct (IH false) as (f' & ->); exists f'; reflexivity.
Qed.

(** The result of [strip] followed by the collapse has no white space at
    either end and only single spaces inside: both steps leave it as it
    is. *)
Lemma strip_collapse_strip (s : str) :
  strip (collapse (strip s)) = collapse (strip s).
Proof.
  set (y := strip s).
  assert (Hl : lstrip (collapse y) = collapse y).
  { destruct (lstrip_fixed_head (lstrip_strip s)) as [E|(c & t & E & Hc)];
      fold y in E; rewrite E; [reflexivity|].
    unfold collapse; simpl; rewrite Hc; apply lstrip_nonspace; exact Hc. }
  assert (Hr : rstrip (collapse y) = collapse y).
  { destruct (rstrip_fixed_last (rstrip_strip s)) as [E|(t & d & E & Hd)];
      fold y in E; rewrite E; [reflexivity|].
    unfold collapse; destruct (collapse_go_app t [d] false) as (f' & ->).
    simpl; rewrite Hd; apply rstrip_last_nonspace; exact Hd. }
  unfold strip at 1; rewrite Hl; exact Hr.
Qed.

(* ------------------------------------------------------------------------- *)
(** ** What the steps of [normalize] keep *)

Lemma lstrip_suffix (s : str) : exists a, s = a ++ lstrip s.
Proof.
  induction s as [|c s (a & IH)]; simpl; [exists []; reflexivity|].
  destruct (isspace c).
  - exists (c :: a); simpl; rewrite <- IH; reflexivity.
  - exists []; reflexivity.
Qed.

Lemma strip_infix_of (s : str) : exists a b, s = a ++ strip s ++ b.
Proof.
  unfold strip, rstrip.
  destruct (lstrip_suffix s) as (a & Ha).
  destruct (lstrip_suffix (rev (lstrip s))) as (b & Hb).
  exists a, (rev b).
  rewrite <- rev_app_distr, <- Hb, rev_involutive; exact Ha.
Qed.

Lemma ordered_from_app (k : N) (a b : str) :
  ordered_from k (a ++ b) = true ->
  ordered_from k a = true /\ ordered_from 0 b = true.
Proof.
  revert k; induction a as [|c a IH]; intros k; simpl.
  - intros H; split; [reflexivity|].
    apply ordered_from_weaken with k; [lia | exact H].
  - rewrite !andb_true_iff; intros [Hc H].
    destruct (IH _ H); tauto.
Qed.

Lemma strip_ordered (s : str) :
  ordered_from 0 s = true -> ordered_from 0 (strip s) = true.
Proof.
  destruct (strip_infix_of s) as (a & b & Hs); intros H.
  rewrite Hs in H; apply ordered_from_app in H; destruct H as [_ H].
  apply ordered_from_app in H; apply H.
Qed.

Lemma strip_In (s : str) (c : char) : In c (strip s) -> In c s.
Proof.
  destruct (strip_infix_of s) as (a & b & Hs); intros H.
  rewrite Hs; apply in_or_app; right; apply in_or_app; left; exact H.
Qed.

Lemma collapse_go_ordered (s : str) :
  forall k, ordered_from k s = true ->
            ordered_from k (collapse_go false s) = true /\
            ordered_from 0 (collapse_go true s) = true.
Proof.
  induction s as [|c s IH]; intros k; simpl; [auto|].
  rewrite andb_true_iff; intros [Hc Hs].
  destruct (IH _ Hs) as [IHf IHt].
  destruct (isspace c); cbn [ordered_from].
  - replace (combining 32%N) with 0%N by reflexivity.
    split; [exact IHt | exact IHt].
  - rewrite Hc, IHf; split; [reflexivity|].
    apply andb_true_iff; split; [|reflexivity].
    apply orb_true_iff; right; apply N.leb_le; lia.
Qed.

Lemma collapse_go_In (s : str) (f : bool) (c : char) :
  In c (collapse_go f s) -> c = 32%N \/ In c s.
Proof.
  revert f; induction s as [|a s IH]; intros f; simpl; [tauto|].
  destruct (isspace a); [destruct f|]; simpl.
  - intros H; destruct (IH _ H); auto.
  - intros [<-|H]; [auto|]. destruct (IH _ H); auto.
  - intros [<-|H]; [auto|]. destruct (IH _ H); auto.
Qed.

Lemma unify_dash_ordered (s : str) (k : N) :
  ordered_from k s = true -> ordered_from k (map unify_dash s) = true.
Proof.
  revert k; induction s as [|c s IH]; intros k; simpl; [reflexivity|].
  rewrite andb_true_iff; intros [Hc Hs].
  destruct (is_dash c) eqn:E.
  - assert (Hu : unify_dash c = 45%N)
      by (unfold unify_dash; rewrite E; reflexivity).
    rewrite Hu; replace (combining 45%N) with 0%N by reflexivity; simpl.
    apply IH, ordered_from_weaken with (combining c);
      [apply N.le_0_l | exact Hs].
  - assert (Hu : unify_dash c = c)
      by (unfold unify_dash; rewrite E; reflexivity).
    rewrite Hu, Hc; apply IH; exact Hs.
Qed.

Lemma ordered_from_starters (k : N) (us rest : str) :
  us <> [] -> (forall u, In u us -> combining u = 0%N) ->
  ordered_from k (us ++ rest) = ordered_from 0 rest.
Proof.
  intros Hne Hus; revert k; induction us as [|u us IH]; intros k;
    [contradiction|].
  simpl; rewrite (Hus u (or_introl eq_refl)); simpl.
  destruct us as [|u' us']; [reflexivity|].
  apply IH; [discriminate | intros x Hx; apply Hus; right; exact Hx].
Qed.

(* ------------------------------------------------------------------------- *)
(** ** [normalize] is idempotent *)

Section Idempotence.

Hypothesis tables : consistent_tables.

Lemma nfkd_stable (s : str) (c : char) : In c (nfkd s) -> stable c.
Proof.
  unfold nfkd; intros H; apply canonical_order_In, in_flat_map in H.
  destruct H as (x & _ & H); exact (@decomposition_full tables x c H).
Qed.

Lemma upper_ordered (s : str) (k : N) :
  (forall c, In c s -> stable c) ->
  ordered_from k s = true -> ordered_from k (upper s) = true.
Proof.
  revert k; induction s as [|c s IH]; intros k Hst; [reflexivity|].
  cbn [ordered_from upper flat_map]; fold (upper s).
  rewrite andb_true_iff; intros [Hc Hs].
  assert (Hrest : forall k', (k' <= combining c)%N ->
                             ordered_from k' (upper s) = true).
  { intros k' Hk; apply IH; [intros x Hx; apply Hst; right; exact Hx|].
    apply ordered_from_weaken with (combining c); assumption. }
  destruct (@upper_class tables c (Hst c (or_introl eq_refl)))
    as [(u & -> & Hu)|[Hne Hus]].
  - cbn [app ordered_from]; rewrite Hu, Hc; apply Hrest; lia.
  - rewrite (ordered_from_starters k (upper s) Hne Hus).
    apply Hrest, N.le_0_l.
Qed.

Lemma upper_settled (s : str) (u : char) :
  (forall c, In c s -> stable c /\ is_dash c = false) ->
  In u (upper s) -> settled u.
Proof.
  intros Hs Hu; unfold upper in Hu; apply in_flat_map in Hu.
  destruct Hu as (c & Hc & Hu); destruct (Hs c Hc) as [Hst Hd].
  split; [|split].
  - exact (@upper_stable tables c u Hst Hu).
  - exact (@upper_no_dash tables c u Hst Hd Hu).
  - exact (@upper_fixed tables c u Hst Hu).
Qed.

Lemma unify_dash_clean (s : str) (c : char) :
  (forall x, In x s -> stable x) ->
  In c (map unify_dash s) -> stable c /\ is_dash c = false.
Proof.
  intros Hs Hc; apply in_map_iff in Hc; destruct Hc as (x & <- & Hx).
  unfold unify_dash; destruct (is_dash x) eqn:E.
  - split; reflexivity.
  - split; [apply Hs; exact Hx | exact E].
Qed.

Lemma settled_space : settled 32%N.
Proof. repeat split. Qed.

(** The normalized text consists of settled characters in canonical
    order. *)
Lemma normalize_settled (s : str) :
  (forall c, In c (normalize s) -> settled c) /\
  ordered_from 0 (normalize s) = true.
Proof.
  rewrite normalize_unfold; destruct s as [|a s]; [split; [intros c []|reflexivity]|].
  set (n1 := nfkd (a :: s)).
  set (n2 := map unify_dash n1).
  set (n3 := upper n2).
  assert (H2 : forall c, In c n2 -> stable c /\ is_dash c = false).
  { intros c Hc; apply (unify_dash_clean n1); [|exact Hc].
    intros x Hx; apply (nfkd_stable (a :: s)); exact Hx. }
  assert (O3 : ordered_from 0 n3 = true).
  { apply upper_ordered; [intros c Hc; apply H2; exact Hc|].
    apply unify_dash_ordered, canonical_order_ordered. }
  split.
  - intros c Hc; apply collapse_go_In in Hc; destruct Hc as [->|Hc].
    + apply settled_space.
    + apply strip_In in Hc; apply (upper_settled n2); assumption.
  - apply collapse_go_ordered, strip_ordered; exact O3.
Qed.

(** C7: [normalize] is idempotent.  The character database is taken to be
    consistent in the sense of [consistent_tables]: decompositions are
    full, and uppercasing a decomposed character gives decomposed
    characters that are their own uppercase, are not dashes, and either
    keep the combining class or are starters. *)
Theorem normalize_idempotent (s : str) :
  normalize (normalize s) = normalize s.
Proof.
  destruct (normalize_settled s) as [Hchars Hord].
  assert (Hws : strip (normalize s) = normalize s /\
                collapse (normalize s) = normalize s).
  { rewrite normalize_unfold; destruct s as [|a s]; [split; reflexivity|].
    split; [apply strip_collapse_strip | apply collapse_idempotent]. }
  destruct Hws as [Hstrip Hcollapse].
  set (t := normalize s) in *.
  rewrite normalize_unfold; destruct t as [|b t'] eqn:Ht; [reflexivity|].
  rewrite <- Ht in *.
  assert (Hdec : flat_map decomposition t = t).
  { clear - Hchars; induction t as [|c t IH]; [reflexivity|].
    simpl; rewrite IH by (intros x Hx; apply Hchars; right; exact Hx).
    destruct (Hchars c (or_introl eq_refl)) as [-> _]; reflexivity. }
  assert (Hdash : map unify_dash t = t).
  { clear - Hchars; induction t as [|c t IH]; [reflexivity|].
    simpl; rewrite IH by (intros x Hx; apply Hchars; right; exact Hx).
    destruct (Hchars c (or_introl eq_refl)) as (_ & Hd & _).
    unfold unify_dash; rewrite Hd; reflexivity. }
  assert (Hup : upper t = t).
  { clear - Hchars; induction t as [|c t IH]; [reflexivity|].
    simpl; fold (upper t).
    rewrite IH by (intros x Hx; apply Hchars; right; exact Hx).
    destruct (Hchars c (or_introl eq_refl)) as (_ & _ & ->); reflexivity. }
  unfold nfkd; rewrite Hdec, (canonical_order_fixed _ Hord).
  rewrite Hdash, Hup, Hstrip; exact Hcollapse.
Qed.

End Idempotence.

(** On ASCII text nothing of the character database is consulted, and the
    idempotence holds for every table. *)
Lemma upper_ascii_caseless (s : str) :
  forallb is_ascii s = true -> forallb caseless (upper s) = true.
Proof.
  induction s as [|c s IH]; simpl; [reflexivity|].
  intros H; apply andb_true_iff in H; destruct H as [Hc Hs].
  fold (upper s); rewrite forallb_app, (IH Hs), andb_true_r.
  unfold upper_char, caseless; rewrite Hc.
  pose proof Hc as A; unfold is_ascii in A; apply N.ltb_lt in A.
  destruct ((97 <=? c)%N && (c <=? 122)%N) eqn:L; simpl.
  - apply andb_true_iff in L; destruct L as [L1 L2]; apply N.leb_le in L1, L2.
    rewrite andb_true_r; apply andb_true_iff; split.
    + apply N.ltb_lt; lia.
    + apply negb_true_iff, andb_false_iff; left; apply N.leb_gt; lia.
  - rewrite Hc, L; reflexivity.
Qed.

Lemma normalize_idempotent_ascii (s : str) :
  forallb is_ascii s = true -> normalize (normalize s) = normalize s.
Proof.
  intros Hs.
  assert (Hn : normalize s = collapse (strip (upper s))).
  { rewrite normalize_unfold; destruct s as [|c s]; [reflexivity|].
    rewrite nfkd_ascii, unify_dash_ascii by exact Hs; reflexivity. }
  rewrite Hn, normalize_caseless.
  - rewrite strip_collapse_strip; apply collapse_idempotent.
  - pose proof (upper_ascii_caseless s Hs) as Hup.
    rewrite forallb_forall in Hup |- *; intros c Hc.
    apply collapse_go_In in Hc; destruct Hc as [->|Hc]; [reflexivity|].
    apply Hup, strip_In, Hc.
Qed.
(* ------------------------------------------------------------------------- *)
(** ** What the page loop returns *)

Lemma firstn_full A (n : nat) (l r : list A) :
  n <= length (firstn n l) -> firstn n (l ++ r) = firstn n l.
Proof.
  intros H; rewrite length_firstn in H.
  rewrite firstn_app.
  replace (n - length l) with 0 by lia.
  simpl; apply app_nil_r.
Qed.

Lemma firstn_short A (n : nat) (l : list A) :
  length (firstn n l) < n -> firstn n l = l.
Proof.
  intros H; rewrite length_firstn in H.
  apply firstn_all2; lia.
Qed.

Lemma firstn_member A (n : nat) (l : list A) (x : A) :
  In x (firstn n l) -> In x l.
Proof.
  intros H; rewrite <- (firstn_skipn n l); apply in_or_app; left; exact H.
Qed.

Lemma classify_jobs_spec (all_jobs included : list job) :
  length included <= MAX_INCLUDED ->
  classify_jobs included all_jobs =
  firstn MAX_INCLUDED (included ++ filter includable all_jobs).
Proof.
  revert included; induction all_jobs as [|j rest IH]; intros included Hlen;
    cbn [classify_jobs filter].
  - rewrite app_nil_r, firstn_all2 by exact Hlen; reflexivity.
  - destruct (MAX_INCLUDED <=? length included) eqn:Hcap.
    + apply Nat.leb_le in Hcap.
      rewrite firstn_app, firstn_all2 by exact Hlen.
      replace (MAX_INCLUDED - length included) with 0 by lia.
      simpl; rewrite app_nil_r; reflexivity.
    + apply Nat.leb_gt in Hcap.
      fold (includable j); destruct (includable j).
      * rewrite IH by (rewrite length_app; simpl; lia).
        rewrite <- app_assoc; reflexivity.
      * apply IH; exact Hlen.
Qed.

Lemma scrape_loop_spec (pages : list page) (included : list job) :
  length included <= MAX_INCLUDED ->
  scrape_loop pages included =
  firstn MAX_INCLUDED
    (included ++
     flat_map (fun p => filter includable (page_jobs p)) (reached pages)).
Proof.
  revert included; induction pages as [|p rest IH]; intros included Hlen;
    cbn [scrape_loop reached].
  - rewrite app_nil_r, firstn_all2 by exact Hlen.
    destruct (length included <? MAX_INCLUDED); reflexivity.
  - destruct (length included <? MAX_INCLUDED) eqn:Hcap.
    + fold (page_jobs p).
      destruct (page_jobs p) as [|j0 js] eqn:Hp.
      * cbn [flat_map]; rewrite app_nil_r, firstn_all2 by exact Hlen.
        reflexivity.
      * rewrite <- Hp; cbn [flat_map].
        set (found := filter includable (page_jobs p)).
        rewrite (@classify_jobs_spec (page_jobs p) included Hlen); fold found.
        destruct (MAX_INCLUDED <=? length (firstn MAX_INCLUDED (included ++ found)))
          eqn:Hfull.
        -- apply Nat.leb_le in Hfull.
           rewrite app_assoc; symmetry; apply firstn_full; exact Hfull.
        -- apply Nat.leb_gt in Hfull.
           pose proof (@firstn_short _ _ _ Hfull) as Hall; rewrite Hall in *.
           destruct (has_next p).
           ++ rewrite IH by lia; rewrite <- app_assoc; reflexivity.
           ++ cbn [flat_map]; rewrite app_nil_r; symmetry; exact Hall.
    + apply Nat.ltb_ge in Hcap.
      rewrite firstn_app, firstn_all2 by exact Hlen.
      replace (MAX_INCLUDED - length included) with 0 by lia.
      simpl; rewrite app_nil_r; reflexivity.
Qed.

(** X1: [scrape_jobs] returns the first fifty of the postings that the
    classifier accepts among the merged candidates of the pages it reaches,
    page after page and within a page in the order of the merge; a run
    reaches the pages up to the first one without candidates (not
    included) or without a next link (included). *)
Theorem scrape_jobs_first_fifty_accepted (pages : list page) :
  scrape_jobs pages =
  firstn 50
    (flat_map (fun p => filter includable (page_jobs p)) (reached pages)).
Proof.
  unfold scrape_jobs; rewrite scrape_loop_spec by (simpl; lia); reflexivity.
Qed.

Lemma reached_In (pages : list page) (p : page) :
  In p (reached pages) -> In p pages /\ page_jobs p <> [].
Proof.
  induction pages as [|q rest IH]; cbn [reached]; [intros []|].
  destruct (page_jobs q) eqn:Hq; [intros []|].
  intros [<-|Hin].
  - split; [left; reflexivity | congruence].
  - destruct (has_next q); [|destruct Hin].
    destruct (IH Hin); split; [right|]; assumption.
Qed.

(** X2: every posting that [scrape_jobs] returns was accepted by
    [should_include], and it is a candidate that one of the three
    strategies found on one of the pages: the loop adds nothing of its own
    and lets no rejected candidate through. *)
Theorem scrape_jobs_only_accepted_candidates (pages : list page) (j : job) :
  In j (scrape_jobs pages) ->
  should_include (title j) (grade j) (contract_type j) (category j) = true /\
  exists p, In p pages /\
            (In j (jobs_a p) \/ In j (jobs_b p) \/ In j (jobs_c p)).
Proof.
  unfold scrape_jobs; rewrite scrape_loop_spec by (simpl; lia).
  intros Hin; apply firstn_member in Hin; simpl in Hin.
  apply in_flat_map in Hin; destruct Hin as (p & Hp & Hj).
  apply filter_In in Hj; destruct Hj as [Hj Hok].
  split; [exact Hok|].
  exists p; split; [apply (@reached_In pages p Hp)|].
  unfold page_jobs, merge_jobs in Hj; rewrite merge_jobs_concat in Hj.
  destruct (merged_all (concat [jobs_a p; jobs_b p; jobs_c p])) as [_ Hall].
  apply in_map_iff in Hj; destruct Hj as (e & <- & He).
  rewrite Forall_forall in Hall; destruct (Hall _ He) as (_ & pre & post & Hf & _).
  assert (Hc : In (snd e) (filter (same_link (snd e))
                             (concat [jobs_a p; jobs_b p; jobs_c p]))).
  { rewrite Hf; apply in_or_app; right; left; reflexivity. }
  apply filter_In in Hc; destruct Hc as [Hc _].
  simpl in Hc; rewrite app_nil_r in Hc.
  apply in_app_or in Hc; destruct Hc as [Hc|Hc]; [auto|].
  apply in_app_or in Hc; tauto.
Qed.
(* ------------------------------------------------------------------------- *)
(** ** More on the merge *)

Lemma merge_step_fresh (l : list job) (d : dict job) :
  NoDup (dict_keys d ++ map link l) ->
  fold_left merge_step l d = d ++ map (fun j => (link j, j)) l.
Proof.
  revert d; induction l as [|j l IH]; intros d Hnd; cbn [fold_left map].
  - rewrite app_nil_r; reflexivity.
  - assert (Hfresh : ~ In (link j) (dict_keys d)).
    { intros Hin; apply NoDup_remove_2 in Hnd; apply Hnd.
      apply in_or_app; left; exact Hin. }
    unfold merge_step at 2.
    rewrite (proj2 (dict_get_None d (link j)) Hfresh).
    rewrite dict_set_absent by exact Hfresh.
    rewrite IH.
    + rewrite <- app_assoc; reflexivity.
    + unfold dict_keys in *; rewrite map_app, <- app_assoc; exact Hnd.
Qed.

Lemma merge_jobs_links_distinct (lists : list (list job)) :
  NoDup (map link (merge_jobs lists)).
Proof.
  unfold merge_jobs; rewrite merge_jobs_concat.
  destruct (merged_all (concat lists)) as [Hkeys Hall].
  replace (map link (dict_values (fold_left merge_step (concat lists) [])))
    with (dict_keys (fold_left merge_step (concat lists) [])).
  - rewrite Hkeys; apply first_seen_NoDup.
  - unfold dict_values, dict_keys; rewrite map_map.
    apply map_ext_in; intros e He.
    rewrite Forall_forall in Hall; symmetry; apply (Hall _ He).
Qed.

Lemma merge_jobs_best (lists : list (list job)) (j : job) :
  In j (merge_jobs lists) ->
  In j (concat lists) /\
  forall c, In c (concat lists) -> link c = link j -> filled c <= filled j.
Proof.
  unfold merge_jobs; rewrite merge_jobs_concat.
  destruct (merged_all (concat lists)) as [_ Hall].
  intros Hj; apply in_map_iff in Hj; destruct Hj as (e & <- & He).
  rewrite Forall_forall in Hall.
  destruct (Hall _ He) as (_ & pre & post & Hf & Hpre & Hpost).
  assert (Hmem : forall c, In c (concat lists) -> link c = link (snd e) ->
                           In c (pre ++ snd e :: post)).
  { intros c Hc Hl; rewrite <- Hf; apply filter_In; split; [exact Hc|].
    apply str_eqb_eq; exact Hl. }
  split.
  - assert (H : In (snd e) (filter (same_link (snd e)) (concat lists))).
    { rewrite Hf; apply in_or_app; right; left; reflexivity. }
    apply filter_In in H; tauto.
  - intros c Hc Hl; apply (Hmem c Hc) in Hl.
    apply in_app_or in Hl; destruct Hl as [Hl|[<-|Hl]].
    + apply Nat.lt_le_incl, Hpre, Hl.
    + apply Nat.le_refl.
    + apply Hpost, Hl.
Qed.

(** X3: candidates whose links are all different pass through
    [merge_jobs] unchanged: the result is the lists one after the other. *)
Theorem merge_jobs_distinct_links_unchanged (lists : list (list job)) :
  NoDup (map link (concat lists)) -> merge_jobs lists = concat lists.
Proof.
  intros Hnd; unfold merge_jobs; rewrite merge_jobs_concat.
  rewrite merge_step_fresh by exact Hnd.
  unfold dict_values; simpl; rewrite map_map; apply map_id.
Qed.

(** X4: merging is idempotent: a merged list given to [merge_jobs] again
    comes back as it is. *)
Theorem merge_jobs_idempotent (lists : list (list job)) :
  merge_jobs [merge_jobs lists] = merge_jobs lists.
Proof.
  set (once := merge_jobs lists).
  unfold merge_jobs at 1; rewrite merge_jobs_concat.
  simpl concat; rewrite app_nil_r.
  rewrite merge_step_fresh by apply merge_jobs_links_distinct.
  unfold dict_values; simpl; rewrite map_map; apply map_id.
Qed.

(** X5: the completeness score that a link ends up with does not depend on
    the order in which the strategies are merged, nor on how often a
    candidate is met: two merges over the same set of candidates keep the
    same links, and for every link candidates with the same number of
    filled fields.  (Which of several equally complete candidates is kept
    does depend on the order.) *)
Theorem merge_jobs_score_order_independent (lists1 lists2 : list (list job)) :
  (forall c, In c (concat lists1) <-> In c (concat lists2)) ->
  (forall k, In k (map link (merge_jobs lists1)) <->
             In k (map link (merge_jobs lists2))) /\
  (forall j1 j2, In j1 (merge_jobs lists1) -> In j2 (merge_jobs lists2) ->
                 link j1 = link j2 -> filled j1 = filled j2).
Proof.
  intros Hsame; split.
  - assert (Hlinks : forall lists k,
              In k (map link (merge_jobs lists)) <->
              In k (map link (concat lists))).
    { intros lists k; unfold merge_jobs; rewrite merge_jobs_concat.
      destruct (merged_all (concat lists)) as [Hkeys Hall].
      replace (map link (dict_values (fold_left merge_step (concat lists) [])))
        with (dict_keys (fold_left merge_step (concat lists) [])).
      - rewrite Hkeys; apply first_seen_In.
      - unfold dict_values, dict_keys; rewrite map_map.
        apply map_ext_in; intros e He.
        rewrite Forall_forall in Hall; symmetry; apply (Hall _ He). }
    intros k; rewrite !Hlinks, !in_map_iff.
    split; intros (c & Hk & Hc); exists c; split; trivial; apply Hsame, Hc.
  - intros j1 j2 H1 H2 Hl.
    destruct (merge_jobs_best _ _ H1) as [Hin1 Hmax1].
    destruct (merge_jobs_best _ _ H2) as [Hin2 Hmax2].
    apply Nat.le_antisymm.
    + apply Hmax2; [apply Hsame; exact Hin1 | exact Hl].
    + apply Hmax1; [apply Hsame; exact Hin2 | symmetry; exact Hl].
Qed.
(* ------------------------------------------------------------------------- *)
(** ** What is loaded from a feed file *)

Lemma dict_get_set_same V (d : dict V) (k : str) (v : V) :
  dict_get (dict_set d k v) k = Some v.
Proof.
  induction d as [|[k' v'] d IH]; simpl.
  - rewrite str_eqb_refl; reflexivity.
  - destruct (str_eqb k' k) eqn:E; simpl; rewrite E; [reflexivity | exact IH].
Qed.

Lemma dict_get_set_other V (d : dict V) (k k' : str) (v : V) :
  k <> k' -> dict_get (dict_set d k v) k' = dict_get d k'.
Proof.
  intros Hne; induction d as [|[k0 v0] d IH]; simpl.
  - rewrite (proj2 (str_eqb_neq k k') Hne); reflexivity.
  - destruct (str_eqb k0 k) eqn:E; simpl.
    + apply str_eqb_eq in E; subst k0.
      rewrite (proj2 (str_eqb_neq k k') Hne); reflexivity.
    + destruct (str_eqb k0 k'); [reflexivity | exact IH].
Qed.

Lemma load_item_key (existing : dict feed_item) (item : element) :
  load_item existing item =
  match item_key item with
  | Some k => dict_set existing k (item_entry item k)
  | None => existing
  end.
Proof.
  unfold load_item, item_key.
  destruct (find item (lit "link")) as [link_el|]; [|reflexivity].
  destruct (text link_el) as [[|c x]|]; reflexivity.
Qed.

Lemma load_items_spec (items : list element) :
  dict_keys (fold_left load_item items []) = first_seen (item_keys items) /\
  forall k,
    dict_get (fold_left load_item items []) k =
    option_map (fun item => item_entry item k)
      (List.find (filed_under k) (rev items)).
Proof.
  induction items as [|x items [IHk IHg]] using rev_ind.
  - split; [reflexivity | intros k; reflexivity].
  - rewrite fold_left_app, rev_app_distr; cbn [fold_left rev app List.find].
    unfold item_keys in *; rewrite flat_map_app; cbn [flat_map].
    rewrite load_item_key.
    destruct (item_key x) as [kx|] eqn:Hx.
    + split.
      * rewrite dict_keys_set, app_nil_r, first_seen_snoc, IHk.
        fold (item_keys items).
        destruct (in_dec str_dec kx (first_seen (item_keys items))) as [Hin|Hout];
          destruct (in_dec str_dec kx (item_keys items)) as [Hin'|Hout'];
          trivial.
        -- exfalso; apply Hout'; exact (proj1 (first_seen_In _ _) Hin).
        -- exfalso; apply Hout; exact (proj2 (first_seen_In _ _) Hin').
      * intros k.
        replace (filed_under k x) with (str_eqb kx k)
          by (unfold filed_under; rewrite Hx; reflexivity).
        destruct (str_eqb kx k) eqn:E.
        -- apply str_eqb_eq in E; subst k.
           apply dict_get_set_same.
        -- apply str_eqb_neq in E.
           rewrite dict_get_set_other by exact E; apply IHg.
    + rewrite !app_nil_r; split; [exact IHk|].
      intros k.
      replace (filed_under k x) with false
        by (unfold filed_under; rewrite Hx; reflexivity).
      apply IHg.
Qed.

(** X6: from a feed file with a channel, [load_existing_feed] takes the
    item elements that have a non-empty link text.  The dict has one
    entry per distinct stripped link, at the place where the link occurs
    first in the file, and when a link occurs in several items the entry
    holds the texts of the last of them. *)
Theorem load_existing_feed_first_place_last_texts
  (root channel : element) (k : str) :
  find root (lit "channel") = Some channel ->
  dict_keys (load_existing_feed (Parsed root)) =
    first_seen (item_keys (findall channel (lit "item"))) /\
  dict_get (load_existing_feed (Parsed root)) k =
    option_map (fun item => item_entry item k)
      (List.find (filed_under k) (rev (findall channel (lit "item")))).
Proof.
  intros Hch; cbn [load_existing_feed]; rewrite Hch.
  destruct (load_items_spec (findall channel (lit "item"))) as [Hk Hg].
  split; [exact Hk | apply Hg].
Qed.

(** X7: whatever the file, the entries that [load_existing_feed] returns
    have distinct keys, each entry is filed under its own link, and none of
    its five texts has white space around it. *)
Theorem load_existing_feed_entries_clean (file : feed_file) :
  NoDup (dict_keys (load_existing_feed file)) /\
  forall k d, In (k, d) (load_existing_feed file) ->
    fi_link d = k /\
    strip (fi_title d) = fi_title d /\
    strip (fi_link d) = fi_link d /\
    strip (fi_description d) = fi_description d /\
    strip (fi_guid d) = fi_guid d /\
    strip (fi_pubDate d) = fi_pubDate d.
Proof.
  destruct (load_existing_feed_loaded file) as [Hnd Hall].
  split; [exact Hnd|].
  intros k d Hin; rewrite Forall_forall in Hall.
  destruct (Hall _ Hin) as [Hk Hs]; simpl in Hk, Hs.
  unfold stripped_item in Hs.
  split; [exact Hk|].
  repeat split.
  - exact (f_equal fi_title Hs).
  - exact (f_equal fi_link Hs).
  - exact (f_equal fi_description Hs).
  - exact (f_equal fi_guid Hs).
  - exact (f_equal fi_pubDate Hs).
Qed.
(* ------------------------------------------------------------------------- *)
(** ** When the feed tree is built, and what a run adds *)

Lemma generate_numeric_id_None (l : str) :
  encodable l = false -> generate_numeric_id l = None.
Proof.
  unfold encodable, generate_numeric_id.
  destruct (encode l); [discriminate | reflexivity].
Qed.

Lemma add_existing_items_fails (items : dict feed_item) (channel : element) :
  forallb encodable (dict_keys items) = false ->
  add_existing_items channel items = None.
Proof.
  revert channel; induction items as [|[k data] items IH]; intros channel;
    cbn [dict_keys map fst forallb add_existing_items]; [discriminate|].
  destruct (encodable k) eqn:E.
  - rewrite (encodable_guid _ E); intros H; apply IH; exact H.
  - rewrite (generate_numeric_id_None _ E); reflexivity.
Qed.

Lemma add_new_items_fails (now : str) (jobs : list job) (channel : element) :
  forallb (fun j => encodable (link j)) jobs = false ->
  add_new_items now channel jobs = None.
Proof.
  revert channel; induction jobs as [|j jobs IH]; intros channel;
    cbn [forallb add_new_items]; [discriminate|].
  destruct (encodable (link j)) eqn:E.
  - rewrite (encodable_guid _ E); intros H; apply IH; exact H.
  - rewrite (generate_numeric_id_None _ E); reflexivity.
Qed.

Lemma forallb_false A (f : A -> bool) (l : list A) :
  forallb f l = false -> exists x, In x l /\ f x = false.
Proof.
  induction l as [|a l IH]; simpl; [discriminate|].
  destruct (f a) eqn:E; simpl.
  - intros H; destruct (IH H) as (x & Hx & Hf); exists x; auto.
  - intros _; exists a; auto.
Qed.

(** The two outcomes of [generate_rss]. *)
Lemma generate_rss_cases (file : feed_file) (now : str) (new_jobs : list job) :
  let existing := load_existing_feed file in
  let truly_new := truly_new_of existing new_jobs in
  if forallb encodable (dict_keys existing)
     && forallb (fun j => encodable (link j)) truly_new
  then exists rss,
         generate_rss file now new_jobs = Some rss /\
         find rss (lit "channel") =
           Some (append_children (channel_head now)
                   (map element_of_item
                      (dict_values existing ++ map (new_item now) truly_new)))
         /\ feed_items rss = dict_values existing ++ map (new_item now) truly_new
  else generate_rss file now new_jobs = None.
Proof.
  intros existing truly_new; unfold generate_rss.
  fold existing; fold truly_new.
  destruct (forallb encodable (dict_keys existing)) eqn:Hex; cbn [andb].
  - rewrite add_existing_items_spec by exact Hex.
    destruct (forallb (fun j => encodable (link j)) truly_new) eqn:Hnew.
    + rewrite add_new_items_spec by exact Hnew.
      rewrite append_children_app, <- (map_map (new_item now) element_of_item).
      rewrite <- map_app.
      eexists; split; [reflexivity|].
      split; [reflexivity | apply feed_items_built].
    + rewrite add_new_items_fails by exact Hnew; reflexivity.
  - rewrite add_existing_items_fails by exact Hex; reflexivity.
Qed.

Lemma scrape_jobs_accepted (pages : list page) (j : job) :
  In j (scrape_jobs pages) -> includable j = true.
Proof.
  unfold scrape_jobs; rewrite scrape_loop_spec by (simpl; lia).
  intros Hin; apply firstn_member in Hin; simpl in Hin.
  apply in_flat_map in Hin; destruct Hin as (p & _ & Hj).
  apply filter_In in Hj; tauto.
Qed.

Lemma filter_length A (f : A -> bool) (l : list A) :
  length (filter f l) <= length l.
Proof.
  induction l as [|a l IH]; simpl; [lia|].
  destruct (f a); simpl; lia.
Qed.

(** X9: a run of the script that writes the feed keeps every loaded item,
    in the loaded order, and appends at most fifty items; each of them
    stands for a posting that [should_include] accepted and whose link was
    not in the loaded feed. *)
Theorem main_appends_at_most_fifty (pages : list page) (file : feed_file)
  (now : str) (rss : element) :
  main pages file now = Some rss ->
  exists added,
    feed_items rss =
      dict_values (load_existing_feed file) ++ map (new_item now) added /\
    length added <= 50 /\
    forall j, In j added ->
      should_include (title j) (grade j) (contract_type j) (category j) = true
      /\ ~ In (link j) (dict_keys (load_existing_feed file)).
Proof.
  unfold main; intros Hrun.
  pose proof (generate_rss_cases file now (scrape_jobs pages)) as H.
  cbn zeta in H.
  destruct (forallb encodable _ && forallb _ _).
  - destruct H as (rss' & Hrss & _ & Hitems).
    rewrite Hrun in Hrss; injection Hrss as <-.
    exists (truly_new_of (load_existing_feed file) (scrape_jobs pages)).
    split; [exact Hitems|]; split.
    + apply Nat.le_trans with (length (scrape_jobs pages)).
      * apply filter_length.
      * apply scrape_loop_cap; simpl; lia.
    + intros j Hj; apply truly_new_In in Hj; destruct Hj as [Hj Hout].
      split; [exact (scrape_jobs_accepted _ _ Hj) | exact Hout].
  - rewrite Hrun in H; discriminate.
Qed.
(* ------------------------------------------------------------------------- *)
(** ** The built description, and loading items with distinct links *)

Lemma ends_with_dot (s a b : str) :
  (exists t, s = 85%N :: t ++ [46%N]) ->
  exists t, s ++ a ++ b ++ [46%N] = 85%N :: t ++ [46%N].
Proof.
  intros (t & ->); exists (t ++ [46%N] ++ a ++ b).
  cbn [app]; rewrite <- !app_assoc; cbn [app]; rewrite <- !app_assoc.
  reflexivity.
Qed.

Lemma build_description_shape (j : job) :
  exists t, build_description j = 85%N :: t ++ [46%N].
Proof.
  unfold build_description.
  change (lit ".") with [46%N].
  assert (H0 : exists t,
             lit "UNFPA has a vacancy for the position of " ++ title j
             ++ lit ". Location: " ++ location j ++ [46%N]
             = 85%N :: t ++ [46%N]).
  { exists (lit "NFPA has a vacancy for the position of " ++ title j
            ++ lit ". Location: " ++ location j).
    change (lit "UNFPA has a vacancy for the position of ")
      with (85%N :: lit "NFPA has a vacancy for the position of ").
    simpl app; rewrite <- !app_assoc; reflexivity. }
  set (d0 := lit "UNFPA has a vacancy for the position of " ++ _) in *.
  assert (H1 : exists t,
             (if truthy (grade j)
              then d0 ++ lit " Grade: " ++ grade j ++ [46%N] else d0)
             = 85%N :: t ++ [46%N])
    by (destruct (truthy (grade j)); [apply ends_with_dot|]; exact H0).
  set (d1 := if truthy (grade j) then _ else _) in *.
  assert (H2 : exists t,
             (if truthy (contract_type j)
              then d1 ++ lit " Contract type: " ++ contract_type j ++ [46%N]
              else d1)
             = 85%N :: t ++ [46%N])
    by (destruct (truthy (contract_type j)); [apply ends_with_dot|]; exact H1).
  set (d2 := if truthy (contract_type j) then _ else _) in *.
  destruct (truthy (closing_date j)); [apply ends_with_dot|]; exact H2.
Qed.

Lemma build_description_stripped (j : job) :
  strip (build_description j) = build_description j.
Proof.
  destruct (build_description_shape j) as (t & ->).
  apply strip_fixed; reflexivity.
Qed.

Lemma reload_fresh (items : list feed_item) (acc : dict feed_item) :
  (forall d, In d items -> stripped d = d /\ truthy (fi_link d) = true) ->
  NoDup (dict_keys acc ++ map fi_link items) ->
  fold_left reload_item items acc = acc ++ map entry_of items.
Proof.
  revert acc; induction items as [|d items IH]; intros acc Hall Hnd;
    cbn [fold_left map].
  - rewrite app_nil_r; reflexivity.
  - destruct (Hall d (or_introl eq_refl)) as [Hs Ht].
    assert (Hfresh : ~ In (fi_link d) (dict_keys acc)).
    { intros Hin; apply NoDup_remove_2 in Hnd; apply Hnd.
      apply in_or_app; left; exact Hin. }
    assert (Hl : strip (fi_link d) = fi_link d)
      by exact (f_equal fi_link Hs).
    unfold reload_item at 2; rewrite Ht, Hs, Hl.
    rewrite dict_set_absent by exact Hfresh.
    rewrite IH.
    + rewrite <- app_assoc; reflexivity.
    + intros d' Hd'; apply Hall; right; exact Hd'.
    + unfold dict_keys in *; rewrite map_app, <- app_assoc; exact Hnd.
Qed.

Lemma entry_of_keys (items : list feed_item) :
  dict_keys (map entry_of items) = map fi_link items.
Proof. unfold dict_keys; rewrite map_map; reflexivity. Qed.

Lemma entry_of_values (items : list feed_item) :
  dict_values (map entry_of items) = items.
Proof. unfold dict_values; rewrite map_map; apply map_id. Qed.

(* ------------------------------------------------------------------------- *)
(** ** The shape of a normalized text *)

(** X12: whatever the character tables, a normalized text has no white
    space at its ends, its white space consists of single spaces, and the
    last substitution of [normalize] leaves it as it is. *)
Theorem normalize_result_tidy (s : str) :
  strip (normalize s) = normalize s /\
  re_sub (Plus isspace) [inl (lit " ")] (normalize s) = normalize s /\
  single_spaced false (normalize s) = true.
Proof.
  rewrite re_sub_space, normalize_unfold.
  destruct s as [|c s]; [repeat split; reflexivity|].
  split; [apply strip_collapse_strip|].
  split; [apply collapse_idempotent | apply collapse_single_spaced].
Qed.

Lemma lstrip_spaces_app (a b : str) :
  forallb isspace a = true -> lstrip (a ++ b) = lstrip b.
Proof.
  induction a as [|c a IH]; simpl; [reflexivity|].
  intros H; apply andb_true_iff in H; destruct H as [Hc Ha].
  rewrite Hc; apply IH; exact Ha.
Qed.

Lemma forallb_rev A (f : A -> bool) (l : list A) :
  forallb f l = true -> forallb f (rev l) = true.
Proof.
  rewrite !forallb_forall; intros H x Hx; apply H, in_rev; exact Hx.
Qed.

Lemma strip_trailing_spaces (w sp : str) :
  forallb isspace sp = true -> strip (w ++ sp) = strip w.
Proof.
  intros Hsp; induction w as [|c w IH].
  - unfold strip; simpl app.
    rewrite <- (app_nil_r sp), lstrip_spaces_app by exact Hsp; reflexivity.
  - unfold strip in *; cbn [app lstrip].
    destruct (isspace c) eqn:E; [exact IH|].
    unfold rstrip; f_equal.
    change (c :: w ++ sp) with ((c :: w) ++ sp).
    rewrite rev_app_distr.
    apply lstrip_spaces_app, forallb_rev; exact Hsp.
Qed.

Lemma decomposition_ascii (s : str) :
  forallb is_ascii s = true -> flat_map decomposition s = s.
Proof.
  induction s as [|c s IH]; simpl; [reflexivity|].
  intros H; apply andb_true_iff in H; destruct H as [Hc Hs].
  unfold decomposition at 1; rewrite Hc, IH by exact Hs; reflexivity.
Qed.

Lemma nfkd_ascii_tail (x sp : str) :
  forallb is_ascii sp = true -> nfkd (x ++ sp) = nfkd x ++ sp.
Proof.
  intros H; unfold nfkd, canonical_order.
  rewrite flat_map_app, (@decomposition_ascii sp H).
  rewrite fold_left_app, (@fold_place_ascii sp _ H).
  rewrite rev_app_distr, rev_involutive; reflexivity.
Qed.

Lemma ascii_space_parts (sp : str) :
  forallb ascii_space sp = true ->
  forallb is_ascii sp = true /\ forallb isspace sp = true /\
  forallb caseless sp = true.
Proof.
  intros H; rewrite !forallb_forall; rewrite forallb_forall in H.
  repeat split; intros c Hc; pose proof (H c Hc) as Hs.
  - unfold ascii_space in Hs; apply andb_true_iff in Hs; tauto.
  - unfold ascii_space in Hs; apply andb_true_iff in Hs; tauto.
  - apply ascii_space_caseless; exact Hs.
Qed.

Lemma normalize_trailing_spaces (t sp : str) :
  forallb ascii_space sp = true -> normalize (t ++ sp) = normalize t.
Proof.
  intros H; destruct (ascii_space_parts _ H) as (Ha & Hs & Hc).
  rewrite !normalize_unfold.
  destruct t as [|c t].
  - simpl app; destruct sp as [|a sp]; [reflexivity|].
    rewrite (@nfkd_ascii (a :: sp) Ha), (@unify_dash_ascii (a :: sp) Ha).
    rewrite (@upper_caseless (a :: sp) Hc).
    rewrite <- (app_nil_l (a :: sp)), (@strip_trailing_spaces [] _ Hs).
    reflexivity.
  - change ((c :: t) ++ sp) with (c :: t ++ sp).
    change (c :: t ++ sp) with ((c :: t) ++ sp).
    rewrite (@nfkd_ascii_tail (c :: t) sp Ha), map_app.
    rewrite (@unify_dash_ascii sp Ha).
    unfold upper at 1; rewrite flat_map_app; fold (upper sp).
    fold (upper (map unify_dash (nfkd (c :: t)))).
    rewrite (@upper_caseless sp Hc).
    rewrite (@strip_trailing_spaces _ sp Hs); reflexivity.
Qed.

(* ------------------------------------------------------------------------- *)
(** ** The classifier on particular postings *)

(** X13: a candidate that has only a title (what the anchor scan
    [strategy_b] produces: grade, contract type and category empty) is
    included exactly when its title has an internship keyword and no
    consultant keyword. *)
Theorem should_include_bare_title (title : str) :
  should_include title [] [] [] =
  negb (contains_consultant title) && contains_intern title.
Proof.
  unfold should_include.
  change (all_fields title [] [] []) with (title ++ [32; 32; 32]%N).
  replace (contains_consultant (title ++ [32; 32; 32]%N))
    with (contains_consultant title)
    by (unfold contains_consultant;
        rewrite normalize_trailing_spaces by reflexivity; reflexivity).
  replace (is_excluded_grade (normalize_grade [])) with false
    by (vm_compute; reflexivity).
  replace (is_included_grade (normalize_grade [])) with false
    by (vm_compute; reflexivity).
  replace (contains_intern []) with false by (vm_compute; reflexivity).
  destruct (contains_consultant title), (contains_intern title); reflexivity.
Qed.

Lemma contains_intern_infix (w x : str) :
  forallb plain w = true -> In (upper w) INTERN_KEYWORDS -> infix w x ->
  contains_intern x = true.
Proof.
  intros Hw Hkw Hin; unfold contains_intern; apply any_in_spec.
  exists (upper w); split; [exact Hkw|].
  apply normalize_infix; trivial.
  intros ->; simpl in Hkw.
  repeat (destruct Hkw as [Hkw|Hkw]; [discriminate Hkw|]); exact Hkw.
Qed.

(** X14: the internship keywords are looked for as substrings of the
    normalized fields, in any letter case and also inside a longer word:
    when the title, the grade, the contract type or the category contains
    an ASCII word that uppercases to INTERN, FELLOWSHIP or FELLOW (for
    instance "International"), the posting is included, unless a
    consultant keyword or an excluded grade rejects it first. *)
Theorem should_include_keyword_inside_word
  (w title grade contract_type category : str) :
  forallb plain w = true -> In (upper w) INTERN_KEYWORDS ->
  infix w title \/ infix w grade \/ infix w contract_type \/
    infix w category ->
  contains_consultant (all_fields title grade contract_type category) = false ->
  is_excluded_grade (normalize_grade grade) = false ->
  should_include title grade contract_type category = true.
Proof.
  intros Hw Hkw Hin Hcons Hexc; unfold should_include.
  rewrite Hcons; cbv zeta; rewrite Hexc.
  destruct (is_included_grade _); [reflexivity|].
  destruct Hin as [H|[H|[H|H]]];
    rewrite (@contains_intern_infix w _ Hw Hkw H);
    rewrite ?orb_true_r; try reflexivity.
  destruct (_ || _); reflexivity.
Qed.
(* ------------------------------------------------------------------------- *)
(** ** Grades in their three spellings *)

Lemma normalize_grade_spelled (family digits raw : str) :
  In family GRADE_FAMILIES -> digits <> [] ->
  forallb is_digit digits = true -> spelled family digits raw ->
  normalize_grade raw = family ++ 45%N :: digits.
Proof.
  intros Hf Hne Hd [->|[->|(spaces & Hs & Hsp & ->)]]; unfold normalize_grade.
  - rewrite (@normalize_compact family digits Hf Hne Hd).
    rewrite (@expand_compact_compact family digits Hf Hne Hd).
    apply expand_spaced_hyphenated; assumption.
  - change (family ++ lit "-" ++ digits) with (family ++ 45%N :: digits).
    rewrite (@normalize_hyphenated family digits Hf Hne Hd).
    rewrite expand_compact_separated by (auto; assumption).
    apply expand_spaced_hyphenated; assumption.
  - rewrite (@normalize_spaced family digits Hf Hne Hd spaces Hs Hsp).
    rewrite expand_compact_separated by (auto; assumption).
    apply expand_spaced_spaced; assumption.
Qed.

Lemma infix_head (k : char) (kw g : str) : infix (k :: kw) g -> In k g.
Proof.
  intros (pre & post & ->); apply in_or_app; right; left; reflexivity.
Qed.

(** An excluded grade has one of the letters G, S, L, N. *)
Lemma is_excluded_grade_initial (g : str) :
  is_excluded_grade g = true ->
  exists c, In c g /\ In c excluded_initials.
Proof.
  intros H; apply is_excluded_grade_spec in H.
  assert (Hkw : exists kw,
             In kw (EXCLUDED_GRADE_PREFIXES ++ EXCLUDED_NO_GRADES) /\
             infix kw g).
  { destruct H as [(prefix & Hin & Hs)|(no & Hin & Hinf)].
    - exists prefix; split; [apply in_or_app; left; exact Hin|].
      apply contains_infix, search_token_contains; exact Hs.
    - exists no; split; [apply in_or_app; right; exact Hin | exact Hinf]. }
  destruct Hkw as (kw & Hin & Hinf); simpl in Hin.
  repeat (destruct Hin as [<-|Hin];
          [eexists; split; [apply (@infix_head _ _ _ Hinf) | simpl; auto 10]|]).
  contradiction.
Qed.

Lemma digit_not_initial (c : char) :
  is_digit c = true -> ~ In c excluded_initials.
Proof.
  intros Hd Hin; simpl in Hin.
  repeat (destruct Hin as [<-|Hin]; [discriminate Hd|]); exact Hin.
Qed.

Lemma rmatch_Str_app (p : str) (k : cont) (prev : option char) (rest : str)
  (caps : captures) :
  rmatch (Str p) k prev (p ++ rest) caps = k (prev_after prev p) rest caps.
Proof.
  revert prev; induction p as [|c p IH]; intros prev; [reflexivity|].
  cbn [Str rmatch app]; rewrite N.eqb_refl; apply IH.
Qed.

Lemma digits_to_end (prev : option char) (digits : str) (caps : captures) :
  digits <> [] -> forallb is_digit digits = true ->
  rmatch (Cat (Plus isdecimal) Boundary) accept prev digits caps =
  Some (caps, []).
Proof.
  intros Hne Hall; destruct digits as [|d ds]; [contradiction|].
  cbn [rmatch].
  assert (Hd : is_digit d = true)
    by (simpl in Hall; apply andb_true_iff in Hall; tauto).
  rewrite (@is_digit_decimal d Hd).
  apply many_to_end.
  - simpl in Hall; apply andb_true_iff in Hall; destruct Hall as [_ Hall].
    rewrite forallb_forall in Hall |- *; intros c Hc.
    apply is_digit_decimal, Hall, Hc.
  - destruct (prev_after_digits prev d ds Hall) as (c & Hc & Hdc).
    change (prev_after (Some d) ds) with (prev_after prev (d :: ds)).
    rewrite Hc; unfold at_boundary; simpl word_before; simpl word_after.
    rewrite (@is_digit_word c Hdc); reflexivity.
Qed.

Lemma search_from_here (r : regex) (prev : option char) (s : str)
  (res : captures * str) :
  match_at r prev s = Some res -> search_from r prev s = true.
Proof. intros H; destruct s; simpl; rewrite H; reflexivity. Qed.

(** X15: a grade of family P or D whose number starts with a digit that
    makes an included grade (P-1 to P-5, D-1, D-2) is included in its
    compact, hyphenated and spaced spellings alike, whatever digits follow
    (P-4, and also P-41 or D-10: the included grades are looked for as
    substrings), provided no field has a consultant keyword. *)
Theorem should_include_professional_grade
  (family : str) (d : char) (ds raw title contract_type category : str) :
  In family GRADE_FAMILIES ->
  In (family ++ lit "-" ++ [d]) INCLUDED_GRADES ->
  forallb is_digit ds = true ->
  spelled family (d :: ds) raw ->
  contains_consultant (all_fields title raw contract_type category) = false ->
  should_include title raw contract_type category = true.
Proof.
  intros Hf Hg Hds Hraw Hcons.
  assert (Hd : is_digit d = true /\
               (family = lit "P" \/ family = lit "D")).
  { simpl in Hf.
    repeat (destruct Hf as [<-|Hf];
            [vm_compute in Hg;
             repeat (destruct Hg as [Hg|Hg];
                     [first [discriminate Hg
                            | injection Hg as <-;
                              split; [reflexivity|];
                              first [left; reflexivity | right; reflexivity]]
                     |]);
             contradiction|]).
    contradiction. }
  destruct Hd as [Hd Hfam].
  assert (Hall : forallb is_digit (d :: ds) = true)
    by (simpl; rewrite Hd, Hds; reflexivity).
  unfold should_include; rewrite Hcons; cbv zeta.
  assert (Hne : d :: ds <> []) by discriminate.
  rewrite (@normalize_grade_spelled family (d :: ds) raw Hf Hne Hall Hraw).
  replace (is_excluded_grade (family ++ 45%N :: d :: ds)) with false.
  - replace (is_included_grade (family ++ 45%N :: d :: ds)) with true;
      [reflexivity|].
    symmetry; unfold is_included_grade; apply existsb_exists.
    exists (family ++ lit "-" ++ [d]); split; [exact Hg|].
    apply contains_infix; exists [], ds.
    simpl; rewrite <- !app_assoc; reflexivity.
  - symmetry; apply not_true_is_false; intros Hex.
    apply is_excluded_grade_initial in Hex; destruct Hex as (c & Hc & Hi).
    apply in_app_or in Hc; destruct Hc as [Hc|[<-|Hc]].
    + destruct Hfam as [-> | ->]; destruct Hc as [<-|[]]; simpl in Hi;
        repeat (destruct Hi as [Hi|Hi]; [discriminate Hi|]); exact Hi.
    + simpl in Hi; repeat (destruct Hi as [Hi|Hi]; [discriminate Hi|]);
        exact Hi.
    + rewrite forallb_forall in Hall.
      exact (@digit_not_initial c (Hall _ Hc) Hi).
Qed.

Lemma excluded_token_matches (prefix digits : str) :
  at_boundary None (prefix ++ digits) = true ->
  digits <> [] -> forallb is_digit digits = true ->
  re_search (excluded_token prefix) (prefix ++ digits) = true.
Proof.
  intros Hb Hne Hd; unfold re_search.
  apply search_from_here with (res := ([], [])).
  unfold match_at, excluded_token; cbn [rmatch]; rewrite Hb.
  rewrite rmatch_Str_app.
  exact (@digits_to_end (prev_after None prefix) digits [] Hne Hd).
Qed.

(** X16: a grade of family G, SB or LSC with a number is rejected in its
    compact, hyphenated and spaced spellings alike, whatever the title,
    the contract type and the category say (an internship keyword does not
    bring it back). *)
Theorem should_include_rejects_support_grades
  (family digits raw title contract_type category : str) :
  In (family ++ lit "-") EXCLUDED_GRADE_PREFIXES ->
  digits <> [] -> forallb is_digit digits = true ->
  spelled family digits raw ->
  should_include title raw contract_type category = false.
Proof.
  intros Hp Hne Hd Hraw.
  assert (Hfam : family = lit "G" \/ family = lit "SB" \/ family = lit "LSC").
  { unfold EXCLUDED_GRADE_PREFIXES in Hp; cbn [map In] in Hp.
    change (lit "-") with [45%N] in Hp.
    destruct Hp as [Hp|[Hp|[Hp|[]]]].
    - change (lit "G-") with (lit "G" ++ [45%N]) in Hp.
      apply app_inj_tail in Hp; destruct Hp as [<- _]; auto.
    - change (lit "SB-") with (lit "SB" ++ [45%N]) in Hp.
      apply app_inj_tail in Hp; destruct Hp as [<- _]; auto.
    - change (lit "LSC-") with (lit "LSC" ++ [45%N]) in Hp.
      apply app_inj_tail in Hp; destruct Hp as [<- _]; auto. }
  assert (Hf : In family GRADE_FAMILIES)
    by (destruct Hfam as [-> | [-> | ->]]; simpl; auto 10).
  assert (Hb : at_boundary None ((family ++ lit "-") ++ digits) = true)
    by (destruct Hfam as [-> | [-> | ->]]; reflexivity).
  unfold should_include.
  destruct (contains_consultant _); [reflexivity|]; cbv zeta.
  rewrite (@normalize_grade_spelled family digits raw Hf Hne Hd Hraw).
  replace (is_excluded_grade (family ++ 45%N :: digits)) with true;
    [reflexivity|].
  symmetry; apply is_excluded_grade_spec; left.
  exists (family ++ lit "-"); split; [exact Hp|].
  change (family ++ 45%N :: digits) with (family ++ lit "-" ++ digits).
  rewrite app_assoc.
  apply excluded_token_matches; assumption.
Qed.
(* ------------------------------------------------------------------------- *)
(** ** The anchor scan *)

Section AnchorScan.

Variables (str_lower str_title : str -> str).

Lemma seen_spec (href : str) (seen : list str) :
  existsb (str_eqb href) seen = false -> ~ In href seen.
Proof.
  intros H Hin.
  assert (Ht : existsb (str_eqb href) seen = true)
    by (apply existsb_exists; exists href; split;
        [exact Hin | apply str_eqb_refl]).
  rewrite H in Ht; discriminate.
Qed.

Lemma strategy_b_loop_invariant (Q : job -> Prop) (anchors : list anchor) :
  (forall text href,
     contains href (lit "/jobs/") = true ->
     str_eqb (rstrip_of is_slash href) (rstrip_of is_slash BASE_URL) = false ->
     In (Anchor (Some href) None) anchors \/
       (exists raw, In (Anchor (Some href) (Some raw)) anchors) ->
     5 <= length text -> Q (bare_job text href)) ->
  forall seen jobs,
    Forall Q jobs ->
    Forall Q (strategy_b_loop str_lower str_title anchors seen jobs).
Proof.
  induction anchors as [|a anchors IH]; intros HQ seen jobs Hjobs;
    cbn [strategy_b_loop]; [exact Hjobs|].
  assert (HQ' : forall text href,
             contains href (lit "/jobs/") = true ->
             str_eqb (rstrip_of is_slash href) (rstrip_of is_slash BASE_URL)
               = false ->
             In (Anchor (Some href) None) anchors \/
               (exists raw, In (Anchor (Some href) (Some raw)) anchors) ->
             5 <= length text -> Q (bare_job text href)).
  { intros text href H1 H2 H3 H4; apply HQ; trivial.
    destruct H3 as [H3|(raw & H3)]; [left | right; exists raw]; right;
      exact H3. }
  destruct a as [h label|]; [|exact Hjobs].
  set (href := match h with Some s => s | None => [] end).
  destruct (contains href (lit "/jobs/")) eqn:Hc; cbn [negb orb];
    [|apply IH; assumption].
  destruct (existsb (str_eqb href) seen); [apply IH; assumption|].
  destruct (str_eqb (rstrip_of is_slash href) _) eqn:Hb;
    [apply IH; assumption|].
  destruct label as [raw|]; [|exact Hjobs].
  cbv zeta.
  match goal with
  | |- context [truthy ?t && (5 <=? length ?t)] => set (text := t)
  end.
  destruct (truthy text && (5 <=? length text)) eqn:Hlen;
    [|apply IH; assumption].
  apply IH; [exact HQ'|].
  apply Forall_app; split; [exact Hjobs|].
  constructor; [|constructor].
  apply HQ; trivial.
  - right; exists raw; left.
    destruct h as [s|]; [reflexivity|].
    subst href; vm_compute in Hc; discriminate Hc.
  - apply andb_true_iff in Hlen; destruct Hlen as [_ Hlen].
    apply Nat.leb_le; exact Hlen.
Qed.

Lemma strategy_b_loop_distinct (anchors : list anchor) :
  forall seen jobs,
    (forall j, In j jobs -> In (link j) seen) ->
    NoDup (map link jobs) ->
    NoDup (map link (strategy_b_loop str_lower str_title anchors seen jobs)).
Proof.
  induction anchors as [|a anchors IH]; intros seen jobs Hseen Hnd;
    cbn [strategy_b_loop]; [exact Hnd|].
  destruct a as [h label|]; [|exact Hnd].
  set (href := match h with Some s => s | None => [] end).
  destruct (negb (contains href (lit "/jobs/"))); cbn [orb];
    [apply IH; assumption|].
  destruct (existsb (str_eqb href) seen) eqn:Hmem; [apply IH; assumption|].
  destruct (str_eqb (rstrip_of is_slash href) _); [apply IH; assumption|].
  destruct label as [raw|]; [|exact Hnd].
  cbv zeta.
  assert (Hseen' : forall j, In j jobs -> In (link j) (href :: seen))
    by (intros j Hj; right; apply Hseen; exact Hj).
  match goal with
  | |- context [truthy ?t && (5 <=? length ?t)] => set (text := t)
  end.
  destruct (truthy text && (5 <=? length text));
    [|apply IH; assumption].
  apply IH.
  - intros j Hj; apply in_app_or in Hj; destruct Hj as [Hj|[<-|[]]];
      [apply Hseen'; exact Hj | left; reflexivity].
  - rewrite map_app; cbn [map bare_job link].
    apply NoDup_app; repeat split.
    + exact Hnd.
    + constructor; [intros [] | constructor].
    + intros k Hk [<-|[]].
      apply in_map_iff in Hk; destruct Hk as (j & Hl & Hj).
      apply (seen_spec _ _ Hmem); rewrite <- Hl; apply Hseen; exact Hj.
Qed.

(** X17: the candidates that [strategy_b] returns have pairwise different
    links, whatever anchors the page has and wherever an exception ends the
    scan: an [href] that was met before is passed over. *)
Theorem strategy_b_links_distinct (anchors : option (list anchor)) :
  NoDup (map link (strategy_b str_lower str_title anchors)).
Proof.
  destruct anchors as [anchors|]; cbn [strategy_b]; [|constructor].
  apply strategy_b_loop_distinct; [intros j [] | constructor].
Qed.

(** X18: every candidate that [strategy_b] returns stands for an anchor of
    the page whose [href] contains /jobs/ and is not the address of the
    listing itself (with or without slashes at the end); its title has at
    least five characters, and it has no other field than title and link,
    so its completeness score is 2. *)
Theorem strategy_b_candidates (anchors : list anchor) (j : job) :
  In j (strategy_b str_lower str_title (Some anchors)) ->
  (exists label, In (Anchor (Some (link j)) label) anchors) /\
  infix (lit "/jobs/") (link j) /\
  rstrip_of is_slash (link j) <> BASE_URL /\
  title_and_link j /\
  filled j = 2.
Proof.
  cbn [strategy_b]; revert j; apply Forall_forall.
  apply strategy_b_loop_invariant; [|constructor].
  intros text href Hc Hb Hin Hlen; cbn [bare_job link title].
  assert (Hne : href <> []).
  { intros ->; vm_compute in Hc; discriminate Hc. }
  split; [destruct Hin as [Hin|(raw & Hin)]; eexists; exact Hin|].
  split; [apply contains_infix; exact Hc|].
  split; [intros E; apply str_eqb_neq in Hb; apply Hb; rewrite E; reflexivity|].
  split.
  - unfold title_and_link; cbn; repeat split; trivial.
  - unfold filled, values; cbn [bare_job title link location grade
                                 contract_type closing_date category].
    destruct text as [|c text]; [simpl in Hlen; lia|].
    destruct href as [|c' href]; [congruence|].
    reflexivity.
Qed.

Lemma strategy_b_filled (anchors : option (list anchor)) (j : job) :
  In j (strategy_b str_lower str_title anchors) -> filled j = 2.
Proof.
  destruct anchors as [anchors|]; cbn [strategy_b]; [|intros []].
  revert j; apply Forall_forall.
  apply strategy_b_loop_invariant; [|constructor].
  intros text href Hc _ _ Hlen.
  destruct text as [|c text]; [simpl in Hlen; lia|].
  destruct href as [|c' href]; [vm_compute in Hc; discriminate Hc|].
  reflexivity.
Qed.

Lemma split_after_prefix A (j : A) (a pre post rest : list A) :
  pre ++ j :: post = a ++ rest ->
  In j a \/ exists a', pre = a ++ a'.
Proof.
  revert pre; induction a as [|x a IH]; intros pre H.
  - right; exists pre; reflexivity.
  - destruct pre as [|y pre]; simpl in H; injection H as -> H.
    + left; left; reflexivity.
    + destruct (IH _ H) as [Hin|(a' & ->)].
      * left; right; exact Hin.
      * right; exists a'; reflexivity.
Qed.

Lemma filled_title_and_link (a : job) :
  title a <> [] -> link a <> [] -> 2 <= filled a.
Proof.
  intros Ht Hl; unfold filled.
  change (values a)
    with ([title a; link a]
          ++ [location a; grade a; contract_type a; closing_date a;
              category a]).
  rewrite filter_app, length_app.
  destruct (title a); [congruence|]; destruct (link a); [congruence|].
  simpl; lia.
Qed.

(** X19: in the merge of a page, a candidate of the anchor scan never
    takes the place of a candidate of strategy A for the same link.
    Strategy A comes first and appends a candidate only with a title and a
    link, so it scores at least the 2 of an anchor-scan candidate; what is
    kept for the link is a candidate of strategy A or of strategy C. *)
Theorem merge_jobs_anchor_scan_never_displaces
  (jobs_a jobs_c : list job) (anchors : option (list anchor)) (a j : job) :
  In a jobs_a -> title a <> [] -> link a <> [] ->
  In j (merge_jobs [jobs_a; strategy_b str_lower str_title anchors; jobs_c]) ->
  link j = link a ->
  In j jobs_a \/ In j jobs_c.
Proof.
  intros Ha Ht Hl Hj Hlink.
  set (jobs_b := strategy_b str_lower str_title anchors) in *.
  unfold merge_jobs in Hj; rewrite merge_jobs_concat in Hj.
  destruct (merged_all (concat [jobs_a; jobs_b; jobs_c])) as [_ Hall].
  apply in_map_iff in Hj; destruct Hj as (e & <- & He).
  rewrite Forall_forall in Hall.
  destruct (Hall _ He) as (_ & pre & post & Hf & Hpre & _).
  set (k := snd e) in *.
  cbn [concat] in Hf; rewrite app_nil_r, filter_app in Hf.
  symmetry in Hf.
  destruct (@split_after_prefix _ _ _ _ _ _ Hf) as [Hin|(a' & Hpre')].
  - left; apply filter_In in Hin; tauto.
  - assert (Hlt : filled a < filled k).
    { apply Hpre; rewrite Hpre'; apply in_or_app; left.
      apply filter_In; split; [exact Ha|].
      apply str_eqb_eq; symmetry; exact Hlink. }
    pose proof (@filled_title_and_link a Ht Hl) as Hge.
    assert (Hk : In k (filter (same_link k) (jobs_b ++ jobs_c))).
    { rewrite Hpre', <- app_assoc in Hf; apply app_inv_head in Hf.
      rewrite <- Hf; apply in_or_app; right; left; reflexivity. }
    apply filter_In in Hk; destruct Hk as [Hk _].
    apply in_app_or in Hk; destruct Hk as [Hk|Hk]; [|right; exact Hk].
    apply strategy_b_filled in Hk; lia.
Qed.

End AnchorScan.
(* ------------------------------------------------------------------------- *)
(** ** Postings listed once *)

Lemma NoDup_app_disjoint A (l l' : list A) (a : A) :
  NoDup (l ++ l') -> In a l -> ~ In a l'.
Proof.
  induction l as [|x l IH]; simpl; [tauto|].
  intros H; inversion H as [|? ? Hx Hnd]; subst.
  intros [->|Hin] Hin'.
  - apply Hx, in_or_app; right; exact Hin'.
  - exact (IH Hnd Hin Hin').
Qed.

Lemma NoDup_firstn A (n : nat) (l : list A) : NoDup l -> NoDup (firstn n l).
Proof.
  intros H; rewrite <- (firstn_skipn n l) in H.
  apply NoDup_app_remove_r in H; exact H.
Qed.

Lemma reached_jobs_In (pages : list page) (j : job) :
  In j (flat_map (fun p => filter includable (page_jobs p)) (reached pages)) ->
  In j (flat_map page_jobs pages).
Proof.
  intros H; apply in_flat_map in H; destruct H as (p & Hp & Hj).
  apply in_flat_map; exists p; split.
  - apply (@reached_In pages p Hp).
  - apply filter_In in Hj; tauto.
Qed.

Lemma reached_jobs_distinct (pages : list page) :
  NoDup (map link (flat_map page_jobs pages)) ->
  NoDup (map link
           (flat_map (fun p => filter includable (page_jobs p))
              (reached pages))).
Proof.
  induction pages as [|p rest IH]; cbn [reached flat_map]; [trivial|].
  rewrite map_app; intros H.
  destruct (page_jobs p) as [|j0 js] eqn:Hp; [constructor|].
  rewrite <- Hp in *; cbn [flat_map]; rewrite map_app.
  apply NoDup_app; repeat split.
  - apply NoDup_map_filter; apply NoDup_app_remove_r in H; exact H.
  - destruct (has_next p); [|constructor].
    apply IH; apply NoDup_app_remove_l in H; exact H.
  - intros k Hk Hk'.
    apply (NoDup_app_disjoint _ _ k H).
    + apply in_map_iff in Hk; destruct Hk as (j & <- & Hj).
      apply in_map; apply filter_In in Hj; tauto.
    + destruct (has_next p); [|destruct Hk'].
      apply in_map_iff in Hk'; destruct Hk' as (j & <- & Hj).
      apply in_map, reached_jobs_In; exact Hj.
Qed.

(** X20: when no link is listed on two pages (within a page the merge
    already keeps one candidate per link), [scrape_jobs] returns postings
    with pairwise different links. *)
Theorem scrape_jobs_links_distinct (pages : list page) :
  NoDup (map link (flat_map page_jobs pages)) ->
  NoDup (map link (scrape_jobs pages)).
Proof.
  intros H; unfold scrape_jobs; rewrite scrape_loop_spec by (simpl; lia).
  cbn [app]; rewrite <- firstn_map.
  apply NoDup_firstn, reached_jobs_distinct; exact H.
Qed.

(* ------------------------------------------------------------------------- *)
(** ** Letter case *)

Lemma upper_ascii_ascii (s : str) :
  forallb is_ascii s = true -> forallb is_ascii (upper s) = true.
Proof.
  intros H; apply upper_ascii_caseless in H.
  rewrite forallb_forall in H |- *; intros c Hc.
  apply caseless_ascii, H, Hc.
Qed.

Lemma normalize_ascii (s : str) :
  forallb is_ascii s = true -> normalize s = collapse (strip (upper s)).
Proof.
  intros H; rewrite normalize_unfold.
  destruct s as [|c s]; [reflexivity|].
  rewrite (@nfkd_ascii (c :: s) H), (@unify_dash_ascii (c :: s) H).
  reflexivity.
Qed.

Lemma normalize_upper_ascii (s : str) :
  forallb is_ascii s = true -> normalize (upper s) = normalize s.
Proof.
  intros H.
  rewrite (@normalize_ascii (upper s) (upper_ascii_ascii _ H)).
  rewrite (@normalize_ascii s H).
  rewrite (@upper_caseless (upper s) (upper_ascii_caseless _ H)).
  reflexivity.
Qed.

Lemma normalize_same_upper (s s' : str) :
  forallb is_ascii s = true -> forallb is_ascii s' = true ->
  upper s = upper s' -> normalize s = normalize s'.
Proof.
  intros H H' E.
  rewrite <- (normalize_upper_ascii _ H), <- (normalize_upper_ascii _ H'), E.
  reflexivity.
Qed.

Lemma all_fields_ascii (t g ct cat : str) :
  forallb is_ascii t = true -> forallb is_ascii g = true ->
  forallb is_ascii ct = true -> forallb is_ascii cat = true ->
  forallb is_ascii (all_fields t g ct cat) = true.
Proof.
  intros Ht Hg Hct Hcat; unfold all_fields.
  rewrite !forallb_app, Ht, Hg, Hct, Hcat; reflexivity.
Qed.

Lemma all_fields_upper (t g ct cat : str) :
  upper (all_fields t g ct cat) =
  all_fields (upper t) (upper g) (upper ct) (upper cat).
Proof. unfold all_fields, upper; rewrite !flat_map_app; reflexivity. Qed.

(** X21: on ASCII text the classifier does not look at the letter case:
    two postings whose title, grade, contract type and category are the
    same up to the case of their letters get the same answer. *)
Theorem should_include_ignores_ascii_case
  (title grade contract_type category : str)
  (title' grade' contract_type' category' : str) :
  forallb is_ascii
    (all_fields title grade contract_type category) = true ->
  forallb is_ascii
    (all_fields title' grade' contract_type' category') = true ->
  upper title = upper title' -> upper grade = upper grade' ->
  upper contract_type = upper contract_type' ->
  upper category = upper category' ->
  should_include title grade contract_type category =
  should_include title' grade' contract_type' category'.
Proof.
  intros Ha Ha' Et Eg Ect Ecat.
  assert (Hall : normalize (all_fields title grade contract_type category) =
                 normalize (all_fields title' grade' contract_type' category')).
  { apply normalize_same_upper; trivial.
    rewrite !all_fields_upper, Et, Eg, Ect, Ecat; reflexivity. }
  unfold all_fields in Ha, Ha'; rewrite !forallb_app in Ha, Ha'.
  repeat match goal with
         | H : _ && _ = true |- _ => apply andb_true_iff in H; destruct H
         end.
  unfold should_include, contains_consultant, contains_intern, normalize_grade.
  rewrite Hall.
  rewrite (@normalize_same_upper title title') by assumption.
  rewrite (@normalize_same_upper grade grade') by assumption.
  rewrite (@normalize_same_upper contract_type contract_type') by assumption.
  rewrite (@normalize_same_upper category category') by assumption.
  reflexivity.
Qed.
(* ------------------------------------------------------------------------- *)
(** ** Texts without a digit *)

Lemma suffix_of_refl (s : str) : suffix_of s s.
Proof. exists []; reflexivity. Qed.

Lemma suffix_of_tail (c : char) (s' s : str) :
  suffix_of (c :: s') s -> suffix_of s' s.
Proof.
  intros (pre & ->); exists (pre ++ [c]); rewrite <- app_assoc; reflexivity.
Qed.

Lemma many_fails (p : char -> bool) (k : cont) (s : str) :
  fails_on k s ->
  forall s' prev caps, suffix_of s' s -> many p k prev s' caps = None.
Proof.
  intros Hk; induction s' as [|c s' IH]; intros prev caps Hs; cbn [many].
  - apply Hk; exact Hs.
  - destruct (p c); [|apply Hk; exact Hs].
    rewrite IH by (apply suffix_of_tail with c; exact Hs).
    apply Hk; exact Hs.
Qed.

(** A pattern in front of a continuation that fails everywhere fails. *)
Lemma rmatch_fails (r : regex) :
  forall (k : cont) (s : str), fails_on k s -> fails_on (rmatch r k) s.
Proof.
  induction r as [|c|p|r1 IH1 r2 IH2|r1 IH1 r2 IH2|p| |n r1 IH1];
    intros k s Hk prev s' caps Hs; cbn [rmatch].
  - apply Hk; exact Hs.
  - destruct s' as [|x s'']; [reflexivity|].
    destruct (x =? c)%N; [|reflexivity].
    apply Hk, suffix_of_tail with x; exact Hs.
  - destruct s' as [|x s'']; [reflexivity|].
    destruct (p x); [|reflexivity].
    apply Hk, suffix_of_tail with x; exact Hs.
  - exact (IH1 (rmatch r2 k) s (IH2 k s Hk) prev s' caps Hs).
  - rewrite (IH1 k s Hk prev s' caps Hs).
    exact (IH2 k s Hk prev s' caps Hs).
  - destruct s' as [|x s'']; [reflexivity|].
    destruct (p x); [|reflexivity].
    apply many_fails with s; [exact Hk|].
    apply suffix_of_tail with x; exact Hs.
  - destruct (at_boundary prev s'); [apply Hk; exact Hs | reflexivity].
  - refine (IH1 _ s _ prev s' caps Hs).
    intros prev' s'' caps' Hs''; apply Hk; exact Hs''.
Qed.

Lemma digit_free_suffix (s' s : str) :
  suffix_of s' s -> digit_free s = true -> digit_free s' = true.
Proof.
  intros (pre & ->); unfold digit_free; rewrite forallb_app.
  intros H; apply andb_true_iff in H; tauto.
Qed.

(** The number of a grade does not match in a text without a digit. *)
Lemma number_fails (k : cont) (s : str) :
  digit_free s = true ->
  fails_on (rmatch (Cat (Group 2 (Plus isdecimal)) Boundary) k) s.
Proof.
  intros Hs prev s' caps Hsuf.
  pose proof (@digit_free_suffix s' s Hsuf Hs) as Hs'.
  cbn [rmatch]; destruct s' as [|x s'']; [reflexivity|].
  unfold digit_free in Hs'; simpl in Hs'.
  apply andb_true_iff in Hs'; destruct Hs' as [Hx _].
  apply negb_true_iff in Hx; rewrite Hx; reflexivity.
Qed.

Lemma sub_scan_never_matches (r : regex) (repl : template) (s : str) :
  (forall prev s', suffix_of s' s -> match_at r prev s' = None) ->
  forall s' prev, suffix_of s' s -> sub_scan r repl prev s' 0 = s'.
Proof.
  intros Hnone; induction s' as [|c s' IH]; intros prev Hs.
  - cbn [sub_scan]; rewrite (Hnone prev [] Hs); reflexivity.
  - rewrite sub_scan_no_match by (apply Hnone; exact Hs).
    rewrite IH by (apply suffix_of_tail with c; exact Hs); reflexivity.
Qed.

(** X22: the two grade expansions leave a text without a decimal digit as
    it is; for a grade text whose normalized form has no digit,
    [normalize_grade] is [normalize]. *)
Theorem expansions_need_a_digit (raw : str) :
  digit_free (normalize raw) = true ->
  expand_compact_grade (normalize raw) = normalize raw /\
  expand_spaced_grade (normalize raw) = normalize raw /\
  normalize_grade raw = normalize raw.
Proof.
  intros Hfree; set (s := normalize raw) in *.
  assert (Hc : expand_compact_grade s = s).
  { unfold expand_compact_grade, re_sub.
    apply sub_scan_never_matches with s; [|apply suffix_of_refl].
    intros prev s' Hs; unfold match_at, compact_grade.
    exact (@rmatch_fails (Cat Boundary (Group 1 grade_family))
             (rmatch (Cat (Group 2 (Plus isdecimal)) Boundary) accept) s
             (@number_fails accept s Hfree) prev s' [] Hs). }
  assert (Hsp : expand_spaced_grade s = s).
  { unfold expand_spaced_grade, re_sub.
    apply sub_scan_never_matches with s; [|apply suffix_of_refl].
    intros prev s' Hs; unfold match_at, spaced_grade.
    exact (@rmatch_fails
             (Cat Boundary (Cat (Group 1 grade_family) (Plus isspace)))
             (rmatch (Cat (Group 2 (Plus isdecimal)) Boundary) accept) s
             (@number_fails accept s Hfree) prev s' [] Hs). }
  split; [exact Hc|]; split; [exact Hsp|].
  unfold normalize_grade; fold s; rewrite Hc; exact Hsp.
Qed.
(* ------------------------------------------------------------------------- *)
(** ** A run on a listing without repeated postings *)


(* ------------------------------------------------------------------------- *)
(** ** The texts of the file *)

Lemma split_lines_nonempty (s : str) : split_lines s <> [].
Proof.
  induction s as [|c s IH]; cbn [split_lines]; [discriminate|].
  destruct (c =? 10)%N; [discriminate|].
  destruct (split_lines s); discriminate.
Qed.

Lemma split_lines_cons (c : char) (s : str) :
  (c =? 10)%N = false ->
  exists line lines,
    split_lines s = line :: lines /\
    split_lines (c :: s) = (c :: line) :: lines.
Proof.
  intros Hc; cbn [split_lines]; rewrite Hc.
  destruct (split_lines s) as [|line lines] eqn:E.
  - exfalso; exact (split_lines_nonempty s E).
  - exists line, lines; split; reflexivity.
Qed.

Lemma file_text_cons (c : char) (r : str) :
  (c =? 10)%N = false -> (c =? 13)%N = false ->
  file_text (c :: r) = c :: file_text r.
Proof.
  intros H10 H13; unfold file_text; cbn [unix_newlines]; rewrite H13.
  destruct (@split_lines_cons c (unix_newlines r) H10)
    as (line & lines & -> & ->).
  reflexivity.
Qed.


(** A text without a line break is written as it is. *)
Lemma file_text_one_line (x : str) : one_line x = true -> file_text x = x.
Proof.
  induction x as [|c x IH]; [reflexivity|].
  cbn [one_line forallb]; intros H; apply andb_true_iff in H.
  destruct H as [Hc Hx].
  apply negb_true_iff, orb_false_iff in Hc; destruct Hc as [H10 H13].
  rewrite file_text_cons by assumption.
  rewrite IH by exact Hx; reflexivity.
Qed.

Lemma not_space_not_break (c : char) :
  isspace c = false -> (c =? 10)%N = false /\ (c =? 13)%N = false.
Proof.
  intros H; split; apply N.eqb_neq; intros ->; discriminate H.
Qed.

Lemma unix_newlines_snoc (r : str) (d : char) :
  (d =? 10)%N = false -> (d =? 13)%N = false ->
  unix_newlines (r ++ [d]) = unix_newlines r ++ [d].
Proof.
  intros H10 H13; induction r as [|c r IH]; cbn [app unix_newlines].
  - rewrite H13; reflexivity.
  - rewrite IH.
    replace (next_is_lf (r ++ [d])) with (next_is_lf r)
      by (destruct r; [simpl; rewrite H10|]; reflexivity).
    destruct (c =? 13)%N; [destruct (next_is_lf r)|]; reflexivity.
Qed.

Lemma split_lines_snoc (t : str) (d : char) :
  (d =? 10)%N = false ->
  exists lines line,
    split_lines t = lines ++ [line] /\
    split_lines (t ++ [d]) = lines ++ [line ++ [d]].
Proof.
  intros H10; induction t as [|c t (lines & line & E & E')].
  - exists [], []; split; [reflexivity|].
    cbn [app split_lines]; rewrite H10; reflexivity.
  - cbn [app split_lines]; rewrite E, E'.
    destruct (c =? 10)%N.
    + exists ([] :: lines), line; split; reflexivity.
    + destruct lines as [|l0 lines].
      * exists [], (c :: line); split; reflexivity.
      * exists ((c :: l0) :: lines), line; split; reflexivity.
Qed.

Lemma keep_lines_snoc (lines : list str) (line : str) :
  keep_lines (lines ++ [line]) =
  filter (fun l => negb (blank l)) lines ++ [line].
Proof.
  induction lines as [|a lines IH]; [reflexivity|].
  cbn [app keep_lines filter].
  destruct (lines ++ [line]) as [|b rest] eqn:E.
  - destruct lines; discriminate E.
  - rewrite IH; destruct (blank a); reflexivity.
Qed.

Lemma join_lines_snoc (first : str) (lines : list str) (line : str) (d : char) :
  join_lines (first :: lines ++ [line ++ [d]]) =
  join_lines (first :: lines ++ [line]) ++ [d].
Proof.
  cbn [join_lines]; rewrite !flat_map_app; cbn [flat_map].
  rewrite !app_nil_r, <- !app_assoc; reflexivity.
Qed.

Lemma file_text_snoc (r : str) (d : char) :
  (d =? 10)%N = false -> (d =? 13)%N = false ->
  file_text (r ++ [d]) = file_text r ++ [d].
Proof.
  intros H10 H13; unfold file_text.
  rewrite unix_newlines_snoc by assumption.
  destruct (@split_lines_snoc (unix_newlines r) d H10)
    as (lines & line & -> & ->).
  destruct lines as [|first lines]; cbn [app].
  - cbn [keep_lines join_lines flat_map]; rewrite !app_nil_r; reflexivity.
  - rewrite !keep_lines_snoc; apply join_lines_snoc.
Qed.

(** Writing keeps a text without white space around it so. *)
Lemma file_text_stripped (x : str) :
  strip x = x -> strip (file_text x) = file_text x.
Proof.
  intros Hs.
  assert (Hl : lstrip x = x) by (rewrite <- Hs; apply lstrip_strip).
  assert (Hr : rstrip x = x) by (rewrite <- Hs; apply rstrip_strip).
  apply lstrip_fixed_head in Hl; apply rstrip_fixed_last in Hr.
  destruct Hl as [->|(c & t & Ec & Hc)]; [reflexivity|].
  destruct Hr as [->|(t' & d & Ed & Hd)]; [reflexivity|].
  destruct (@not_space_not_break c Hc) as [Hc10 Hc13].
  destruct (@not_space_not_break d Hd) as [Hd10 Hd13].
  assert (Hhead : file_text x = c :: file_text t)
    by (rewrite Ec; apply file_text_cons; assumption).
  assert (Hlast : file_text x = file_text t' ++ [d])
    by (rewrite Ed; apply file_text_snoc; assumption).
  unfold strip.
  rewrite Hhead at 1; rewrite lstrip_nonspace by exact Hc.
  rewrite <- Hhead, Hlast; apply rstrip_last_nonspace; exact Hd.
Qed.

Lemma filter_twice A (f : A -> bool) (l : list A) :
  filter f (filter f l) = filter f l.
Proof.
  induction l as [|a l IH]; simpl; [reflexivity|].
  destruct (f a) eqn:E; simpl; rewrite ?E, IH; reflexivity.
Qed.

Lemma keep_lines_twice (rest : list str) :
  keep_lines (keep_lines rest) = keep_lines rest.
Proof.
  destruct rest as [|a rest] using rev_ind; [reflexivity|].
  rewrite !keep_lines_snoc, filter_twice; reflexivity.
Qed.

Lemma keep_lines_In (rest : list str) (line : str) :
  In line (keep_lines rest) -> In line rest.
Proof.
  destruct rest as [|a rest] using rev_ind; [tauto|].
  rewrite keep_lines_snoc, !in_app_iff, filter_In; tauto.
Qed.

Lemma unix_newlines_no_cr (s : str) : ~ In 13%N (unix_newlines s).
Proof.
  induction s as [|c s IH]; cbn [unix_newlines]; [tauto|].
  destruct (c =? 13)%N eqn:E.
  - destruct (next_is_lf s); [exact IH|].
    intros [H|H]; [discriminate H | exact (IH H)].
  - apply N.eqb_neq in E; intros [H|H]; [exact (E H) | exact (IH H)].
Qed.

Lemma unix_newlines_fixed (s : str) : ~ In 13%N s -> unix_newlines s = s.
Proof.
  induction s as [|c s IH]; intros H; cbn [unix_newlines]; [reflexivity|].
  destruct (c =? 13)%N eqn:E.
  - apply N.eqb_eq in E; exfalso; apply H; left; exact E.
  - rewrite IH; [reflexivity|]; intros Hin; apply H; right; exact Hin.
Qed.

Lemma split_lines_chars (s line : str) (c : char) :
  In line (split_lines s) -> In c line -> In c s /\ c <> 10%N.
Proof.
  revert line; induction s as [|a s IH]; intros line; cbn [split_lines].
  - intros [<-|[]] [].
  - destruct (a =? 10)%N eqn:E.
    + intros [<-|Hl] Hc; [destruct Hc|].
      destruct (IH _ Hl Hc); split; [right|]; assumption.
    + apply N.eqb_neq in E.
      destruct (split_lines s) as [|first rest].
      * intros [<-|[]] [<-|[]]; split; [left; reflexivity | exact E].
      * intros [<-|Hl] Hc.
        -- destruct Hc as [<-|Hc]; [split; [left; reflexivity | exact E]|].
           destruct (IH first (or_introl eq_refl) Hc); split; [right|];
             assumption.
        -- destruct (IH line (or_intror Hl) Hc); split; [right|]; assumption.
Qed.

Lemma split_lines_line (line : str) :
  ~ In 10%N line -> split_lines line = [line].
Proof.
  induction line as [|c line IH]; intros H; cbn [split_lines]; [reflexivity|].
  replace (c =? 10)%N with false
    by (symmetry; apply N.eqb_neq; intros ->; apply H; left; reflexivity).
  rewrite IH; [reflexivity|]; intros Hin; apply H; right; exact Hin.
Qed.

Lemma split_lines_first (line t : str) :
  ~ In 10%N line -> split_lines (line ++ 10%N :: t) = line :: split_lines t.
Proof.
  induction line as [|c line IH]; intros H; cbn [app split_lines].
  - reflexivity.
  - replace (c =? 10)%N with false
      by (symmetry; apply N.eqb_neq; intros ->; apply H; left; reflexivity).
    rewrite IH; [reflexivity|]; intros Hin; apply H; right; exact Hin.
Qed.

Lemma split_lines_join (rest : list str) (first : str) :
  (forall line, In line (first :: rest) -> ~ In 10%N line) ->
  split_lines (join_lines (first :: rest)) = first :: rest.
Proof.
  revert first; induction rest as [|line rest IH]; intros first H;
    cbn [join_lines flat_map app].
  - rewrite app_nil_r; apply split_lines_line, H; left; reflexivity.
  - rewrite split_lines_first by (apply H; left; reflexivity).
    change (line ++ flat_map (fun l => 10%N :: l) rest)
      with (join_lines (line :: rest)).
    rewrite IH; [reflexivity|].
    intros l Hl; apply H; right; exact Hl.
Qed.

Lemma join_lines_chars (lines : list str) (c : char) :
  In c (join_lines lines) ->
  c = 10%N \/ exists line, In line lines /\ In c line.
Proof.
  destruct lines as [|first rest]; cbn [join_lines]; [intros []|].
  rewrite in_app_iff, in_flat_map.
  intros [H|(line & Hl & [<-|H])].
  - right; exists first; split; [left; reflexivity | exact H].
  - left; reflexivity.
  - right; exists line; split; [right; exact Hl | exact H].
Qed.

(** Writing a text that was read from the file gives the same text. *)
Lemma file_text_twice (x : str) : file_text (file_text x) = file_text x.
Proof.
  destruct (split_lines (unix_newlines x)) as [|first rest] eqn:E.
  { exfalso; exact (@split_lines_nonempty _ E). }
  assert (Hx : file_text x = join_lines (first :: keep_lines rest))
    by (unfold file_text; rewrite E; reflexivity).
  assert (Hlines : forall line, In line (first :: keep_lines rest) ->
                     In line (split_lines (unix_newlines x))).
  { rewrite E; intros line [<-|H]; [left; reflexivity|].
    right; apply keep_lines_In; exact H. }
  rewrite Hx; unfold file_text at 1.
  rewrite unix_newlines_fixed, split_lines_join, keep_lines_twice.
  - reflexivity.
  - intros line Hl Hc.
    destruct (@split_lines_chars _ _ _ (Hlines _ Hl) Hc) as [_ Hne].
    apply Hne; reflexivity.
  - intros Hc; apply join_lines_chars in Hc.
    destruct Hc as [Hc|(line & Hl & Hc)]; [discriminate Hc|].
    destruct (@split_lines_chars _ _ _ (Hlines _ Hl) Hc) as [Hin _].
    exact (@unix_newlines_no_cr _ Hin).
Qed.






(* ------------------------------------------------------------------------- *)
(** ** The file that a run writes *)

Lemma xml_char_encode (c : char) :
  xml_char c = true -> exists bs, encode_char c = Some bs.
Proof.
  unfold xml_char, encode_char; intros H.
  rewrite !orb_true_iff, !andb_true_iff, !N.eqb_eq, !N.leb_le in H.
  destruct (N.ltb_spec c 0x80); [eauto|].
  destruct (N.ltb_spec c 0x800); [eauto|].
  destruct (N.ltb_spec c 0x10000).
  - destruct ((0xD800 <=? c)%N && (c <=? 0xDFFF)%N) eqn:E; [|eauto].
    apply andb_true_iff in E; rewrite !N.leb_le in E; lia.
  - destruct (N.ltb_spec c 0x110000); [eauto | lia].
Qed.

(** A text that can be written can be encoded. *)
Lemma xml_text_encodable (s : str) : xml_text s = true -> encodable s = true.
Proof.
  unfold xml_text, encodable; induction s as [|c s IH]; cbn [forallb encode];
    [reflexivity|].
  intros H; apply andb_true_iff in H; destruct H as [Hc Hs].
  destruct (xml_char_encode _ Hc) as (bs & ->).
  destruct (encode s); [reflexivity | exact (IH Hs)].
Qed.

Lemma unwritable_link (d : feed_item) :
  encodable (fi_link d) = false -> writable_item d = false.
Proof.
  intros H; unfold writable_item.
  destruct (xml_text (fi_link d)) eqn:E.
  - rewrite (xml_text_encodable _ E) in H; discriminate H.
  - destruct (xml_text (fi_title d)); reflexivity.
Qed.

Lemma strip_guid (l : str) : strip (guid_of l) = guid_of l.
Proof.
  destruct (encodable l) eqn:E; [apply strip_guid_of; exact E|].
  unfold guid_of; rewrite (generate_numeric_id_None _ E); reflexivity.
Qed.

Lemma parsed_text_or_empty (x : str) :
  match parsed_text x with Some y => y | None => [] end = file_text x.
Proof. unfold parsed_text; destruct (file_text x); reflexivity. Qed.

Lemma item_fields_parsed (data : feed_item) :
  item_fields (parsed_item data) = in_file data.
Proof.
  unfold item_fields, in_file, text_of, parsed_item, parsed_leaf, find;
    cbn [children List.find tag]; simpl str_eqb; cbn iota; cbn [text].
  rewrite !parsed_text_or_empty; reflexivity.
Qed.

Lemma findall_parsed_items (head : list element) (items : list feed_item) :
  filter (fun c => str_eqb (tag c) (lit "item")) head = [] ->
  filter (fun c => str_eqb (tag c) (lit "item"))
    (head ++ map parsed_item items) = map parsed_item items.
Proof.
  intros Hh; rewrite filter_app, Hh; cbn [app].
  induction items as [|d items IH]; [reflexivity|].
  cbn [map filter]; rewrite IH; reflexivity.
Qed.

Lemma file_items_parsed (now : str) (items : list feed_item) :
  file_items (Parsed (parsed_feed now items)) = map in_file items.
Proof.
  unfold file_items, feed_items, parsed_feed, find.
  cbn [children List.find tag]; simpl str_eqb; cbn iota.
  unfold findall; cbn [children].
  rewrite findall_parsed_items by reflexivity.
  rewrite map_map; apply map_ext; intros d; apply item_fields_parsed.
Qed.

Lemma load_item_parsed (existing : dict feed_item) (data : feed_item) :
  load_item existing (parsed_item data) = reload_item existing (in_file data).
Proof.
  unfold load_item, reload_item, in_file, stripped, child_text, parsed_item,
    parsed_leaf, find;
    cbn [children List.find tag fi_title fi_link fi_description fi_guid
         fi_pubDate]; simpl str_eqb; cbn iota; cbn [text].
  rewrite !parsed_text_or_empty.
  unfold parsed_text; destruct (file_text (fi_link data)); reflexivity.
Qed.

Lemma load_parsed_feed (now : str) (items : list feed_item) :
  load_existing_feed (Parsed (parsed_feed now items)) =
  fold_left reload_item (map in_file items) [].
Proof.
  unfold load_existing_feed, parsed_feed, find.
  cbn [children List.find tag]; simpl str_eqb; cbn iota.
  unfold findall; cbn [children].
  rewrite findall_parsed_items by reflexivity.
  generalize (@nil (str * feed_item)).
  induction items as [|d items IH]; intros existing; cbn [map fold_left];
    [reflexivity|].
  rewrite load_item_parsed; apply IH.
Qed.

(** The call that writes the file. *)
Lemma generate_rss_file_written (file : feed_file) (now : str)
  (new_jobs : list job) (file' : feed_file) :
  generate_rss_file file now new_jobs = Some file' ->
  file' = Parsed (parsed_feed now
            (dict_values (load_existing_feed file) ++
             map (new_item now)
               (truly_new_of (load_existing_feed file) new_jobs))) /\
  writable now
    (dict_values (load_existing_feed file) ++
     map (new_item now) (truly_new_of (load_existing_feed file) new_jobs))
  = true.
Proof.
  unfold generate_rss_file; intros H.
  pose proof (generate_rss_cases file now new_jobs) as Hc; cbn zeta in Hc.
  destruct (forallb encodable _ && forallb _ _).
  - destruct Hc as (rss & Hrss & _ & Hitems).
    rewrite Hrss, Hitems in H.
    destruct (writable now _); [|discriminate H].
    injection H as <-; split; reflexivity.
  - rewrite Hc in H; discriminate H.
Qed.

(** X8: [generate_rss] raises, and leaves the feed file as it was, exactly
    when a text that it has to write cannot be written: the timestamp or
    one of the five texts of an item (loaded, or materialised for a posting
    whose link is not in the loaded feed) has a character that XML does not
    allow, or the description of an item holds ["]]>"].  A link that
    [str.encode] rejects is such a text. *)
Theorem generate_rss_fails_iff_unwritable (file : feed_file) (now : str)
  (new_jobs : list job) :
  generate_rss_file file now new_jobs = None <->
  xml_text now = false \/
  exists d,
    In d (dict_values (load_existing_feed file) ++
          map (new_item now)
            (truly_new_of (load_existing_feed file) new_jobs)) /\
    writable_item d = false.
Proof.
  set (existing := load_existing_feed file).
  set (items := dict_values existing ++
                map (new_item now) (truly_new_of existing new_jobs)).
  assert (Hw : writable now items = false <->
               xml_text now = false \/
               exists d, In d items /\ writable_item d = false).
  { unfold writable; rewrite andb_false_iff; split.
    - intros [H|H]; [left; exact H|].
      right; apply forallb_false; exact H.
    - intros [H|(d & Hd & H)]; [left; exact H|].
      right; destruct (forallb writable_item items) eqn:E; [|reflexivity].
      rewrite forallb_forall in E; rewrite (E _ Hd) in H; discriminate H. }
  rewrite <- Hw; unfold generate_rss_file.
  pose proof (generate_rss_cases file now new_jobs) as Hc; cbn zeta in Hc.
  fold existing in Hc; fold items in Hc.
  destruct (forallb encodable (dict_keys existing)) eqn:Hex; cbn [andb] in Hc.
  - destruct (forallb _ (truly_new_of existing new_jobs)) eqn:Hnew.
    + destruct Hc as (rss & -> & _ & ->).
      destruct (writable now items); split; congruence.
    + rewrite Hc; split; [intros _ | reflexivity].
      apply Hw; right; apply forallb_false in Hnew.
      destruct Hnew as (j & Hj & E); exists (new_item now j); split.
      * apply in_or_app; right; apply in_map; exact Hj.
      * apply unwritable_link; exact E.
  - rewrite Hc; split; [intros _ | reflexivity].
    apply Hw; right; apply forallb_false in Hex.
    destruct Hex as (k & Hk & E).
    apply dict_keys_values in Hk; destruct Hk as (d & Hd).
    destruct (load_existing_feed_loaded file) as [_ Hall].
    rewrite Forall_forall in Hall; destruct (Hall _ Hd) as [Hl _].
    simpl in Hl; exists d; split.
    * apply in_or_app; left; apply dict_values_In; exists k; exact Hd.
    * apply unwritable_link; rewrite Hl; exact E.
Qed.

(* ------------------------------------------------------------------------- *)
(** ** A missing or malformed feed file *)

(** C10: when the feed file is missing, cannot be parsed, or has no channel
    element, [load_existing_feed] returns the empty dict, so every
    classified posting counts as new: the list of new postings is the
    whole list, and the tree that the item loops of [generate_rss] build
    holds exactly one item per posting of the list, in its order. *)
Theorem load_existing_feed_empty_when_unusable (file : feed_file)
  (now : str) (new_jobs : list job) :
  file = Missing \/ file = Unparsable \/
  (exists root, file = Parsed root /\ find root (lit "channel") = None) ->
  load_existing_feed file = [] /\
  truly_new_of (load_existing_feed file) new_jobs = new_jobs /\
  forall rss,
    generate_rss file now new_jobs = Some rss ->
    feed_items rss = map (new_item now) new_jobs.
Proof.
  intros Hfile.
  assert (Hempty : load_existing_feed file = []).
  { destruct Hfile as [->|[->|(root & -> & Hroot)]]; try reflexivity.
    simpl; rewrite Hroot; reflexivity. }
  assert (Hall : truly_new_of (load_existing_feed file) new_jobs = new_jobs).
  { rewrite Hempty; unfold truly_new_of; simpl.
    induction new_jobs as [|j l IH]; simpl; [reflexivity|].
    rewrite IH; reflexivity. }
  split; [exact Hempty|]; split; [exact Hall|].
  intros rss Hrun.
  pose proof (generate_rss_cases file now new_jobs) as Hc; cbn zeta in Hc.
  destruct (forallb encodable _ && forallb _ _).
  - destruct Hc as (rss' & Hrss & _ & Hitems).
    rewrite Hrun in Hrss; injection Hrss as <-.
    rewrite Hitems, Hall, Hempty; reflexivity.
  - rewrite Hrun in Hc; discriminate Hc.
Qed.


Lemma in_file_twice (data : feed_item) : in_file (in_file data) = in_file data.
Proof.
  unfold in_file; cbn [fi_title fi_link fi_description fi_guid fi_pubDate].
  rewrite !file_text_twice; reflexivity.
Qed.

Lemma in_file_stripped (data : feed_item) :
  stripped data = data -> stripped (in_file data) = in_file data.
Proof.
  intros H; unfold stripped, in_file;
    cbn [fi_title fi_link fi_description fi_guid fi_pubDate].
  rewrite (@file_text_stripped _ (f_equal fi_title H)).
  rewrite (@file_text_stripped _ (f_equal fi_link H)).
  rewrite (@file_text_stripped _ (f_equal fi_description H)).
  rewrite (@file_text_stripped _ (f_equal fi_guid H)).
  rewrite (@file_text_stripped _ (f_equal fi_pubDate H)).
  reflexivity.
Qed.

(* ------------------------------------------------------------------------- *)
(** ** Two runs in a row *)

Section TwoRuns.

Variables (file : feed_file) (now1 now2 : str) (new1 new2 : list job).

Let existing := load_existing_feed file.

Hypothesis existing_keys :
  forallb (fun k => truthy k && one_line k) (dict_keys existing) = true.
Hypothesis new1_links :
  forallb (fun j => clean_link (link j) && one_line (link j)) new1 = true.
Hypothesis now1_stripped : strip now1 = now1.






End TwoRuns.

(* ------------------------------------------------------------------------- *)
(** ** What a run writes and the next run loads *)

Section Rerun.

Variables (file : feed_file) (now now' : str) (new_jobs again : list job).

Let existing := load_existing_feed file.
Let feed := dict_values existing ++
            map (new_item now) (truly_new_of existing new_jobs).

Hypothesis loaded_links :
  forallb (fun k => truthy k && one_line k) (dict_keys existing) = true.
Hypothesis posting_links :
  forallb (fun j => clean_link (link j) && one_line (link j)) new_jobs = true.
Hypothesis posting_titles :
  forallb (fun j => str_eqb (strip (title j)) (title j)) new_jobs = true.
Hypothesis posting_links_distinct : NoDup (map link new_jobs).
Hypothesis now_clean : strip now = now.

Lemma feed_item_clean (d : feed_item) :
  In d feed ->
  stripped d = d /\ truthy (fi_link d) = true /\ one_line (fi_link d) = true.
Proof.
  unfold feed; intros H; apply in_app_or in H; destruct H as [H|H].
  - apply dict_values_In in H; destruct H as (k & H).
    destruct (load_existing_feed_loaded file) as [_ Hall].
    rewrite Forall_forall in Hall; destruct (Hall _ H) as [Hk Hs].
    simpl in Hk, Hs.
    assert (Hin : In k (dict_keys existing)).
    { change k with (fst (k, d)); apply in_map; exact H. }
    rewrite forallb_forall in loaded_links.
    apply loaded_links, andb_true_iff in Hin.
    rewrite Hk; split; [exact Hs | exact Hin].
  - apply in_map_iff in H; destruct H as (j & <- & Hj).
    apply truly_new_In in Hj; destruct Hj as [Hj _].
    rewrite forallb_forall in posting_links, posting_titles.
    pose proof (posting_links _ Hj) as Hl; apply andb_true_iff in Hl.
    destruct Hl as [Hclean Hone].
    pose proof (proj1 (clean_link_spec _) Hclean) as [Hne Hsl].
    pose proof (proj1 (str_eqb_eq _ _) (posting_titles _ Hj)) as Hst.
    unfold stripped, new_item; cbn [fi_title fi_link fi_description fi_guid
                                     fi_pubDate].
    rewrite Hst, Hsl, build_description_stripped, now_clean, strip_guid.
    split; [reflexivity|]; split; [|exact Hone].
    destruct (link j); [congruence | reflexivity].
Qed.

Lemma feed_links_distinct : NoDup (map fi_link feed).
Proof.
  destruct (load_existing_feed_loaded file) as [Hkeys Hall].
  fold existing in Hkeys, Hall.
  assert (Hlinks : map fi_link (dict_values existing) = dict_keys existing).
  { unfold dict_values, dict_keys; rewrite map_map.
    apply map_ext_in; intros e He.
    rewrite Forall_forall in Hall; apply (Hall _ He). }
  unfold feed; rewrite map_app, Hlinks, map_map; simpl.
  apply NoDup_app; repeat split.
  - exact Hkeys.
  - apply NoDup_map_filter; exact posting_links_distinct.
  - intros k Hk Hin; apply in_map_iff in Hin; destruct Hin as (j & <- & Hj).
    apply truly_new_In in Hj; tauto.
Qed.

Lemma written_links : map fi_link (map in_file feed) = map fi_link feed.
Proof.
  rewrite map_map; apply map_ext_in; intros d Hd.
  cbn [in_file fi_link]; apply file_text_one_line.
  apply (feed_item_clean _ Hd).
Qed.

Lemma first_run (file1 : feed_file) :
  generate_rss_file file now new_jobs = Some file1 ->
  file1 = Parsed (parsed_feed now feed) /\
  load_existing_feed file1 = map entry_of (map in_file feed).
Proof.
  intros Hrun; apply generate_rss_file_written in Hrun.
  destruct Hrun as [-> _]; fold existing; fold feed.
  split; [reflexivity|].
  rewrite load_parsed_feed; apply reload_fresh.
  - intros d0 Hd0; apply in_map_iff in Hd0; destruct Hd0 as (d & <- & Hd).
    destruct (feed_item_clean _ Hd) as (Hs & Ht & Hone).
    split; [exact (@in_file_stripped _ Hs)|].
    cbn [in_file fi_link]; rewrite (@file_text_one_line _ Hone); exact Ht.
  - cbn [dict_keys map app]; rewrite written_links.
    exact feed_links_distinct.
Qed.

(** X10: what a run writes is what the next run loads.  When the links
    are as the specification has them (not empty, no white space around
    them, no line break), the postings have distinct links and titles
    without white space around them, and the timestamp has no white space
    around it either, then a call of [generate_rss] that writes the file
    leaves a file whose items are those of the tree, every text as the
    file holds it, and [load_existing_feed] on that file returns one entry
    per item of the file, in the order of the file, filed under the link of
    the item and holding its five texts as they stand in the file. *)
Theorem generate_rss_then_load_round_trip (file1 : feed_file) :
  generate_rss_file file now new_jobs = Some file1 ->
  file_items file1 =
    map in_file
      (dict_values existing ++
       map (new_item now) (truly_new_of existing new_jobs)) /\
  load_existing_feed file1 = map entry_of (file_items file1) /\
  dict_values (load_existing_feed file1) = file_items file1.
Proof.
  intros Hrun; destruct (@first_run _ Hrun) as [-> Hload].
  rewrite Hload, file_items_parsed, entry_of_values.
  repeat split; reflexivity.
Qed.

Hypothesis seen_before :
  forall j, In j again ->
    In (link j) (map link new_jobs) \/ In (link j) (dict_keys existing).

(** X11: a run that meets no posting with a new link leaves the items of
    the feed file as they are.  Under the conditions of the round trip,
    when the first run has written the file and every posting of the
    second run has the link of a posting of the first run or of a loaded
    item, the file after the second run has the items that it had after
    the first, in the same order and with the same five texts, whatever
    the second timestamp and whatever the other fields of the postings are
    now, and whether the second run writes the file or raises. *)
Theorem generate_rss_rerun_changes_nothing (file1 : feed_file) :
  generate_rss_file file now new_jobs = Some file1 ->
  file_items (persisted file1 (generate_rss_file file1 now' again)) =
  file_items file1.
Proof.
  intros Hrun; destruct (@first_run _ Hrun) as [E Hload].
  destruct (generate_rss_file file1 now' again) as [file2|] eqn:Hrun2;
    cbn [persisted]; [|reflexivity].
  apply generate_rss_file_written in Hrun2; destruct Hrun2 as [-> _].
  assert (Hkey : forall k, In k (dict_keys existing) -> In k (map fi_link feed)).
  { intros k Hk; apply dict_keys_values in Hk; destruct Hk as (v & Hv).
    destruct (load_existing_feed_loaded file) as [_ Hall].
    rewrite Forall_forall in Hall; destruct (Hall _ Hv) as [Hl _].
    simpl in Hl; rewrite <- Hl; apply in_map.
    unfold feed; apply in_or_app; left; apply dict_values_In; eauto. }
  assert (Hnone : truly_new_of (load_existing_feed file1) again = []).
  { apply filter_none; intros j Hj; apply negb_false_iff, dict_mem_In.
    rewrite Hload, entry_of_keys, written_links.
    destruct (seen_before _ Hj) as [Hin|Hin]; [|apply Hkey; exact Hin].
    apply in_map_iff in Hin; destruct Hin as (j' & Hl & Hj').
    rewrite <- Hl.
    destruct (in_dec str_dec (link j') (dict_keys existing)) as [Hold|Hnew].
    - apply Hkey; exact Hold.
    - change (link j') with (fi_link (new_item now j')); apply in_map.
      unfold feed; apply in_or_app; right; apply in_map.
      apply truly_new_In; auto. }
  rewrite Hnone, Hload, entry_of_values; cbn [map]; rewrite app_nil_r.
  rewrite E, !file_items_parsed, map_map.
  apply map_ext; intros d; apply in_file_twice.
Qed.

End Rerun.

End Scraper.

(* ========================================================================= *)
(** * Instances

    The theorems that have hypotheses, applied to sample inputs. *)


Lemma generate_numeric_id_is_16_digit_md5_witness :
  exists (utf8 : list N) (id : str),
    encode (lit "/jobs/a") = Some utf8 /\
    generate_numeric_id (lit "/jobs/a") = Some id /\
    id = numeric_id_spec utf8 /\
    length id = 16 /\ forallb is_digit id = true.
Proof.
  apply (@generate_numeric_id_is_16_digit_md5 (lit "/jobs/a")).
  vm_compute; reflexivity.
Defined.

Lemma should_include_consultant_veto_witness :
  should_include sample_data (lit "Senior Consultant, Supply Chain")
    (lit "P-4") (lit "Fixed Term") [] = false.
Proof.
  apply (proj2 (proj2 (@should_include_consultant_veto sample_data
                         (lit "Senior Consultant, Supply Chain")
                         (lit "P-4") (lit "Fixed Term") []))).
  exists (lit "Senior "), (lit ", Supply Chain"); reflexivity.
Defined.

Lemma should_include_excluded_grade_wins_witness :
  should_include sample_data (lit "Intern") (lit "sb 4") [] [] = false.
Proof.
  apply (proj1 (@should_include_excluded_grade_wins sample_data
                  (lit "Intern") (lit "sb 4") [] [])).
  left; exists (lit "SB-"); split.
  - right; left; reflexivity.
  - vm_compute; reflexivity.
Defined.


(** The sample table is consistent. *)

Lemma sample_decomposition_cases (c d : char) :
  In d (sample_decomposition c) ->
  In d [0x20; 0x301; 0x65; 0x2010; 0x2014; 0x2D; 0x50]%N \/
  (d = c /\ sample_decomposition c = [c]).
Proof.
  unfold sample_decomposition; by_table c.
  intros [<-|[]]; right; split; reflexivity.
Qed.

Lemma sample_decomposition_full (c d : char) :
  In d (decomposition sample_data c) -> stable sample_data d.
Proof.
  unfold stable, decomposition at 1; cbn [ud_decomposition sample_data].
  destruct (is_ascii c) eqn:A.
  - intros [<-|[]]; unfold decomposition; rewrite A; reflexivity.
  - intros H; apply sample_decomposition_cases in H.
    destruct H as [H|[-> H]].
    + cbn [In] in H.
      repeat (destruct H as [<-|H]; [reflexivity|]); contradiction.
    + unfold decomposition; rewrite A; exact H.
Qed.

Lemma sample_ascii_stable (u : char) :
  is_ascii u = true -> stable sample_data u.
Proof. intros A; unfold stable, decomposition; rewrite A; reflexivity. Qed.

Lemma sample_upper_ascii (c u : char) :
  is_ascii c = true -> In u (upper_char sample_data c) ->
  is_ascii u = true /\ upper_char sample_data u = [u].
Proof.
  unfold upper_char, is_ascii; intros A; rewrite A.
  apply N.ltb_lt in A.
  destruct ((97 <=? c)%N && (c <=? 122)%N) eqn:L; intros [<-|[]].
  - apply andb_true_iff in L; destruct L as [L1 L2]; apply N.leb_le in L1, L2.
    replace (c - 32 <? 128)%N with true by (symmetry; apply N.ltb_lt; lia).
    replace ((97 <=? c - 32)%N && (c - 32 <=? 122)%N) with false
      by (symmetry; apply andb_false_iff; left; apply N.leb_gt; lia).
    split; reflexivity.
  - replace (c <? 128)%N with true by (symmetry; apply N.ltb_lt; lia).
    rewrite L; split; reflexivity.
Qed.

Lemma sample_upper_cases (c : char) :
  (c = 0xDF%N /\ sample_upper c = [0x53; 0x53]%N) \/
  (c = 0xE9%N /\ sample_upper c = [0xC9%N]) \/
  (c = 0x3B1%N /\ sample_upper c = [0x391%N]) \/
  (c = 0x345%N /\ sample_upper c = [0x399%N]) \/
  sample_upper c = [c].
Proof.
  unfold sample_upper.
  destruct (c =? 0xDF)%N eqn:E1; [apply N.eqb_eq in E1; tauto|].
  destruct (c =? 0xE9)%N eqn:E2; [apply N.eqb_eq in E2; tauto|].
  destruct (c =? 0x3B1)%N eqn:E3; [apply N.eqb_eq in E3; tauto|].
  destruct (c =? 0x345)%N eqn:E4; [apply N.eqb_eq in E4; tauto|].
  tauto.
Qed.

Lemma sample_upper_other (c : char) :
  is_ascii c = false -> upper_char sample_data c = sample_upper c.
Proof. intros A; unfold upper_char; rewrite A; reflexivity. Qed.

Lemma sample_upper_stable (c u : char) :
  stable sample_data c -> In u (upper_char sample_data c) ->
  stable sample_data u.
Proof.
  intros Hc Hu; destruct (is_ascii c) eqn:A.
  - apply sample_ascii_stable, (sample_upper_ascii c u A Hu).
  - rewrite (sample_upper_other c A) in Hu.
    destruct (sample_upper_cases c)
      as [[_ E]|[[_ E]|[[_ E]|[[_ E]|E]]]]; rewrite E in Hu; cbn [In] in Hu;
      repeat (destruct Hu as [<-|Hu]; [try reflexivity|]);
      try contradiction.
    exact Hc.
Qed.

Lemma sample_upper_class (c : char) :
  stable sample_data c ->
  (exists u, upper_char sample_data c = [u] /\
             combining sample_data u = combining sample_data c) \/
  (upper_char sample_data c <> [] /\
   forall u, In u (upper_char sample_data c) ->
             combining sample_data u = 0%N).
Proof.
  intros _; destruct (is_ascii c) eqn:A.
  - left; unfold upper_char, combining; rewrite A.
    pose proof A as A'; unfold is_ascii in A'; apply N.ltb_lt in A'.
    destruct ((97 <=? c)%N && (c <=? 122)%N).
    + exists (c - 32)%N; split; [reflexivity|].
      unfold is_ascii; replace (c - 32 <? 128)%N with true
        by (symmetry; apply N.ltb_lt; lia).
      reflexivity.
    + exists c; rewrite A; split; reflexivity.
  - rewrite (sample_upper_other c A).
    destruct (sample_upper_cases c)
      as [[-> E]|[[-> E]|[[-> E]|[[-> E]|E]]]]; rewrite E.
    + right; split; [discriminate|].
      intros u [<-|[<-|[]]]; reflexivity.
    + left; exists 0xC9%N; split; reflexivity.
    + left; exists 0x391%N; split; reflexivity.
    + right; split; [discriminate|].
      intros u [<-|[]]; reflexivity.
    + left; exists c; split; reflexivity.
Qed.

Lemma sample_upper_fixed (c u : char) :
  stable sample_data c -> In u (upper_char sample_data c) ->
  upper_char sample_data u = [u].
Proof.
  intros _ Hu; destruct (is_ascii c) eqn:A.
  - apply (sample_upper_ascii c u A Hu).
  - rewrite (sample_upper_other c A) in Hu.
    destruct (sample_upper_cases c)
      as [[_ E]|[[_ E]|[[_ E]|[[_ E]|E]]]]; rewrite E in Hu; cbn [In] in Hu;
      repeat (destruct Hu as [<-|Hu]; [try reflexivity|]);
      try contradiction.
    rewrite (sample_upper_other c A); exact E.
Qed.

Lemma sample_upper_no_dash (c u : char) :
  stable sample_data c -> is_dash c = false ->
  In u (upper_char sample_data c) -> is_dash u = false.
Proof.
  intros _ Hd Hu; destruct (is_ascii c) eqn:A.
  - apply ascii_not_dash, (sample_upper_ascii c u A Hu).
  - rewrite (sample_upper_other c A) in Hu.
    destruct (sample_upper_cases c)
      as [[_ E]|[[_ E]|[[_ E]|[[_ E]|E]]]]; rewrite E in Hu; cbn [In] in Hu;
      repeat (destruct Hu as [<-|Hu]; [try reflexivity|]);
      try contradiction.
    exact Hd.
Qed.

Lemma sample_data_consistent : consistent_tables sample_data.
Proof.
  constructor.
  - exact sample_decomposition_full.
  - exact sample_upper_stable.
  - exact sample_upper_class.
  - exact sample_upper_fixed.
  - exact sample_upper_no_dash.
Qed.

Lemma normalize_idempotent_witness :
  normalize sample_data
    (normalize sample_data
       [0xB4; 0x65; 0x323; 0x301; 0xE9; 0x2011; 0xA0; 0x3000; 0xDF; 0x20;
        0x70; 0x2D; 0x34; 0x345; 0x301; 0x9]%N) =
  normalize sample_data
    [0xB4; 0x65; 0x323; 0x301; 0xE9; 0x2011; 0xA0; 0x3000; 0xDF; 0x20;
     0x70; 0x2D; 0x34; 0x345; 0x301; 0x9]%N.
Proof.
  apply (@normalize_idempotent sample_data sample_data_consistent).
Defined.

Lemma scrape_jobs_only_accepted_candidates_witness :
  let p := {| jobs_a := [sample_job_a]; jobs_b := [sample_job_b];
              jobs_c := []; has_next := false |} in
  should_include sample_data (title sample_job_b) (grade sample_job_b)
    (contract_type sample_job_b) (category sample_job_b) = true /\
  exists q, In q [p] /\
            (In sample_job_b (jobs_a q) \/ In sample_job_b (jobs_b q) \/
             In sample_job_b (jobs_c q)).
Proof.
  intros p.
  apply (@scrape_jobs_only_accepted_candidates sample_data [p] sample_job_b).
  vm_compute; right; left; reflexivity.
Defined.

Lemma merge_jobs_distinct_links_unchanged_witness :
  merge_jobs [[sample_job_a]; [sample_job_b]] = [sample_job_a; sample_job_b].
Proof.
  apply (@merge_jobs_distinct_links_unchanged [[sample_job_a]; [sample_job_b]]).
  vm_compute.
  constructor; [intros [H|[]]; discriminate H|].
  constructor; [intros []|constructor].
Defined.

Lemma merge_jobs_score_order_independent_witness :
  let sparse := {| title := lit "Programme Analyst";
                   link := lit "https://www.unfpa.org/jobs/programme-analyst";
                   location := []; grade := []; contract_type := [];
                   closing_date := []; category := [] |} in
  (forall k, In k (map link (merge_jobs [[sample_job_a]; [sparse]])) <->
             In k (map link (merge_jobs [[sparse]; [sample_job_a]]))) /\
  (forall j1 j2,
     In j1 (merge_jobs [[sample_job_a]; [sparse]]) ->
     In j2 (merge_jobs [[sparse]; [sample_job_a]]) ->
     link j1 = link j2 -> filled j1 = filled j2).
Proof.
  intros sparse.
  apply (@merge_jobs_score_order_independent
           [[sample_job_a]; [sparse]] [[sparse]; [sample_job_a]]).
  intros c; simpl; tauto.
Defined.

Lemma load_existing_feed_first_place_last_texts_witness :
  let k := lit "https://www.unfpa.org/jobs/midwifery-adviser" in
  let first := item_element (lit "Midwifery Adviser") k (lit "first")
                 (lit "0123456789012345")
                 (lit "Mon, 01 Jan 2024 00:00:00 +0000") in
  let other := item_element (lit "Programme Analyst")
                 (lit "https://www.unfpa.org/jobs/programme-analyst")
                 (lit "other") (lit "1111111111111111")
                 (lit "Tue, 02 Jan 2024 00:00:00 +0000") in
  let last := item_element (lit "Midwifery Adviser (re-advertised)") k
                (lit "last") (lit "2222222222222222")
                (lit "Wed, 03 Jan 2024 00:00:00 +0000") in
  let channel := Element (lit "channel") [] None [first; other; last] in
  let root := Element (lit "rss") [] None [channel] in
  dict_keys (load_existing_feed sample_data (Parsed root)) =
    first_seen (item_keys sample_data (findall channel (lit "item"))) /\
  dict_get (load_existing_feed sample_data (Parsed root)) k =
    option_map (fun item => item_entry sample_data item k)
      (List.find (filed_under sample_data k)
         (rev (findall channel (lit "item")))).
Proof.
  intros k first other last channel root.
  apply (@load_existing_feed_first_place_last_texts sample_data root channel k).
  vm_compute; reflexivity.
Defined.

Lemma main_appends_at_most_fifty_witness :
  let p := {| jobs_a := [sample_job_a]; jobs_b := [sample_job_b];
              jobs_c := []; has_next := false |} in
  let now := lit "Tue, 02 Jan 2024 06:00:00 +0000" in
  let rss := match main sample_data [p] sample_feed_file now with
             | Some rss => rss
             | None => Element [] [] None []
             end in
  exists added,
    feed_items rss =
      dict_values (load_existing_feed sample_data sample_feed_file) ++
      map (new_item now) added /\
    length added <= 50 /\
    forall j, In j added ->
      should_include sample_data (title j) (grade j) (contract_type j)
        (category j) = true /\
      ~ In (link j)
          (dict_keys (load_existing_feed sample_data sample_feed_file)).
Proof.
  intros p now rss.
  apply (@main_appends_at_most_fifty sample_data [p] sample_feed_file now rss).
  vm_compute; reflexivity.
Defined.


Lemma should_include_keyword_inside_word_witness :
  should_include sample_data (lit "International Relations Officer")
    (lit "P-6") (lit "Fixed Term") [] = true.
Proof.
  apply (@should_include_keyword_inside_word sample_data (lit "Intern")
           (lit "International Relations Officer") (lit "P-6")
           (lit "Fixed Term") []).
  - vm_compute; reflexivity.
  - vm_compute; left; reflexivity.
  - left; exists [], (lit "ational Relations Officer"); reflexivity.
  - vm_compute; reflexivity.
  - vm_compute; reflexivity.
Defined.

Lemma should_include_professional_grade_witness :
  should_include sample_data (lit "Programme Specialist")
    (lit "P  41") (lit "Fixed Term") [] = true.
Proof.
  apply (@should_include_professional_grade sample_data (lit "P") 52%N
           (lit "1") (lit "P  41") (lit "Programme Specialist")
           (lit "Fixed Term") []).
  - left; reflexivity.
  - vm_compute; right; right; right; left; reflexivity.
  - reflexivity.
  - right; right; exists (lit "  "); split; [discriminate|].
    split; reflexivity.
  - vm_compute; reflexivity.
Defined.

Lemma should_include_rejects_support_grades_witness :
  should_include sample_data (lit "Finance Intern") (lit "SB3")
    (lit "Internship") [] = false.
Proof.
  apply (@should_include_rejects_support_grades sample_data (lit "SB")
           (lit "3") (lit "SB3") (lit "Finance Intern") (lit "Internship") []).
  - vm_compute; right; left; reflexivity.
  - discriminate.
  - reflexivity.
  - left; reflexivity.
Defined.

Lemma strategy_b_candidates_witness :
  let href := lit "https://www.unfpa.org/jobs/programme-analyst/" in
  let anchors := [ Anchor (Some (lit "https://www.unfpa.org/jobs/"))
                     (Some (lit "All vacancies"));
                   Anchor (Some href) (Some (lit " View "));
                   Anchor (Some href) (Some (lit "Programme Analyst, Dakar")) ] in
  let j := bare_job (lit "Programme Analyst") href in
  (exists label, In (Anchor (Some (link j)) label) anchors) /\
  infix (lit "/jobs/") (link j) /\
  rstrip_of is_slash (link j) <> BASE_URL /\
  title_and_link j /\
  filled j = 2.
Proof.
  intros href anchors j.
  apply (@strategy_b_candidates sample_data ascii_lower ascii_title anchors j).
  vm_compute; left; reflexivity.
Defined.

Lemma merge_jobs_anchor_scan_never_displaces_witness :
  let anchors := Some [ Anchor (Some (link sample_job_a))
                          (Some (lit "Programme Analyst (P-3), Dakar, Senegal")) ] in
  In sample_job_a [sample_job_a] \/ In sample_job_a [].
Proof.
  intros anchors.
  apply (@merge_jobs_anchor_scan_never_displaces sample_data ascii_lower
           ascii_title [sample_job_a] [] anchors sample_job_a sample_job_a).
  - left; reflexivity.
  - vm_compute; discriminate.
  - vm_compute; discriminate.
  - vm_compute; left; reflexivity.
  - reflexivity.
Defined.

Lemma scrape_jobs_links_distinct_witness :
  let p1 := {| jobs_a := [sample_job_a]; jobs_b := [sample_job_a];
               jobs_c := []; has_next := true |} in
  let p2 := {| jobs_a := []; jobs_b := [sample_job_b];
               jobs_c := [sample_job_b]; has_next := false |} in
  NoDup (map link (scrape_jobs sample_data [p1; p2])).
Proof.
  intros p1 p2.
  apply (@scrape_jobs_links_distinct sample_data [p1; p2]).
  vm_compute.
  constructor; [intros [H|[]]; discriminate H|].
  constructor; [intros []|constructor].
Defined.

Lemma should_include_ignores_ascii_case_witness :
  should_include sample_data (lit "Communications INTERN") (lit "p-3")
    (lit "fixed term") [] =
  should_include sample_data (lit "communications intern") (lit "P-3")
    (lit "Fixed Term") [].
Proof.
  apply (@should_include_ignores_ascii_case sample_data
           (lit "Communications INTERN") (lit "p-3") (lit "fixed term") []
           (lit "communications intern") (lit "P-3") (lit "Fixed Term") []);
    vm_compute; reflexivity.
Defined.

Lemma expansions_need_a_digit_witness :
  let raw := lit " Internship  programme " in
  expand_compact_grade sample_data (normalize sample_data raw) =
    normalize sample_data raw /\
  expand_spaced_grade sample_data (normalize sample_data raw) =
    normalize sample_data raw /\
  normalize_grade sample_data raw = normalize sample_data raw.
Proof.
  intros raw.
  apply (@expansions_need_a_digit sample_data raw).
  vm_compute; reflexivity.
Defined.



Lemma load_existing_feed_empty_when_unusable_witness :
  let now := lit "Tue, 02 Jan 2024 06:00:00 +0000" in
  let rss := match generate_rss sample_data sample_other_file now
                     [sample_job_a; sample_job_b] with
             | Some rss => rss
             | None => Element [] [] None []
             end in
  load_existing_feed sample_data sample_other_file = [] /\
  truly_new_of (load_existing_feed sample_data sample_other_file)
    [sample_job_a; sample_job_b] = [sample_job_a; sample_job_b] /\
  feed_items rss = map (new_item now) [sample_job_a; sample_job_b].
Proof.
  intros now rss.
  destruct (@load_existing_feed_empty_when_unusable sample_data
              sample_other_file now [sample_job_a; sample_job_b])
    as (Hempty & Hnew & Hitems).
  - right; right; eexists; split; reflexivity.
  - split; [exact Hempty|]; split; [exact Hnew|].
    apply Hitems; vm_compute; reflexivity.
Defined.

Lemma generate_rss_then_load_round_trip_witness :
  let now := lit "Tue, 02 Jan 2024 06:00:00 +0000" in
  let file1 :=
    persisted sample_feed_file
      (generate_rss_file sample_data sample_feed_file now
         [sample_job_a; sample_job_b]) in
  file_items file1 =
    map (in_file sample_data)
      (dict_values (load_existing_feed sample_data sample_feed_file) ++
       map (new_item now)
         (truly_new_of (load_existing_feed sample_data sample_feed_file)
            [sample_job_a; sample_job_b])) /\
  load_existing_feed sample_data file1 = map entry_of (file_items file1) /\
  dict_values (load_existing_feed sample_data file1) = file_items file1.
Proof.
  intros now file1.
  apply (@generate_rss_then_load_round_trip sample_data sample_feed_file now
           [sample_job_a; sample_job_b]).
  - vm_compute; reflexivity.
  - vm_compute; reflexivity.
  - vm_compute; reflexivity.
  - vm_compute.
    constructor; [intros [H|[]]; discriminate H|].
    constructor; [intros []|constructor].
  - vm_compute; reflexivity.
  - vm_compute; reflexivity.
Defined.

Lemma generate_rss_rerun_changes_nothing_witness :
  let now := lit "Tue, 02 Jan 2024 06:00:00 +0000" in
  let later := lit "Wed, 03 Jan 2024 06:00:00 +0000" in
  let renamed := {| title := lit "Communications Intern (extended)";
                    link := link sample_job_b;
                    location := lit "Copenhagen";
                    grade := [];
                    contract_type := lit "Internship";
                    closing_date := lit "31 January 2024";
                    category := [] |} in
  let file1 :=
    persisted sample_feed_file
      (generate_rss_file sample_data sample_feed_file now
         [sample_job_a; sample_job_b]) in
  file_items
    (persisted file1 (generate_rss_file sample_data file1 later [renamed])) =
  file_items file1.
Proof.
  intros now later renamed file1.
  apply (@generate_rss_rerun_changes_nothing sample_data sample_feed_file now
           later [sample_job_a; sample_job_b] [renamed]).
  - vm_compute; reflexivity.
  - vm_compute; reflexivity.
  - vm_compute; reflexivity.
  - vm_compute.
    constructor; [intros [H|[]]; discriminate H|].
    constructor; [intros []|constructor].
  - vm_compute; reflexivity.
  - intros j [<-|[]]; left; right; left; reflexivity.
  - vm_compute; reflexivity.
Defined.
